(** * Mutual information: forward tile kernel and host entry points

    A shallow embedding of
    [torch_mutual_information/mutual_information_cuda_kernel.cu]:

    - [Int32]: the [int] and [unsigned int] arithmetic of the device code,
      as integers with the 32-bit reduction written out;
    - [Kernel]: the part of [mutual_information_kernel] that the file
      contains (tile scheduling, boundary resolution, tile extents, the
      scratch loads and the border import).  The body of this kernel
      stops after the border import;
    - [Host]: the two host entry points [mutual_information_cuda] and
      [mutual_information_backward_cuda], as programs of a small monad with
      a trace of device operations and the failures of [TORCH_CHECK], of
      the dispatch on the scalar type and of the accessors of a launch;
    - [Backward]: the routing of the gradients in
      [mutual_information_backward_kernel], through [n_buf] and the
      packed [src_indexes];
    - [Pointwise]: the loops over images and time steps of the code that
      follows the border import and of the backward kernel;
    - [Shared]: the accesses to shared memory around these loops;
    - [Reduce]: [strided_reduce_sum] and [tiled_warp_reduce_sum].

    Floating-point values are not computed: the embedding records which
    element or which expression a thread reads, stores or adds. *)

From Stdlib Require Import ZArith List Lia Bool String.
Import ListNotations.
Local Open Scope Z_scope.

(** ** 32-bit machine integers *)

Module Int32.

Definition modulus : Z := 2 ^ 32.
Definition half_modulus : Z := 2 ^ 31.
Definition max_int : Z := 2 ^ 31 - 1.
Definition min_int : Z := - 2 ^ 31.

(** The value of an [int] expression whose mathematical result is [z]. *)
Definition wrap (z : Z) : Z := (z + half_modulus) mod modulus - half_modulus.

(** [static_cast<unsigned int>(z)] *)
Definition to_unsigned (z : Z) : Z := z mod modulus.

Definition add (a b : Z) : Z := wrap (a + b).
Definition sub (a b : Z) : Z := wrap (a - b).
Definition mul (a b : Z) : Z := wrap (a * b).
(** [/] and [%] of C++ truncate towards zero. *)
Definition div (a b : Z) : Z := wrap (Z.quot a b).
Definition rem (a b : Z) : Z := Z.rem a b.

(** [static_cast<unsigned int>(a) < static_cast<unsigned int>(b)] *)
Definition ultb (a b : Z) : bool := to_unsigned a <? to_unsigned b.

Definition in_range (z : Z) : Prop := min_int <= z <= max_int.

End Int32.

(** ** The forward kernel *)

Module Kernel.

Import Int32.

(** What a scratch cell receives.  The scalar type of the kernel is a
    floating-point type; the embedding records which expression is
    stored, not its floating-point value. *)
Inductive load_val : Type :=
| ExpOf (b s t : Z)        (* exp(px[b][s][t]), resp. exp(py[b][s][t]) *)
| ZeroFill.                (* 0.0 *)

Inductive border_val : Type :=
| LoadP (i j : Z)          (* p[i][j] *)
| One                      (* the literal 1.0 *)
| NegInfinity.             (* -infinity *)

(** One write into [p_buf]: row, column, value. *)
Record border_write : Type := mkBorderWrite
  { bw_row : Z; bw_col : Z; bw_val : border_val }.

(** One write into [px_buf] and [py_buf] (both receive the same
    expression over their own tensor): row, column, value. *)
Record load_write : Type := mkLoadWrite
  { lw_s : Z; lw_t : Z; lw_val : load_val }.

(** The per-tile variables of the loop body, after the [continue] test. *)
Record tile : Type := mkTile
  { tile_b : Z;
    tile_block : Z;
    s_block_begin : Z;
    t_block_begin : Z;
    is_origin_block : bool;
    s_end : Z;
    t_end : Z;
    block_S : Z;
    block_T : Z }.

(** [for (int i = start; i < bound; i += step)], the values [i] takes.
    The fuel bounds the number of rounds. *)
Fixpoint stride_loop (fuel : nat) (i bound step : Z) : list Z :=
  match fuel with
  | O => []
  | S fuel' =>
      if i <? bound then i :: stride_loop fuel' (add i step) bound step
      else []
  end.

Section WithTemplateArgs.

(** Template arguments. *)
Variables BLOCK_S_SIZE BLOCK_T_SIZE : Z.

(** [px.size(0)], [px.size(1)], [py.size(2)]. *)
Variables B S T : Z.

(** The [boundary] accessor: no row (size 0), or rows of four entries.
    [boundary_buf] has no declared type in the source and its entries
    are assigned to [int] variables: the entries are integers here. *)
Variable boundary : list (list Z).

Definition boundary_at (b k : Z) : Z :=
  nth (Z.to_nat k) (nth (Z.to_nat b) boundary []) 0.

Definition block_dimx : Z := mul BLOCK_T_SIZE 4.

Definition num_s_blocks : Z :=
  div (sub (add S BLOCK_S_SIZE) 1) BLOCK_S_SIZE.
Definition num_t_blocks : Z :=
  div (sub (add T BLOCK_T_SIZE) 1) BLOCK_T_SIZE.

Definition num_blocks_this_iter (iter : Z) : Z :=
  Z.min (add iter 1) num_s_blocks.

(** The loop body up to and including [continue]: [None] is
    [continue]. *)
Definition kernel_unit (iter batch_block_iter : Z) : option tile :=
  let b := rem batch_block_iter B in
  let block := div batch_block_iter B in
  let s_block_begin0 := mul block BLOCK_S_SIZE in
  let t_block_begin0 := mul (sub iter block) BLOCK_T_SIZE in
  let is_origin := mul s_block_begin0 t_block_begin0 =? 0 in
  let '(sbb, tbb, se, te) :=
    match boundary with
    | [] => (s_block_begin0, t_block_begin0, S, T)
    | _ =>
        let s_begin := boundary_at b 0 in
        let t_begin := boundary_at b 1 in
        (add s_block_begin0 s_begin, add t_block_begin0 t_begin,
         boundary_at b 2, boundary_at b 3)
    end in
  let bS := Z.min BLOCK_T_SIZE (sub se sbb) in
  let bT := Z.min BLOCK_S_SIZE (sub te tbb) in
  if (bS <=? 0) || (bT <=? 0) then None
  else Some (mkTile b block sbb tbb is_origin se te bS bT).

(** The tiles one thread block works on in one launch. *)
Definition kernel_block (iter blockIdx_x gridDim_x : Z) : list tile :=
  let bound := mul B (num_blocks_this_iter iter) in
  flat_map
    (fun bbi => match kernel_unit iter bbi with
                | Some u => [u]
                | None => []
                end)
    (stride_loop (Z.to_nat bound) blockIdx_x bound gridDim_x).

(** The tiles of one launch, over the whole grid. *)
Definition kernel_launch (iter gridDim_x : Z) : list tile :=
  flat_map (fun bx => kernel_block iter (Z.of_nat bx) gridDim_x)
           (seq 0 (Z.to_nat gridDim_x)).

(** Loading [px_buf] and [py_buf]: the writes of thread [tid] (the
    source starts the loop at [threadDim.x], read as [threadIdx.x]). *)
Definition load_thread (u : tile) (tid : Z) : list load_write :=
  let bound := mul BLOCK_S_SIZE BLOCK_T_SIZE in
  map
    (fun i =>
       let t := rem i BLOCK_T_SIZE in
       let s := div i BLOCK_T_SIZE in
       if (s <? block_S u) && (t <? block_T u)
       then mkLoadWrite s t
              (ExpOf (tile_b u) (add s (s_block_begin u))
                     (add t (t_block_begin u)))
       else mkLoadWrite s t ZeroFill)
    (stride_loop (Z.to_nat bound) tid bound block_dimx).

(** Loading the first row and column of [p_buf]: the write of thread
    [tid], if it makes one.  [threadIdx.x] is unsigned, so an [int]
    compared with it is converted to unsigned.  The last assignment of
    the source reads
    [(is_origin_block && i == 1 ? 1.0 / -infinity;]: it is taken as the
    conditional expression with values [1.0] and [-infinity]. *)
Definition border_thread (u : tile) (tid : Z) : option border_write :=
  if tid <? 64 then
    if tid <=? to_unsigned BLOCK_S_SIZE then
      let s := sub tid 1 in
      let t := -1 in
      if ultb (add s (s_block_begin u)) (block_S u)
         && ultb (add t (t_block_begin u)) (block_T u)
      then Some (mkBorderWrite tid 0
                   (LoadP (add s (s_block_begin u))
                          (add s (t_block_begin u))))
      else Some (mkBorderWrite tid 0 NegInfinity)
    else None
  else
    if to_unsigned (tid - 64) <=? to_unsigned BLOCK_T_SIZE then
      let i := sub tid 64 in
      let t := sub i 1 in
      let s := -1 in
      if ultb (add s (s_block_begin u)) (block_S u)
         && ultb (add t (t_block_begin u)) (block_T u)
      then Some (mkBorderWrite 0 i
                   (LoadP (add s (s_block_begin u))
                          (add s (t_block_begin u))))
      else Some (mkBorderWrite 0 i
                   (if is_origin_block u && (i =? 1)
                    then One else NegInfinity))
    else None.

(** The scratch memory of a tile when the border import is over: the
    writes of all threads of the block, in thread order. *)
Definition threads : list Z :=
  map Z.of_nat (seq 0 (Z.to_nat block_dimx)).

Definition tile_loads (u : tile) : list load_write :=
  flat_map (load_thread u) threads.

Definition tile_border (u : tile) : list border_write :=
  flat_map (fun tid => match border_thread u tid with
                       | Some w => [w]
                       | None => []
                       end) threads.

(** The cells of [px] and [py] a tile reads into its scratch memory. *)
Definition is_exp (v : load_val) : bool :=
  match v with ExpOf _ _ _ => true | ZeroFill => false end.

Definition loaded_cells (u : tile) : list load_val :=
  filter is_exp (map lw_val (tile_loads u)).

(** A border cell taken from [p]. *)
Definition imports_p (w : border_write) : bool :=
  match bw_val w with LoadP _ _ => true | _ => false end.

(** The state of a launch where the body of the kernel stops: every tile
    worked on, with the contents of its scratch memory. *)
Definition tile_scratch (u : tile) : list load_write * list border_write :=
  (tile_loads u, tile_border u).

Definition kernel_state (iter gridDim_x : Z)
  : list (tile * (list load_write * list border_write)) :=
  map (fun u => (u, tile_scratch u)) (kernel_launch iter gridDim_x).

(** The unit of batch element [b] and tile [(s, iter - s)] does work in
    launch [iter]: the loop reaches it and does not [continue]. *)
Definition does_work (iter gridDim_x b s : Z) : Prop :=
  exists u, In u (kernel_launch iter gridDim_x)
            /\ tile_b u = b /\ tile_block u = s.

(** The rectangle of batch element [b] the way the specification words
    it: the row of [boundary], or [(0, 0, S, T)] when there is none. *)
Definition boundary_rect (b : Z) : Z * Z * Z * Z :=
  match boundary with
  | [] => (0, 0, S, T)
  | _ => (boundary_at b 0, boundary_at b 1, boundary_at b 2, boundary_at b 3)
  end.

(** A row of [boundary] is a rectangle inside the [(S, T)] plane. *)
Definition valid_row (r : list Z) : Prop :=
  exists s_begin t_begin s_end' t_end',
    r = [s_begin; t_begin; s_end'; t_end']
    /\ 0 <= s_begin <= s_end' /\ s_end' <= S
    /\ 0 <= t_begin <= t_end' /\ t_end' <= T.

(** The sizes of a launch for which no [int] expression of the scheduling
    code leaves the range of [int]. *)
Record launch_in_range (iter gridDim_x : Z) : Prop := mkLaunchInRange
  { lr_block_s : 1 <= BLOCK_S_SIZE;
    lr_block_t : 1 <= BLOCK_T_SIZE;
    lr_B : 0 <= B;
    lr_S : 0 <= S;
    lr_T : 0 <= T;
    lr_iter : 0 <= iter;
    lr_grid : 1 <= gridDim_x;
    lr_s_max : 2 * S + BLOCK_S_SIZE <= max_int;
    lr_t_max : (iter + 1) * BLOCK_T_SIZE + T + BLOCK_T_SIZE <= max_int;
    lr_units : (B + 1) * (iter + 1) + gridDim_x <= max_int;
    lr_rows : Forall valid_row boundary;
    lr_batch : boundary = [] \/ Z.of_nat (List.length boundary) = B }.

(** The sizes of the scratch arrays for which the load loop stays inside
    [int]. *)
Definition scratch_in_range : Prop :=
  BLOCK_S_SIZE * BLOCK_T_SIZE + 4 * BLOCK_T_SIZE <= max_int.

End WithTemplateArgs.

(** The explicit boundary with the rectangle [(0, 0, S, T)] for every
    batch element. *)
Definition default_boundary (B S T : Z) : list (list Z) :=
  repeat [0; 0; S; T] (Z.to_nat B).

End Kernel.

(** ** The host entry points *)

Module Host.

Import Int32.

Inductive device : Type := CPU | CUDA (index : Z).

Definition is_cuda (d : device) : bool :=
  match d with CUDA _ => true | CPU => false end.

Inductive dtype : Type := Half | Float | Double | Long.

(** Where a tensor comes from: an argument of the call, or the result of
    the device operation at a position of the trace. *)
Inductive handle : Type := Arg (name : string) | Made (position : nat).

Record tensor : Type := mkTensor
  { t_shape : list Z; t_dtype : dtype; t_device : device;
    t_handle : handle }.

Definition dim (t : tensor) : Z := Z.of_nat (List.length (t_shape t)).
Definition size (t : tensor) (i : nat) : Z := nth i (t_shape t) 0.

(** Device operations, in the order the host issues them. *)
Inductive op : Type :=
| OpEmpty (shape : list Z) (dt : dtype) (dev : device)
| OpZeros (shape : list Z) (dt : dtype) (dev : device)
| OpLaunch (kernel : string) (grid : Z * Z * Z) (block : Z)
           (shared_numel : Z) (args : list tensor)
           (images_per_thread_block : Z)
| OpSum (src : tensor) (dims : list nat).

Definition is_launch (o : op) : bool :=
  match o with OpLaunch _ _ _ _ _ _ => true | _ => false end.

(** What [packed_accessor32] asks of a tensor. *)
Inductive accessor_check : Type :=
| NumelFitsInt32              (* numel() <= INT32_MAX *)
| DimIs (n : Z)               (* dim() == n *)
| ScalarTypeIs (dt : dtype).  (* the elements are of type scalar_t *)

Inductive error : Type :=
| CheckFailed (message : string)            (* TORCH_CHECK *)
| NotImplementedFor (name : string) (dt : dtype)  (* AT_DISPATCH_... *)
| AccessorFailed (check : accessor_check) (t : handle).
                                            (* packed_accessor32 *)

Inductive outcome (A : Type) : Type :=
| Ok (a : A)
| Rejected (e : error)
| OutOfFuel.
Arguments Ok {A} a.
Arguments Rejected {A} e.
Arguments OutOfFuel {A}.

(** A host computation: from the trace so far to an outcome and the
    trace extended by the operations issued. *)
Definition M (A : Type) : Type := list op -> outcome A * list op.

Definition ret {A} (a : A) : M A := fun tr => (Ok a, tr).

Definition bind {A B} (m : M A) (k : A -> M B) : M B :=
  fun tr =>
    match m tr with
    | (Ok a, tr') => k a tr'
    | (Rejected e, tr') => (Rejected e, tr')
    | (OutOfFuel, tr') => (OutOfFuel, tr')
    end.

Notation "x <- m ;; k" := (bind m (fun x => k))
  (at level 61, m at next level, right associativity).
Notation "m ;; k" := (bind m (fun _ => k))
  (at level 61, right associativity).

Definition TORCH_CHECK (cond : bool) (message : string) : M unit :=
  fun tr => if cond then (Ok tt, tr) else (Rejected (CheckFailed message), tr).

Definition issue (o : op) : M nat :=
  fun tr => (Ok (List.length tr), (tr ++ [o])%list).

Definition torch_empty (shape : list Z) (dt : dtype) (dev : device)
  : M tensor :=
  n <- issue (OpEmpty shape dt dev) ;;
  ret (mkTensor shape dt dev (Made n)).

Definition torch_zeros (shape : list Z) (dt : dtype) (dev : device)
  : M tensor :=
  n <- issue (OpZeros shape dt dev) ;;
  ret (mkTensor shape dt dev (Made n)).

(** [at::sum(src, {0})]: the leading dimension is summed away. *)
Definition at_sum0 (src : tensor) : M tensor :=
  n <- issue (OpSum src [0%nat]) ;;
  ret (mkTensor (tl (t_shape src)) (t_dtype src) (t_device src) (Made n)).

Definition is_floating (dt : dtype) : bool :=
  match dt with Float | Double => true | _ => false end.

(** The body is compiled once for each floating type, with [scalar_t]
    standing for that type. *)
Definition AT_DISPATCH_FLOATING_TYPES {A} (dt : dtype) (name : string)
    (body : dtype -> M A) : M A :=
  if is_floating dt then body dt
  else fun tr => (Rejected (NotImplementedFor name dt), tr).

Definition dtype_eqb (a b : dtype) : bool :=
  match a, b with
  | Half, Half | Float, Float | Double, Double | Long, Long => true
  | _, _ => false
  end.

(** [t.numel()] *)
Definition numel (t : tensor) : Z := fold_right Z.mul 1 (t_shape t).

(** [t.packed_accessor32<scalar_t, n>()].  The accessor belongs to the
    tensor library, not to this file; it throws unless the tensor has at
    most [INT32_MAX] elements, has [n] dimensions, and holds elements of
    type [scalar_t].  The accessors of a launch are arguments of one
    call, so the language leaves their order open; they are taken here
    in the order in which they are written.  None of them issues a
    device operation, so the order decides only which of several failing
    accessors is the one that reports. *)
Definition packed_accessor32 (scalar_t : dtype) (n : Z) (t : tensor)
  : M unit :=
  fun tr =>
    if negb (numel t <=? max_int)
    then (Rejected (AccessorFailed NumelFitsInt32 (t_handle t)), tr)
    else if negb (dim t =? n)
    then (Rejected (AccessorFailed (DimIs n) (t_handle t)), tr)
    else if negb (dtype_eqb (t_dtype t) scalar_t)
    then (Rejected (AccessorFailed (ScalarTypeIs scalar_t) (t_handle t)),
          tr)
    else (Ok tt, tr).

(** [while (cond) body;] on one [int] variable. *)
Fixpoint while (fuel : nat) (cond : Z -> bool) (body : Z -> Z) (x : Z)
  : M Z :=
  match fuel with
  | O => fun tr => (OutOfFuel, tr)
  | S fuel' =>
      if cond x then while fuel' cond body (body x) else ret x
  end.

Section WithThreadsPerBlock.

(** The macro [THREADS_PER_BLOCK]; the file does not define it. *)
Variable THREADS_PER_BLOCK : Z.

Definition mutual_information_cuda (fuel : nat) (input params : tensor)
  : M tensor :=
  TORCH_CHECK (dim input =? 3) "input must be 3-dimensional" ;;
  TORCH_CHECK (dim params =? 2) "params must be 2-dimensional." ;;
  TORCH_CHECK
    ((3 <=? size params 1)
     && (Z.land (size params 1 - 1) (size params 1 - 2) =? 0))
    "params.size(1) has invalid value, must be a power of 2 plus 1." ;;
  TORCH_CHECK (size params 0 =? size input 1)
    "params vs input channels mismatch" ;;
  TORCH_CHECK (is_cuda (t_device input)) "Input must be a CUDA tensor" ;;
  TORCH_CHECK (is_cuda (t_device params)) "Params must be a CUDA tensor" ;;
  let B := wrap (size input 0) in
  let C := wrap (size input 1) in
  let T := wrap (size input 2) in
  let N := wrap (size params 1 - 1) in
  output <- torch_empty [B; C; T] (t_dtype input) (t_device input) ;;
  if mul (mul C B) T =? 0 then ret output
  else
    images_per_thread_block <-
      while fuel
        (fun ipb => mul (mul ipb 2) T <=? THREADS_PER_BLOCK)
        (fun ipb => mul ipb 2) 1 ;;
    grid_dim_y0 <-
      while fuel (fun g => mul C g <? 128) (fun g => mul g 2) 1 ;;
    let B_reduced :=
      div (sub (add B images_per_thread_block) 1)
          images_per_thread_block in
    let grid_dim_y :=
      if B_reduced <? grid_dim_y0 then B_reduced else grid_dim_y0 in
    let shared_mem_numel := add (mul 2 N) 3 in
    TORCH_CHECK
      ((T <=? div THREADS_PER_BLOCK images_per_thread_block)
       || (images_per_thread_block =? 1))
      "Code error" ;;
    TORCH_CHECK (add N 1 <=? THREADS_PER_BLOCK)
      "Values of N this large are not supported." ;;
    AT_DISPATCH_FLOATING_TYPES (t_dtype input) "mutual_information_kernel"
      (fun scalar_t =>
         packed_accessor32 scalar_t 3 input ;;
         packed_accessor32 scalar_t 2 params ;;
         packed_accessor32 scalar_t 3 output ;;
         issue (OpLaunch "mutual_information_kernel"
                  (C, grid_dim_y, 1) THREADS_PER_BLOCK shared_mem_numel
                  [input; params; output] images_per_thread_block)) ;;
    ret output.

Definition mutual_information_backward_cuda (fuel : nat)
    (input params output_grad : tensor) : M (list tensor) :=
  TORCH_CHECK (dim input =? 3) "input must be 3-dimensional" ;;
  TORCH_CHECK (dim params =? 2) "params must be 2-dimensional." ;;
  TORCH_CHECK
    ((3 <=? size params 1)
     && (Z.land (size params 1 - 1) (size params 1 - 2) =? 0))
    "params.size(1) has invalid value, must be a power of 2 plus 1." ;;
  TORCH_CHECK (size params 0 =? size input 1)
    "params vs input channels mismatch" ;;
  TORCH_CHECK
    ((dim output_grad =? 3)
     && (size output_grad 0 =? size input 0)
     && (size output_grad 1 =? size input 1)
     && (size output_grad 2 =? size input 2))
    "output_grad and input have mismatched dim." ;;
  TORCH_CHECK (is_cuda (t_device input)) "Input must be a CUDA tensor" ;;
  TORCH_CHECK (is_cuda (t_device output_grad))
    "output_grad must be a CUDA tensor" ;;
  TORCH_CHECK (is_cuda (t_device params)) "Params must be a CUDA tensor" ;;
  let B := wrap (size input 0) in
  let C := wrap (size input 1) in
  let T := wrap (size input 2) in
  let N := wrap (size params 1 - 1) in
  TORCH_CHECK (4 <=? N) "This backward code requires N >= 4" ;;
  TORCH_CHECK (N <=? 16)
    "This backward code currently requires N <= 16" ;;
  TORCH_CHECK (Z.land N (sub N 1) =? 0) "N must be a power of 2" ;;
  input_grad <- torch_empty [B; C; T] (t_dtype input) (t_device input) ;;
  if mul (mul C B) T =? 0 then
    params_grad <- torch_empty [C; add N 1] Float CPU ;;
    ret [input_grad; params_grad]
  else
    images_per_thread_block <-
      while fuel
        (fun ipb => (mul (mul ipb 2) T <=? THREADS_PER_BLOCK)
                    && (mul (mul ipb 2) N <=? THREADS_PER_BLOCK))
        (fun ipb => mul ipb 2) 1 ;;
    grid_dim_y0 <-
      while fuel (fun g => mul C g <? 128) (fun g => mul g 2) 1 ;;
    let B_reduced :=
      div (sub (add B images_per_thread_block) 1)
          images_per_thread_block in
    let grid_dim_y :=
      if B_reduced <? grid_dim_y0 then B_reduced else grid_dim_y0 in
    let shared_mem_numel := add (mul 2 N) 3 in
    TORCH_CHECK
      ((T <=? div THREADS_PER_BLOCK images_per_thread_block)
       || (images_per_thread_block =? 1))
      "Code error" ;;
    TORCH_CHECK (N <=? div THREADS_PER_BLOCK images_per_thread_block)
      "" ;;
    params_grad <-
      torch_zeros [grid_dim_y; C; add N 1]
        (t_dtype input) (t_device input) ;;
    AT_DISPATCH_FLOATING_TYPES (t_dtype input)
      "mutual_information_backward_kernel"
      (fun scalar_t =>
         packed_accessor32 scalar_t 3 input ;;
         packed_accessor32 scalar_t 2 params ;;
         packed_accessor32 scalar_t 3 output_grad ;;
         packed_accessor32 scalar_t 3 input_grad ;;
         packed_accessor32 scalar_t 3 params_grad ;;
         issue (OpLaunch "mutual_information_backward_kernel"
                  (C, grid_dim_y, 1) THREADS_PER_BLOCK shared_mem_numel
                  [input; params; output_grad; input_grad; params_grad]
                  images_per_thread_block)) ;;
    params_grad <- at_sum0 params_grad ;;
    ret [input_grad; params_grad].

End WithThreadsPerBlock.


(** The last statement of [mutual_information_backward_kernel]: thread
    [threadIdx_x] of block [(blockIdx_x, blockIdx_y)] stores its entry of
    [params_grad_buf] at this index of [params_grad], if it stores. *)
Definition params_grad_store (N blockIdx_x blockIdx_y threadIdx_x : Z)
  : option (Z * Z * Z) :=
  if threadIdx_x <=? to_unsigned N
  then Some (blockIdx_y, blockIdx_x, threadIdx_x)
  else None.

End Host.

(** ** The backward kernel: routing of the gradients *)

Module Backward.

Import Int32.

(** [uint64_t] arithmetic. *)
Definition wrap64 (z : Z) : Z := z mod 2 ^ 64.

(** [n_buf] is an array of [char]; the model keeps the bytes, and reads a
    byte as a [char], which is signed on the target. *)
Definition char_of_byte (b : Z) : Z := if b <? 128 then b else b - 256.

Definition byte_at (n_buf : list Z) (i : Z) : Z :=
  nth (Z.to_nat i) n_buf 0.

Fixpoint set_nth (n : nat) (v : Z) (l : list Z) : list Z :=
  match l, n with
  | [], _ => []
  | _ :: l', O => v :: l'
  | x :: l', S n' => x :: set_nth n' v l'
  end.

Definition set_byte (n_buf : list Z) (i v : Z) : list Z :=
  set_nth (Z.to_nat i) v n_buf.

(** [*reinterpret_cast<uint32_t*>(n_buf + off)]; the target is little
    endian. *)
Definition read_uint32 (n_buf : list Z) (off : Z) : Z :=
  byte_at n_buf off
  + 2 ^ 8 * byte_at n_buf (off + 1)
  + 2 ^ 16 * byte_at n_buf (off + 2)
  + 2 ^ 24 * byte_at n_buf (off + 3).

(** [threadIdx.x & ~(N-1)] and [threadIdx.x & (N-1)]: the [int] operand is
    converted to unsigned, the result goes to an [int]. *)
Definition this_block_start (N tid : Z) : Z :=
  wrap (Z.land tid (to_unsigned (Z.lnot (sub N 1)))).

Definition this_n (N tid : Z) : Z :=
  wrap (Z.land tid (to_unsigned (sub N 1))).

(** [(threadIdx.x & (T_inc - 1)) | t_offset] *)
Definition time_index (T_inc tid t_offset : Z) : Z :=
  wrap (Z.lor (Z.land tid (to_unsigned (sub T_inc 1)))
              (to_unsigned t_offset)).

(** The body of the inner loop over [j]: the state is
    [(src_indexes, num_src)]. *)
Definition gather_entry (tn i j word : Z) (st : Z * Z) : Z * Z :=
  let '(src_indexes, num_src) := st in
  let n := char_of_byte (Z.shiftr word (8 * j) mod 2 ^ 8) in
  if n =? tn
  then (Z.lor (wrap64 (Z.shiftl src_indexes 4)) (add i j), add num_src 1)
  else st.

(** The body of the loop over [i]. *)
Definition gather_word (tn : Z) (n_buf : list Z) (block_start i : Z)
    (st : Z * Z) : Z * Z :=
  let n_block_of_4 := read_uint32 n_buf (add block_start i) in
  fold_left (fun st j => gather_entry tn i j n_block_of_4 st)
            [0; 1; 2; 3] st.

(** The loop [for (int i = 0; i < N; i += 4)] of thread [tid]. *)
Definition gather (N : Z) (n_buf : list Z) (tid : Z) : Z * Z :=
  fold_left
    (fun st i =>
       gather_word (this_n N tid) n_buf (this_block_start N tid) i st)
    (Kernel.stride_loop (Z.to_nat N) 0 N 4) (0, 0).

(** The loop [for (; num_src > 0; --num_src, src_indexes >>= 4)]: the
    state is [n_buf] and the list of the threads whose [output_grad] and
    [input] have been added to [this_param_grad] and [this_y_vals_grad].
    [None] is a failure of the [assert]. *)
Fixpoint pop_loop (rounds : nat) (block_start tn src_indexes : Z)
    (n_buf sources : list Z) : option (list Z * list Z) :=
  match rounds with
  | O => Some (n_buf, sources)
  | S rounds' =>
      let src_thread :=
        wrap (wrap64 (Z.lor block_start (Z.land src_indexes 15))) in
      if char_of_byte (byte_at n_buf src_thread) =? tn
      then pop_loop rounds' block_start tn (Z.shiftr src_indexes 4)
             (set_byte n_buf src_thread 0) (sources ++ [src_thread])
      else None
  end.

(** What thread [tid] does with the state [(src_indexes, num_src)] it
    has gathered. *)
Definition consume (N : Z) (tid : Z) (gathered : Z * Z)
    (n_buf : list Z) : option (list Z * list Z) :=
  pop_loop (Z.to_nat (snd gathered)) (this_block_start N tid)
           (this_n N tid) (fst gathered) n_buf [].

(** The threads of a block in lockstep: all of them gather from [n_buf]
    as the block has written it, then they consume; the threads are taken
    in the order of the list.  The result is the final [n_buf] and, per
    thread, the sources it has accumulated. *)
Definition route_block (N : Z) (n_buf : list Z) (tids : list Z)
  : option (list Z * list (Z * list Z)) :=
  fold_left
    (fun acc tid =>
       match acc with
       | None => None
       | Some (buf, outs) =>
           match consume N tid (gather N n_buf tid) buf with
           | None => None
           | Some (buf', sources) => Some (buf', outs ++ [(tid, sources)])
           end
       end)
    tids (Some (n_buf, [])).

(** The value of [src_indexes] after the offsets [xs] have been pushed,
    in this order, read in base 16. *)
Definition pack (xs : list Z) : Z := fold_left (fun a x => 16 * a + x) xs 0.

(** [assert(n_buf[threadIdx.x] == 0 ||
           (unsigned char)n_buf[threadIdx.x] == 255)] *)
Definition final_assert (n_buf : list Z) (tid : Z) : bool :=
  (char_of_byte (byte_at n_buf tid) =? 0) || (byte_at n_buf tid =? 255).

(** The sources the comments promise to thread [tid]: the threads of its
    block of [N] threads whose [n] is [tid % N], the last one first. *)
Definition sources_of (N : Z) (n_buf : list Z) (tid : Z) : list Z :=
  map (fun x => N * (tid / N) + x)
      (rev (filter (fun x => byte_at n_buf (N * (tid / N) + x)
                             =? tid mod N)
                   (map Z.of_nat (seq 0 (Z.to_nat N))))).

End Backward.

(** ** Arithmetic on [threadIdx.x] *)

Module UInt32.

Import Int32.

(** [threadIdx.x] and [blockDim.x] are [unsigned int]: with an [int] as
    the other operand, [/], [%] and [<] are those of [unsigned int].  The
    results below are the values as they are stored in an [int]. *)
Definition udiv (a b : Z) : Z := wrap (to_unsigned a / to_unsigned b).
Definition urem (a b : Z) : Z := wrap (to_unsigned a mod to_unsigned b).

End UInt32.

(** ** The loops over the elements of the batch *)

Module Pointwise.

Import Int32 UInt32.

Section WithThreadsPerBlock.

Variable THREADS_PER_BLOCK : Z.

(** The images a thread works on:
    [for (int b = blockIdx.y * images_per_thread_block + b_offset; b < B;
          b += gridDim.y * images_per_thread_block)], with
    [b_offset = threadIdx.x / T_inc]. *)
Definition image_loop (images_per_thread_block B gridDim_y blockIdx_y
    tid : Z) : list Z :=
  let T_inc := div THREADS_PER_BLOCK images_per_thread_block in
  let b_offset := udiv tid T_inc in
  Kernel.stride_loop (Z.to_nat B)
    (add (mul blockIdx_y images_per_thread_block) b_offset) B
    (mul gridDim_y images_per_thread_block).

(** The forward kernel: the elements [(b, t)] for which a thread stores
    [output[b][c][t]], in the order of the stores. *)
Definition forward_thread (images_per_thread_block B T gridDim_y
    blockIdx_y tid : Z) : list (Z * Z) :=
  let T_inc := div THREADS_PER_BLOCK images_per_thread_block in
  let t_start := urem tid T_inc in
  flat_map
    (fun b =>
       map (fun t => (b, t))
           (Kernel.stride_loop (Z.to_nat T) t_start T THREADS_PER_BLOCK))
    (image_loop images_per_thread_block B gridDim_y blockIdx_y tid).

(** The backward kernel: the rounds of a thread.  In a round the thread
    has an element [(b, t)], for which it stores [input_grad[b][c][t]]
    and an interval index in [n_buf], or it has none ([t >= T]) and
    stores 255 in [n_buf]. *)
Definition backward_rounds (images_per_thread_block B T gridDim_y
    blockIdx_y tid : Z) : list (option (Z * Z)) :=
  let T_inc := div THREADS_PER_BLOCK images_per_thread_block in
  flat_map
    (fun b =>
       map (fun t_offset =>
              let t := Backward.time_index T_inc tid t_offset in
              if t <? T then Some (b, t) else None)
           (Kernel.stride_loop (Z.to_nat T) 0 T THREADS_PER_BLOCK))
    (image_loop images_per_thread_block B gridDim_y blockIdx_y tid).

Fixpoint somes {A : Type} (l : list (option A)) : list A :=
  match l with
  | [] => []
  | Some a :: l' => a :: somes l'
  | None :: l' => somes l'
  end.

(** The elements for which a thread stores [input_grad[b][c][t]]. *)
Definition backward_thread (images_per_thread_block B T gridDim_y
    blockIdx_y tid : Z) : list (Z * Z) :=
  somes (backward_rounds images_per_thread_block B T gridDim_y
                         blockIdx_y tid).

End WithThreadsPerBlock.

End Pointwise.

(** ** Shared memory of the two kernels *)

Module Shared.

Import Int32.

(** The arrays in shared memory: [extern_buf], whose size the host fixes
    at the launch, and the arrays of [THREADS_PER_BLOCK] elements of the
    backward kernel. *)
Inductive array : Type := ExternBuf | InputBuf | OutputGradBuf.

(** The pointers through which the kernels reach them. *)
Inductive pointer : Type :=
| y_vals | params_buf | params_grad_buf | y_vals_grad_buf.

Inductive kind : Type := Load | Store.

Record access : Type := mkAccess
  { acc_kind : kind; acc_ptr : pointer; acc_index : Z }.

(** [y_vals = extern_buf], [params_buf = y_vals + 3 + N],
    [params_grad_buf = input_buf + 1], [y_vals_grad_buf = output_grad_buf]:
    the array and the position, in scalars, of [ptr[i]]. *)
Definition place (N : Z) (ptr : pointer) (i : Z) : array * Z :=
  match ptr with
  | y_vals => (ExternBuf, i)
  | params_buf => (ExternBuf, 3 + N + i)
  | params_grad_buf => (InputBuf, 1 + i)
  | y_vals_grad_buf => (OutputGradBuf, i)
  end.

(** The host passes [sizeof(scalar_t) * (2 * N + 3)] bytes for
    [extern_buf]. *)
Definition in_bounds (THREADS_PER_BLOCK N : Z) (cell : array * Z) : Prop :=
  match fst cell with
  | ExternBuf => 0 <= snd cell < 2 * N + 3
  | InputBuf | OutputGradBuf => 0 <= snd cell < THREADS_PER_BLOCK
  end.

(** [for (int i = K - 1; i >= 0; i--)] *)
Fixpoint count_down (fuel : nat) (i : Z) : list Z :=
  match fuel with
  | O => []
  | S fuel' => if 0 <=? i then i :: count_down fuel' (sub i 1) else []
  end.

(** The accesses of a thread from the load of the parameters to the read
    of [inv_scale].  The two kernels have the same statements, but for
    the index of the lower half, [K - 1 - i] in the forward and
    [K - i - 1] in the backward kernel.  The index [threadIdx.x - 1] is
    taken as the [int] it is meant to be, [-1] in thread 0: the comments
    of the source place [params[c][0]] at [params_buf[-1]].  A
    comparison of [threadIdx.x] with [N] is one of [unsigned int]. *)
Definition prologue (lower : Z -> Z -> Z) (N tid : Z) : list access :=
  let K := div N 2 in
  (if tid <=? to_unsigned N
   then [mkAccess Store params_buf (sub tid 1)]
   else [])
  ++ (if tid =? 0
      then [mkAccess Load params_buf (-1);
            mkAccess Store params_buf (-2);
            mkAccess Store params_buf (-3)]
      else [])
  ++ (if tid =? 0
      then mkAccess Load params_buf (-2)
           :: flat_map (fun i => [mkAccess Load params_buf (add K i);
                                  mkAccess Store y_vals (add K i)])
                       (Kernel.stride_loop (Z.to_nat K) 0 K 1)
      else if tid =? 64
      then mkAccess Load params_buf (-2)
           :: flat_map (fun i => [mkAccess Load params_buf (lower K i);
                                  mkAccess Store y_vals (sub (sub K i) 1)])
                       (Kernel.stride_loop (Z.to_nat K) 0 K 1)
      else [])
  ++ [mkAccess Load params_buf (-3)].

Definition forward_lower (K i : Z) : Z := sub (sub K 1) i.
Definition backward_lower (K i : Z) : Z := sub (sub K i) 1.

(** The accesses of a thread of the backward kernel after the two
    reductions. *)
Definition epilogue (N tid : Z) : list access :=
  let K := div N 2 in
  (if tid <? to_unsigned N
   then [mkAccess Store params_grad_buf tid;
         mkAccess Store y_vals_grad_buf tid]
   else [])
  ++ (if tid =? 0
      then mkAccess Load params_buf (-2)
           :: flat_map (fun i => [mkAccess Load y_vals_grad_buf (add K i);
                                  mkAccess Load params_grad_buf (add K i);
                                  mkAccess Store params_grad_buf (add K i);
                                  mkAccess Load params_buf (add K i)])
                       (count_down (Z.to_nat K) (sub K 1))
      else if tid =? 64
      then mkAccess Load params_buf (-2)
           :: flat_map (fun i =>
                          [mkAccess Load y_vals_grad_buf (sub (sub K i) 1);
                           mkAccess Load params_grad_buf (sub (sub K i) 1);
                           mkAccess Store params_grad_buf (sub (sub K i) 1);
                           mkAccess Load params_buf (sub (sub K i) 1)])
                       (count_down (Z.to_nat K) (sub K 1))
           ++ [mkAccess Store params_grad_buf (-1)]
      else [])
  ++ (if tid =? 0
      then [mkAccess Load params_grad_buf (-1);
            mkAccess Store params_grad_buf (-1)]
      else [])
  ++ (if tid <=? to_unsigned N
      then [mkAccess Load params_grad_buf (sub tid 1)]
      else []).

(** Some thread of the block stores [ptr[i]]. *)
Definition stored_by (accesses : Z -> list access) (blockDim_x : Z)
    (ptr : pointer) (i : Z) : Prop :=
  exists tid, 0 <= tid < blockDim_x /\
              In (mkAccess Store ptr i) (accesses tid).

End Shared.

(** ** The summing reductions *)

Module Reduce.

Import Int32 UInt32.

(** The value a thread holds is a floating-point sum; the embedding keeps
    the expression: [Val tid] is the [val] thread [tid] was called with. *)
Inductive term : Type :=
| Val (tid : Z)
| Plus (a b : term).

Fixpoint leaves (v : term) : list Z :=
  match v with
  | Val q => [q]
  | Plus a b => leaves a ++ leaves b
  end.

(** [buf[j]], for a [buf] of [blockDim.x] elements and an unsigned [j]. *)
Definition read (buf : list term) (j : Z) : option term :=
  nth_error buf (Z.to_nat j).

(** One pass of the loop body in the threads [first], [first + 1], ...
    that hold [vals]: every thread has stored its [val] in [buf]; a
    thread for which [active] holds adds [buf[threadIdx.x + i]] to its
    [val]; the index is an [unsigned int].  [None]: a read outside
    [buf]. *)
Fixpoint pass (active : Z -> bool) (i : Z) (buf : list term) (first : Z)
    (vals : list term) : option (list term) :=
  match vals with
  | [] => Some []
  | v :: vals' =>
      match (if active first
             then option_map (Plus v) (read buf (to_unsigned (first + i)))
             else Some v),
            pass active i buf (first + 1) vals' with
      | Some v', Some r => Some (v' :: r)
      | _, _ => None
      end
  end.

Inductive run (A : Type) : Type :=
| Returned (a : A)
| BadRead
| NoFuel.

Arguments Returned {A} a.
Arguments BadRead {A}.
Arguments NoFuel {A}.

(** [for (int i = blockDim.x / 2; i >= N; i /= 2)] of
    [strided_reduce_sum], for all threads of the block: [vals] holds the
    [val] of thread 0, 1, ... *)
Fixpoint strided_loop (fuel : nat) (N i : Z) (vals : list term)
  : run (list term) :=
  match fuel with
  | O => NoFuel
  | S fuel' =>
      if N <=? i
      then match pass (fun tid => ultb tid i) i vals 0 vals with
           | Some vals' => strided_loop fuel' N (div i 2) vals'
           | None => BadRead
           end
      else Returned vals
  end.

Definition strided_reduce_sum (fuel : nat) (blockDim_x N : Z)
    (vals : list term) : run (list term) :=
  strided_loop fuel N (udiv blockDim_x 2) vals.

(** [for (int i = threads_per_tile / 2; i > 0; i /= 2)] of
    [tiled_warp_reduce_sum]. *)
Fixpoint tiled_loop (fuel : nat) (threads_per_tile i : Z)
    (vals : list term) : run (list term) :=
  match fuel with
  | O => NoFuel
  | S fuel' =>
      if 0 <? i
      then match pass (fun tid => ultb (urem tid threads_per_tile) i) i
                      vals 0 vals with
           | Some vals' => tiled_loop fuel' threads_per_tile (div i 2) vals'
           | None => BadRead
           end
      else Returned vals
  end.

Definition tiled_warp_reduce_sum (fuel : nat) (threads_per_tile : Z)
    (vals : list term) : run (list term) :=
  tiled_loop fuel threads_per_tile (div threads_per_tile 2) vals.

(** The block before the call: thread [tid] holds [Val tid]. *)
Definition initial (blockDim_x : Z) : list term :=
  map (fun n => Val (Z.of_nat n)) (seq 0 (Z.to_nat blockDim_x)).

End Reduce.

(** * Properties *)

(** ** Machine integers *)

Section Int32Facts.

Import Int32.

Lemma wrap_small (z : Z) : in_range z -> wrap z = z.
Proof.
  unfold in_range, wrap, min_int, max_int, half_modulus, modulus.
  intros Hz. rewrite Z.mod_small by lia. lia.
Qed.

Lemma wrap_in_range (z : Z) : in_range (wrap z).
Proof.
  unfold in_range, wrap, min_int, max_int, half_modulus, modulus.
  pose proof (Z.mod_pos_bound (z + 2 ^ 31) (2 ^ 32) ltac:(lia)). lia.
Qed.

Lemma wrap_idem (z : Z) : wrap (wrap z) = wrap z.
Proof. apply wrap_small, wrap_in_range. Qed.

Lemma add_0_r_wrapped (z : Z) : add (wrap z) 0 = wrap z.
Proof. unfold add. rewrite Z.add_0_r. apply wrap_idem. Qed.

Lemma in_range_intro (z : Z) : - 2 ^ 31 <= z <= 2 ^ 31 - 1 -> in_range z.
Proof. unfold in_range, min_int, max_int. lia. Qed.

End Int32Facts.

(** ** Scheduling of the forward kernel *)

Section KernelFacts.

Import Int32 Kernel.

Lemma stride_loop_In (fuel : nat) :
  forall start bound step x,
    0 <= start -> 1 <= step -> bound + step <= max_int + 1 ->
    (Z.to_nat (bound - start) <= fuel)%nat ->
    In x (stride_loop fuel start bound step) <->
    exists k, 0 <= k /\ x = start + k * step /\ x < bound.
Proof.
  induction fuel as [|fuel IH]; intros start bound step x Hs Hst Hb Hf; simpl.
  - split; [intros []|]. intros (k & Hk & -> & Hlt). nia.
  - destruct (Z.ltb_spec start bound) as [Hlt|Hge].
    + assert (Ha : add start step = start + step).
      { apply wrap_small, in_range_intro. unfold max_int in Hb. lia. }
      rewrite Ha. simpl. rewrite IH by lia. split.
      * intros [<- | (k & Hk & -> & Hx)].
        -- exists 0. lia.
        -- exists (k + 1). lia.
      * intros (k & Hk & -> & Hx). destruct (Z.eq_dec k 0) as [->|Hk0].
        -- left. lia.
        -- right. exists (k - 1). lia.
    + split; [intros []|]. intros (k & Hk & -> & Hx). nia.
Qed.

Lemma ceil_div_bounds (n d : Z) :
  1 <= d -> 0 <= n ->
  n <= ((n + d - 1) / d) * d /\ ((n + d - 1) / d - 1) * d < n.
Proof.
  intros Hd Hn.
  pose proof (Z.div_mod (n + d - 1) d ltac:(lia)) as E.
  pose proof (Z.mod_pos_bound (n + d - 1) d ltac:(lia)) as R.
  lia.
Qed.

Lemma ceil_div_nonneg (n d : Z) : 1 <= d -> 0 <= n -> 0 <= (n + d - 1) / d <= n.
Proof.
  intros Hd Hn. split.
  - apply Z.div_pos; lia.
  - destruct (Z.eq_dec n 0) as [->|Hn0].
    + rewrite Z.div_small; lia.
    + apply Z.div_le_upper_bound; nia.
Qed.

Section SchedulingFacts.

Variables BLOCK_S_SIZE BLOCK_T_SIZE B S T : Z.
Variable boundary : list (list Z).

Local Abbreviation num_s := (num_s_blocks BLOCK_S_SIZE S).
Local Abbreviation num_t := (num_t_blocks BLOCK_T_SIZE T).
Local Abbreviation unit_of :=
  (kernel_unit BLOCK_S_SIZE BLOCK_T_SIZE B S T boundary).
Local Abbreviation launch :=
  (kernel_launch BLOCK_S_SIZE BLOCK_T_SIZE B S T boundary).
Local Abbreviation rect := (boundary_rect S T boundary).

(** The loop body reads the boundary only through the rectangle. *)
Lemma kernel_unit_via_rect (iter bbi : Z) :
  unit_of iter bbi =
  let b := rem bbi B in
  let block := div bbi B in
  let s0 := mul block BLOCK_S_SIZE in
  let t0 := mul (sub iter block) BLOCK_T_SIZE in
  let '(sb, tb, se, te) := rect b in
  let sbb := add s0 sb in
  let tbb := add t0 tb in
  let bS := Z.min BLOCK_T_SIZE (sub se sbb) in
  let bT := Z.min BLOCK_S_SIZE (sub te tbb) in
  if (bS <=? 0) || (bT <=? 0) then None
  else Some (mkTile b block sbb tbb (mul s0 t0 =? 0) se te bS bT).
Proof.
  unfold kernel_unit, boundary_rect. destruct boundary as [|r rs].
  - cbv zeta. unfold mul. rewrite !add_0_r_wrapped. reflexivity.
  - reflexivity.
Qed.

(** What one launch works on: the units below the loop bound that do not
    [continue], each reached by the thread block of its residue. *)
Lemma kernel_launch_In (iter gridDim_x : Z) (u : tile) :
  1 <= gridDim_x ->
  mul B (num_blocks_this_iter BLOCK_S_SIZE S iter) + gridDim_x
    <= max_int + 1 ->
  In u (launch iter gridDim_x) <->
  exists bbi,
    0 <= bbi < mul B (num_blocks_this_iter BLOCK_S_SIZE S iter)
    /\ unit_of iter bbi = Some u.
Proof.
  intros Hg Hb. unfold kernel_launch, kernel_block.
  set (bound := mul B (num_blocks_this_iter BLOCK_S_SIZE S iter)) in *.
  rewrite in_flat_map. split.
  - intros (bx & Hbx & Hu). apply in_seq in Hbx.
    apply in_flat_map in Hu. destruct Hu as (bbi & Hbbi & Hu).
    apply stride_loop_In in Hbbi; try lia.
    destruct Hbbi as (k & Hk & -> & Hlt).
    exists (Z.of_nat bx + k * gridDim_x). split; [nia|].
    destruct (unit_of iter (Z.of_nat bx + k * gridDim_x)) as [v|];
      simpl in Hu; [|tauto].
    destruct Hu as [->|[]]. reflexivity.
  - intros (bbi & Hr & Hu).
    pose proof (Z.div_mod bbi gridDim_x ltac:(lia)) as E.
    pose proof (Z.mod_pos_bound bbi gridDim_x ltac:(lia)) as R.
    exists (Z.to_nat (bbi mod gridDim_x)). split.
    + apply in_seq. lia.
    + apply in_flat_map. exists bbi. split.
      * apply stride_loop_In; try lia.
        exists (bbi / gridDim_x). split; [apply Z.div_pos; lia|]. lia.
      * rewrite Hu. left. reflexivity.
Qed.

Lemma boundary_rect_valid (iter gridDim_x b : Z) :
  launch_in_range BLOCK_S_SIZE BLOCK_T_SIZE B S T boundary iter gridDim_x ->
  0 <= b < B ->
  exists sb tb se te,
    rect b = (sb, tb, se, te)
    /\ 0 <= sb <= se /\ se <= S /\ 0 <= tb <= te /\ te <= T.
Proof.
  intros R Hb. unfold boundary_rect, boundary_at.
  pose proof (lr_S _ _ _ _ _ _ _ _ R) as HS.
  pose proof (lr_T _ _ _ _ _ _ _ _ R) as HT.
  pose proof (lr_rows _ _ _ _ _ _ _ _ R) as HF.
  pose proof (lr_batch _ _ _ _ _ _ _ _ R) as HB.
  clear R. destruct boundary as [|r rs].
  - exists 0, 0, S, T. repeat split; lia.
  - assert (Hin : In (nth (Z.to_nat b) (r :: rs) []) (r :: rs)).
    { apply nth_In. destruct HB as [H0|HB]; [discriminate|lia]. }
    rewrite Forall_forall in HF. specialize (HF _ Hin).
    destruct HF as (sb & tb & se & te & -> & H1 & H2 & H3 & H4).
    exists sb, tb, se, te. simpl. repeat split; lia.
Qed.

Lemma num_blocks_exact (iter gridDim_x : Z) :
  launch_in_range BLOCK_S_SIZE BLOCK_T_SIZE B S T boundary iter gridDim_x ->
  num_s = (S + BLOCK_S_SIZE - 1) / BLOCK_S_SIZE
  /\ num_t = (T + BLOCK_T_SIZE - 1) / BLOCK_T_SIZE
  /\ num_blocks_this_iter BLOCK_S_SIZE S iter = Z.min (iter + 1) num_s
  /\ mul B (num_blocks_this_iter BLOCK_S_SIZE S iter)
     = B * Z.min (iter + 1) num_s.
Proof.
  intros [Hbs Hbt HB HS HT Hi Hg Hsm Htm Hu _ _].
  unfold max_int in *.
  pose proof (ceil_div_nonneg S BLOCK_S_SIZE Hbs HS) as Ns.
  pose proof (ceil_div_nonneg T BLOCK_T_SIZE Hbt HT) as Nt.
  assert (Es : num_s = (S + BLOCK_S_SIZE - 1) / BLOCK_S_SIZE).
  { unfold num_s_blocks, div, sub, add.
    rewrite (wrap_small (S + BLOCK_S_SIZE)) by (apply in_range_intro; lia).
    rewrite (wrap_small (S + BLOCK_S_SIZE - 1)) by (apply in_range_intro; lia).
    rewrite Z.quot_div_nonneg by lia.
    apply wrap_small, in_range_intro. lia. }
  assert (Et : num_t = (T + BLOCK_T_SIZE - 1) / BLOCK_T_SIZE).
  { unfold num_t_blocks, div, sub, add.
    rewrite (wrap_small (T + BLOCK_T_SIZE)) by (apply in_range_intro; nia).
    rewrite (wrap_small (T + BLOCK_T_SIZE - 1)) by (apply in_range_intro; nia).
    rewrite Z.quot_div_nonneg by lia.
    apply wrap_small, in_range_intro. nia. }
  assert (Ei : add iter 1 = iter + 1).
  { apply wrap_small, in_range_intro. nia. }
  assert (En : num_blocks_this_iter BLOCK_S_SIZE S iter
               = Z.min (iter + 1) num_s).
  { unfold num_blocks_this_iter. rewrite Ei. reflexivity. }
  repeat split; try assumption.
  rewrite En. apply wrap_small, in_range_intro. rewrite Es. nia.
Qed.

(** The loop body at the unit of batch element [b] and tile row [s], with
    every [int] expression inside its range. *)
Lemma kernel_unit_closed (iter gridDim_x b s sb tb se te : Z) :
  launch_in_range BLOCK_S_SIZE BLOCK_T_SIZE B S T boundary iter gridDim_x ->
  0 <= b < B -> 0 <= s <= iter -> s < num_s ->
  rect b = (sb, tb, se, te) ->
  unit_of iter (s * B + b) =
  let sbb := s * BLOCK_S_SIZE + sb in
  let tbb := (iter - s) * BLOCK_T_SIZE + tb in
  if (se - sbb <=? 0) || (te - tbb <=? 0) then None
  else Some (mkTile b s sbb tbb
               (mul (s * BLOCK_S_SIZE) ((iter - s) * BLOCK_T_SIZE) =? 0)
               se te
               (Z.min BLOCK_T_SIZE (se - sbb))
               (Z.min BLOCK_S_SIZE (te - tbb))).
Proof.
  intros R Hb Hs Hsn Hrect.
  destruct (boundary_rect_valid iter gridDim_x b R Hb)
    as (sb' & tb' & se' & te' & Hrect' & V1 & V2 & V3 & V4).
  rewrite Hrect in Hrect'. injection Hrect' as <- <- <- <-.
  destruct (num_blocks_exact iter gridDim_x R) as (Es & Et & En & Em).
  destruct R as [Hbs Hbt HB HS HT Hi Hg Hsm Htm Hu _ _].
  unfold max_int in *.
  pose proof (ceil_div_bounds S BLOCK_S_SIZE Hbs HS) as Cs.
  rewrite <- Es in Cs.
  rewrite kernel_unit_via_rect. cbv zeta.
  assert (Erem : rem (s * B + b) B = b).
  { unfold rem. rewrite Z.rem_mod_nonneg by nia.
    rewrite Z.add_comm, Z.mod_add by lia. apply Z.mod_small. lia. }
  assert (Ediv : div (s * B + b) B = s).
  { unfold div. rewrite Z.quot_div_nonneg by nia.
    rewrite Z.add_comm, Z.div_add by lia. rewrite Z.div_small by lia.
    apply wrap_small, in_range_intro. nia. }
  rewrite Erem, Ediv, Hrect.
  assert (Es0 : mul s BLOCK_S_SIZE = s * BLOCK_S_SIZE).
  { apply wrap_small, in_range_intro. nia. }
  assert (Esub : sub iter s = iter - s).
  { apply wrap_small, in_range_intro. nia. }
  rewrite Es0, Esub.
  assert (Et0 : mul (iter - s) BLOCK_T_SIZE = (iter - s) * BLOCK_T_SIZE).
  { apply wrap_small, in_range_intro. nia. }
  rewrite Et0.
  assert (Esbb : add (s * BLOCK_S_SIZE) sb = s * BLOCK_S_SIZE + sb).
  { apply wrap_small, in_range_intro. nia. }
  assert (Etbb : add ((iter - s) * BLOCK_T_SIZE) tb
                 = (iter - s) * BLOCK_T_SIZE + tb).
  { apply wrap_small, in_range_intro. nia. }
  rewrite Esbb, Etbb.
  assert (EsS : sub se (s * BLOCK_S_SIZE + sb)
                = se - (s * BLOCK_S_SIZE + sb)).
  { apply wrap_small, in_range_intro. nia. }
  assert (EsT : sub te ((iter - s) * BLOCK_T_SIZE + tb)
                = te - ((iter - s) * BLOCK_T_SIZE + tb)).
  { apply wrap_small, in_range_intro. nia. }
  rewrite EsS, EsT.
  destruct (Z.leb_spec (se - (s * BLOCK_S_SIZE + sb)) 0) as [L1|L1];
    destruct (Z.leb_spec (te - ((iter - s) * BLOCK_T_SIZE + tb)) 0)
      as [L2|L2];
    destruct (Z.leb_spec
                (Z.min BLOCK_T_SIZE (se - (s * BLOCK_S_SIZE + sb))) 0);
    destruct (Z.leb_spec
                (Z.min BLOCK_S_SIZE
                   (te - ((iter - s) * BLOCK_T_SIZE + tb))) 0);
    simpl; try reflexivity; lia.
Qed.

(** Which units work in a launch, for any boundary. *)
Lemma does_work_iff (iter gridDim_x b s t : Z) :
  launch_in_range BLOCK_S_SIZE BLOCK_T_SIZE B S T boundary iter gridDim_x ->
  s + t = iter ->
  does_work BLOCK_S_SIZE BLOCK_T_SIZE B S T boundary iter gridDim_x b s <->
  0 <= b < B /\ 0 <= s < num_s /\ 0 <= t < num_t
  /\ (let '(sb, tb, se, te) := rect b in
      sb + s * BLOCK_S_SIZE < se /\ tb + t * BLOCK_T_SIZE < te).
Proof.
  intros R Hst.
  destruct (num_blocks_exact iter gridDim_x R) as (Es & Et & En & Em).
  pose proof R as [Hbs Hbt HB HS HT Hi Hg Hsm Htm Hu _ _].
  pose proof (ceil_div_bounds S BLOCK_S_SIZE Hbs HS) as Cs.
  pose proof (ceil_div_bounds T BLOCK_T_SIZE Hbt HT) as Ct.
  pose proof (ceil_div_nonneg S BLOCK_S_SIZE Hbs HS) as Ns.
  rewrite <- Es in Cs, Ns. rewrite <- Et in Ct.
  assert (Hbound : mul B (num_blocks_this_iter BLOCK_S_SIZE S iter)
                   + gridDim_x <= max_int + 1).
  { rewrite Em. nia. }
  unfold does_work. split.
  - intros (u & Hin & Hub & Hus).
    apply kernel_launch_In in Hin; [|lia|exact Hbound].
    destruct Hin as (bbi & Hr & Hu'). rewrite Em in Hr.
    assert (HB1 : 1 <= B) by nia.
    pose proof (Z.div_mod bbi B ltac:(lia)) as E.
    pose proof (Z.mod_pos_bound bbi B ltac:(lia)) as Rm.
    assert (Hq0 : 0 <= bbi / B) by (apply Z.div_pos; lia).
    assert (Hq : bbi / B < Z.min (iter + 1) num_s).
    { apply Z.div_lt_upper_bound; lia. }
    destruct (boundary_rect_valid iter gridDim_x (bbi mod B) R
                ltac:(lia))
      as (sb & tb & se & te & Hrect & V1 & V2 & V3 & V4).
    assert (Ebbi : bbi = bbi / B * B + bbi mod B) by lia.
    rewrite Ebbi in Hu'.
    rewrite (kernel_unit_closed iter gridDim_x (bbi mod B) (bbi / B)
               sb tb se te R) in Hu' by (assumption || lia).
    cbv zeta in Hu'.
    destruct (Z.leb_spec (se - (bbi / B * BLOCK_S_SIZE + sb)) 0)
      as [L1|L1]; [discriminate|].
    destruct (Z.leb_spec
                (te - ((iter - bbi / B) * BLOCK_T_SIZE + tb)) 0)
      as [L2|L2]; [discriminate|].
    simpl in Hu'. injection Hu' as <-. simpl in Hub, Hus.
    subst b s. rewrite Hrect.
    assert (Ht : t = iter - bbi / B) by lia. subst t.
    repeat split; try lia.
    apply (Z.mul_lt_mono_pos_r BLOCK_T_SIZE); lia.
  - intros (Hb & Hs & Ht & Hin).
    assert (Ht' : t = iter - s) by lia. subst t.
    destruct (boundary_rect_valid iter gridDim_x b R Hb)
      as (sb & tb & se & te & Hrect & V1 & V2 & V3 & V4).
    rewrite Hrect in Hin. destruct Hin as [I1 I2].
    eexists. split; [|split].
    + apply kernel_launch_In; [lia|exact Hbound|].
      exists (s * B + b). split.
      * rewrite Em.
        assert (0 <= s * B) by (apply Z.mul_nonneg_nonneg; lia).
        assert ((s + 1) * B <= Z.min (iter + 1) num_s * B)
          by (apply Z.mul_le_mono_nonneg_r; lia).
        lia.
      * rewrite (kernel_unit_closed iter gridDim_x b s sb tb se te R)
          by (assumption || lia).
        cbv zeta.
        destruct (Z.leb_spec (se - (s * BLOCK_S_SIZE + sb)) 0); [lia|].
        destruct (Z.leb_spec
                    (te - ((iter - s) * BLOCK_T_SIZE + tb)) 0); [lia|].
        reflexivity.
    + reflexivity.
    + reflexivity.
Qed.

End SchedulingFacts.

End KernelFacts.

(** ** Claims on the forward kernel *)

Section ForwardKernelClaims.

Import Int32 Kernel.

(** C3 (amended).  With [num_s_blocks = ceil(S / BLOCK_S_SIZE)] and
    [num_t_blocks = ceil(T / BLOCK_T_SIZE)], the units that do work in the
    launch of iteration [iter] are exactly those of a batch element [b] and
    a tile [(s, t)] with [s + t = iter], [s < num_s_blocks],
    [t < num_t_blocks] whose first cell lies inside the rectangle of [b];
    every other unit does no work.  For the default boundary the last
    condition always holds, and the launches in which some unit works are
    exactly those of the iterations [0 .. num_s_blocks + num_t_blocks - 2]. *)
Theorem forward_active_tiles
    (BLOCK_S_SIZE BLOCK_T_SIZE B S T : Z) (boundary : list (list Z))
    (iter gridDim_x : Z) :
  launch_in_range BLOCK_S_SIZE BLOCK_T_SIZE B S T boundary iter gridDim_x ->
  let num_s := num_s_blocks BLOCK_S_SIZE S in
  let num_t := num_t_blocks BLOCK_T_SIZE T in
  let works :=
    does_work BLOCK_S_SIZE BLOCK_T_SIZE B S T boundary iter gridDim_x in
  (S <= num_s * BLOCK_S_SIZE /\ (num_s - 1) * BLOCK_S_SIZE < S)
  /\ (T <= num_t * BLOCK_T_SIZE /\ (num_t - 1) * BLOCK_T_SIZE < T)
  /\ (forall b s t,
         s + t = iter ->
         works b s <->
         0 <= b < B /\ 0 <= s < num_s /\ 0 <= t < num_t
         /\ (let '(sb, tb, se, te) := boundary_rect S T boundary b in
             sb + s * BLOCK_S_SIZE < se /\ tb + t * BLOCK_T_SIZE < te))
  /\ (boundary = [] ->
      (forall b s t,
          s + t = iter ->
          works b s <-> 0 <= b < B /\ 0 <= s < num_s /\ 0 <= t < num_t)
      /\ (1 <= B -> 1 <= S -> 1 <= T ->
          kernel_launch BLOCK_S_SIZE BLOCK_T_SIZE B S T boundary
            iter gridDim_x <> []
          <-> iter < num_s + num_t - 1)).
Proof.
  intros R num_s num_t works.
  destruct (num_blocks_exact _ _ _ _ _ _ iter gridDim_x R)
    as (Es & Et & _ & _).
  pose proof R as [Hbs Hbt HB HS HT Hi Hg _ _ _ _ _].
  pose proof (ceil_div_bounds S BLOCK_S_SIZE Hbs HS) as Cs.
  pose proof (ceil_div_bounds T BLOCK_T_SIZE Hbt HT) as Ct.
  fold num_s in Es. fold num_t in Et. rewrite <- Es in Cs. rewrite <- Et in Ct.
  assert (General : forall b s t,
             s + t = iter ->
             works b s <->
             0 <= b < B /\ 0 <= s < num_s /\ 0 <= t < num_t
             /\ (let '(sb, tb, se, te) := boundary_rect S T boundary b in
                 sb + s * BLOCK_S_SIZE < se /\ tb + t * BLOCK_T_SIZE < te)).
  { intros b s t Hst. apply does_work_iff; assumption. }
  split; [exact Cs|]. split; [exact Ct|]. split; [exact General|].
  intros Hnil.
  assert (Default : forall b s t,
             s + t = iter ->
             works b s <-> 0 <= b < B /\ 0 <= s < num_s /\ 0 <= t < num_t).
  { intros b s t Hst. rewrite (General b s t Hst).
    unfold boundary_rect. rewrite Hnil. split.
    - tauto.
    - intros (Hb & Hs & Ht). repeat split; try lia; nia. }
  split; [exact Default|].
  intros HB1 HS1 HT1. split.
  - intros Hne.
    destruct (kernel_launch BLOCK_S_SIZE BLOCK_T_SIZE B S T boundary
                iter gridDim_x) as [|u l] eqn:El; [congruence|].
    assert (W : works (tile_b u) (tile_block u)).
    { exists u. rewrite El. repeat split. left. reflexivity. }
    apply (Default _ _ (iter - tile_block u)) in W; lia.
  - intros Hlt.
    assert (W : works 0 (Z.max 0 (iter - num_t + 1))).
    { apply (Default _ _ (iter - Z.max 0 (iter - num_t + 1))); [lia|].
      assert (1 <= num_s) by nia. assert (1 <= num_t) by nia. lia. }
    destruct W as (u & Hin & _). intros E. rewrite E in Hin. exact Hin.
Qed.

Lemma forward_active_tiles_witness :
  launch_in_range 4 64 2 8 128 [[0; 0; 8; 128]; [0; 0; 4; 64]] 1 3
  /\ does_work 4 64 2 8 128 [[0; 0; 8; 128]; [0; 0; 4; 64]] 1 3 0 1
  /\ ~ does_work 4 64 2 8 128 [[0; 0; 8; 128]; [0; 0; 4; 64]] 1 3 1 1.
Proof.
  assert (R : launch_in_range 4 64 2 8 128
                [[0; 0; 8; 128]; [0; 0; 4; 64]] 1 3).
  { constructor; try (unfold max_int; lia).
    - repeat constructor.
      + exists 0, 0, 8, 128. repeat split; lia.
      + exists 0, 0, 4, 64. repeat split; lia.
    - right. reflexivity. }
  split; [exact R|].
  destruct (forward_active_tiles 4 64 2 8 128 _ 1 3 R) as (_ & _ & G & _).
  split.
  - apply (G 0 1 0); [reflexivity|]. vm_compute. intuition congruence.
  - intros W. apply (G 1 1 0) in W; [|reflexivity].
    vm_compute in W. intuition congruence.
Defined.

(** C3 as stated fails: with tiles of 4 by 64 and the boundary
    [(0, 0, 4, 64)] on [S = 8], [T = 64], the tile [(1, 0)] of iteration 1
    satisfies the three conditions and does no work. *)
Lemma forward_active_tiles_counterexample :
  launch_in_range 4 64 1 8 64 [[0; 0; 4; 64]] 1 1
  /\ ~ (does_work 4 64 1 8 64 [[0; 0; 4; 64]] 1 1 0 1
        <-> 1 + 0 = 1 /\ 1 < num_s_blocks 4 8 /\ 0 < num_t_blocks 64 64).
Proof.
  split.
  - constructor; try (unfold max_int; lia).
    + repeat constructor. exists 0, 0, 4, 64. repeat split; lia.
    + right. reflexivity.
  - intros [_ H].
    assert (W : does_work 4 64 1 8 64 [[0; 0; 4; 64]] 1 1 0 1).
    { apply H. vm_compute. repeat split. }
    destruct W as (u & Hin & _). vm_compute in Hin. exact Hin.
Qed.

(** C5.  The source takes the extent of a tile in the s direction as
    [min(BLOCK_T_SIZE, s_end - s_block_begin)] and in the t direction as
    [min(BLOCK_S_SIZE, t_end - t_block_begin)]: with tiles of 4 by 64 on
    [S = T = 100] the first tile gets the extents 64 and 4, not
    [min(4, 100)] and [min(64, 100)]. *)
Theorem tile_extent_constants_swapped :
  exists u,
    kernel_unit 4 64 1 100 100 [] 0 0 = Some u
    /\ block_S u = 64
    /\ Z.min 4 (s_end u - s_block_begin u) = 4
    /\ block_T u = 4
    /\ Z.min 64 (t_end u - t_block_begin u) = 64.
Proof. eexists. split; [reflexivity|]. repeat split. Qed.

(** C4.  [is_origin_block] is computed as
    [s_block_begin * t_block_begin == 0], so it holds for every tile of
    the first tile row or column.  With tiles of 4 by 64, [S = 4],
    [T = 128] and no boundary, the tile [(0, 1)] of iteration 1 starts at
    [(0, 64)], away from the origin [(0, 0)] of the rectangle, and its
    border cell [p_buf[0][1]] receives [1.0], as does that of the origin
    tile in iteration 0. *)
Theorem seed_in_non_origin_tile :
  boundary_rect 4 128 [] 0 = (0, 0, 4, 128)
  /\ (exists u0,
         kernel_launch 4 64 1 4 128 [] 0 1 = [u0]
         /\ (s_block_begin u0, t_block_begin u0) = (0, 0)
         /\ border_thread 4 64 u0 65 = Some (mkBorderWrite 0 1 One))
  /\ (exists u1,
         kernel_launch 4 64 1 4 128 [] 1 1 = [u1]
         /\ (s_block_begin u1, t_block_begin u1) = (0, 64)
         /\ is_origin_block u1 = true
         /\ border_thread 4 64 u1 65 = Some (mkBorderWrite 0 1 One)).
Proof.
  split; [reflexivity|]. split.
  - eexists. split; [reflexivity|]. split; reflexivity.
  - eexists. split; [reflexivity|]. repeat split.
Qed.

(** C1.  With tiles of 4 by 64 on [S = 1], [T = 65] and no boundary, for
    any grid size, the launches of iterations 0 and 1 have a tile and no
    later launch has one.  The tile of iteration 0 reads [px] and [py] at
    the columns 0 to 3 and the tile of iteration 1 at column 64 only,
    because the t extent of a tile is cut to [BLOCK_S_SIZE = 4]; the
    second tile takes no border cell from [p].  The cells of the columns 4
    to 63 are in no tile, so no lattice value can follow the recurrence
    there. *)
Theorem forward_tiles_leave_columns_out (iter gridDim_x : Z) :
  0 <= iter <= 2 ^ 20 -> 1 <= gridDim_x <= 2 ^ 20 ->
  let tiles := kernel_launch 4 64 1 1 65 [] iter gridDim_x in
  num_s_blocks 4 1 = 1 /\ num_t_blocks 64 65 = 2
  /\ (iter <= 1 <-> tiles <> [])
  /\ (forall u,
         In u tiles ->
         (iter = 0
          /\ loaded_cells 4 64 u
             = [ExpOf 0 0 0; ExpOf 0 0 1; ExpOf 0 0 2; ExpOf 0 0 3])
         \/ (iter = 1
             /\ loaded_cells 4 64 u = [ExpOf 0 0 64]
             /\ existsb imports_p (tile_border 4 64 u) = false)).
Proof.
  intros Hi Hg tiles.
  assert (R : launch_in_range 4 64 1 1 65 [] iter gridDim_x).
  { constructor; try (unfold max_int; lia).
    - constructor.
    - left. reflexivity. }
  assert (Ens : num_s_blocks 4 1 = 1) by reflexivity.
  assert (Ent : num_t_blocks 64 65 = 2) by reflexivity.
  assert (Hin : forall u, In u tiles -> iter <= 1 /\
                  kernel_unit 4 64 1 1 65 [] iter 0 = Some u).
  { intros u Hu. subst tiles.
    destruct (num_blocks_exact 4 64 1 1 65 [] iter gridDim_x R)
      as (_ & _ & _ & Em).
    rewrite Ens in Em.
    apply kernel_launch_In in Hu; [|lia|rewrite Em; unfold max_int; lia].
    destruct Hu as (bbi & Hr & Hu). rewrite Em in Hr.
    assert (bbi = 0) by lia. subst bbi. split; [|exact Hu].
    assert (W : does_work 4 64 1 1 65 [] iter gridDim_x
                  (tile_b u) (tile_block u)).
    { exists u. split; [|split; reflexivity].
      apply kernel_launch_In; [lia|rewrite Em; unfold max_int; lia|].
      exists 0. rewrite Em. split; [lia|exact Hu]. }
    apply (does_work_iff 4 64 1 1 65 [] iter gridDim_x _ _
             (iter - tile_block u) R) in W; [|lia].
    rewrite Ens, Ent in W. lia. }
  split; [exact Ens|]. split; [exact Ent|]. split; [split|].
  - intros Hle.
    assert (W : does_work 4 64 1 1 65 [] iter gridDim_x 0 0).
    { apply (does_work_iff 4 64 1 1 65 [] iter gridDim_x 0 0 iter R);
        [lia|].
      rewrite Ens, Ent. simpl. lia. }
    destruct W as (u & Hu & _). fold tiles in Hu.
    intros E. rewrite E in Hu. exact Hu.
  - intros Hne. destruct tiles as [|u l] eqn:E; [congruence|].
    apply (Hin u). left. reflexivity.
  - intros u Hu. destruct (Hin u Hu) as [Hle Hunit].
    assert (C : iter = 0 \/ iter = 1) by lia.
    destruct C as [-> | ->]; vm_compute in Hunit;
      injection Hunit as <-; [left|right]; repeat split;
      vm_compute; reflexivity.
Qed.

Lemma forward_tiles_leave_columns_out_witness :
  exists u,
    In u (kernel_launch 4 64 1 1 65 [] 1 1)
    /\ loaded_cells 4 64 u = [ExpOf 0 0 64]
    /\ existsb imports_p (tile_border 4 64 u) = false.
Proof.
  destruct (forward_tiles_leave_columns_out 1 1 ltac:(lia) ltac:(lia))
    as (_ & _ & _ & H).
  eexists. split; [left; reflexivity|].
  match goal with
  | |- context [loaded_cells _ _ ?u] =>
      destruct (H u (or_introl eq_refl)) as [[E _]|[_ P]];
        [discriminate E|exact P]
  end.
Defined.

Lemma default_boundary_rect (B S T bbi : Z) :
  boundary_rect S T (default_boundary B S T) (rem bbi B) = (0, 0, S, T).
Proof.
  unfold boundary_rect, default_boundary, boundary_at.
  destruct (Z.to_nat B) as [|n] eqn:En; [reflexivity|].
  assert (HB : 1 <= B) by lia.
  assert (Hlt : (Z.to_nat (rem bbi B) < Datatypes.S n)%nat).
  { unfold rem. rewrite <- En.
    pose proof (Z.rem_bound_abs bbi B ltac:(lia)). lia. }
  rewrite (nth_repeat_lt [0; 0; S; T] [] Hlt). reflexivity.
Qed.

(** C6.  A launch of the kernel with the empty boundary and a launch with
    the explicit boundary [(0, 0, S, T)] for every batch element work on
    the same tiles, with the same per-tile variables and the same contents
    of scratch memory. *)
Theorem default_boundary_equivalence
    (BLOCK_S_SIZE BLOCK_T_SIZE B S T iter gridDim_x : Z) :
  kernel_state BLOCK_S_SIZE BLOCK_T_SIZE B S T [] iter gridDim_x
  = kernel_state BLOCK_S_SIZE BLOCK_T_SIZE B S T
      (default_boundary B S T) iter gridDim_x.
Proof.
  unfold kernel_state. f_equal. unfold kernel_launch.
  apply flat_map_ext. intros bx. unfold kernel_block.
  apply flat_map_ext. intros bbi.
  rewrite !kernel_unit_via_rect. cbv zeta.
  rewrite default_boundary_rect. reflexivity.
Qed.

End ForwardKernelClaims.

(** ** The loops of the host code *)

Section HostLoops.

Import Int32 Host.

(** A [while] loop with an invariant and a measure that decreases runs to
    its end when the fuel exceeds the measure. *)
Lemma while_invariant (P : Z -> Prop) (measure : Z -> Z)
    (cond : Z -> bool) (body : Z -> Z) :
  (forall x, P x -> 0 <= measure x) ->
  (forall x, P x -> cond x = true ->
             P (body x) /\ measure (body x) < measure x) ->
  forall (fuel : nat) (x : Z) (tr : list op),
    P x -> measure x < Z.of_nat fuel ->
    exists r, while fuel cond body x tr = (Ok r, tr)
              /\ P r /\ cond r = false.
Proof.
  intros Hpos Hstep fuel. induction fuel as [|fuel IH]; intros x tr HP Hm.
  - specialize (Hpos x HP). lia.
  - simpl. destruct (cond x) eqn:Ec.
    + destruct (Hstep x HP Ec) as [HP' Hlt]. apply IH; [exact HP'|lia].
    + exists x. repeat split; assumption.
Qed.

Variable THREADS_PER_BLOCK : Z.
Hypothesis threads_pos : 1 <= THREADS_PER_BLOCK.
Hypothesis threads_small : 2 * THREADS_PER_BLOCK <= max_int.


(** The loop of the backward entry point has the second condition on
    [N]. *)
Lemma images_loop_backward (T N : Z) (fuel : nat) (tr : list op) :
  1 <= T -> 2 * T <= max_int -> 1 <= N -> 2 * N <= max_int ->
  THREADS_PER_BLOCK < Z.of_nat fuel ->
  exists ipb,
    while fuel
      (fun ipb => (mul (mul ipb 2) T <=? THREADS_PER_BLOCK)
                  && (mul (mul ipb 2) N <=? THREADS_PER_BLOCK))
      (fun ipb => mul ipb 2) 1 tr = (Ok ipb, tr)
    /\ 1 <= ipb <= THREADS_PER_BLOCK
    /\ (ipb = 1 \/ (ipb * T <= THREADS_PER_BLOCK
                    /\ ipb * N <= THREADS_PER_BLOCK)).
Proof.
  intros HT HT2 HN HN2 Hf. unfold max_int in *.
  destruct (while_invariant
              (fun ipb => 1 <= ipb <= THREADS_PER_BLOCK
                          /\ (ipb = 1 \/ (ipb * T <= THREADS_PER_BLOCK
                                          /\ ipb * N <= THREADS_PER_BLOCK)))
              (fun ipb => THREADS_PER_BLOCK - ipb)
              (fun ipb => (mul (mul ipb 2) T <=? THREADS_PER_BLOCK)
                          && (mul (mul ipb 2) N <=? THREADS_PER_BLOCK))
              (fun ipb => mul ipb 2)) with (fuel := fuel) (x := 1) (tr := tr)
    as (r & Hr & HP & _).
  - intros x [Hx _]. lia.
  - intros x [Hx Hor] Hc. apply andb_true_iff in Hc. destruct Hc as [Hc1 Hc2].
    assert (E2 : mul x 2 = x * 2) by (apply wrap_small, in_range_intro; lia).
    assert (E3 : mul (x * 2) T = x * 2 * T).
    { apply wrap_small, in_range_intro. destruct Hor as [->|Hor]; nia. }
    assert (E4 : mul (x * 2) N = x * 2 * N).
    { apply wrap_small, in_range_intro. destruct Hor as [->|Hor]; nia. }
    rewrite E2, E3 in Hc1. rewrite E2, E4 in Hc2.
    apply Z.leb_le in Hc1. apply Z.leb_le in Hc2. rewrite E2.
    split; [|lia]. split; [nia|]. right. lia.
  - split; [lia|]. left. reflexivity.
  - lia.
  - exists r. tauto.
Qed.


(** The grid dimension and the number of channels: their product stays
    below 256, unless the loop does not run. *)
Lemma grid_loop_product (C : Z) (fuel : nat) (tr : list op) :
  1 <= C <= max_int -> 256 < Z.of_nat fuel ->
  exists g,
    while fuel (fun g => mul C g <? 128) (fun g => mul g 2) 1 tr
    = (Ok g, tr)
    /\ 1 <= g <= 256 /\ (g = 1 \/ C * g < 256).
Proof.
  intros HC Hf. unfold max_int in *.
  destruct (while_invariant
              (fun g => 1 <= g /\ (g = 1 \/ C * g < 256))
              (fun g => 256 - g)
              (fun g => mul C g <? 128)
              (fun g => mul g 2)) with (fuel := fuel) (x := 1) (tr := tr)
    as (r & Hr & HP & Hc).
  - intros x [Hx Hor]. destruct Hor as [->|Hor]; nia.
  - intros x [Hx Hor] Hc.
    assert (E1 : mul C x = C * x).
    { apply wrap_small, in_range_intro. destruct Hor as [->|Hor]; nia. }
    rewrite E1 in Hc. apply Z.ltb_lt in Hc.
    assert (E2 : mul x 2 = x * 2) by (apply wrap_small, in_range_intro; nia).
    rewrite E2. split; [|lia]. split; [lia|]. right. lia.
  - split; [lia|]. left. reflexivity.
  - lia.
  - exists r. split; [exact Hr|]. destruct HP as [Hx Hor].
    split; [|exact Hor]. destruct Hor as [->|Hor]; nia.
Qed.

End HostLoops.

(** ** Claims on the host entry points *)

Section HostClaims.

Import Int32 Host.

Lemma bind_check {A} (c : bool) (message : string) (k : unit -> M A)
    (tr : list op) :
  bind (TORCH_CHECK c message) k tr
  = if c then k tt tr else (Rejected (CheckFailed message), tr).
Proof. unfold bind, TORCH_CHECK. destruct c; reflexivity. Qed.

Lemma dtype_eqb_eq (a b : dtype) : dtype_eqb a b = true <-> a = b.
Proof. destruct a, b; simpl; split; congruence. Qed.

(** An accessor whose three checks hold lets the computation go on. *)
Lemma bind_accessor {A} (scalar_t : dtype) (n : Z) (t : tensor)
    (k : unit -> M A) (tr : list op) :
  numel t <= max_int -> dim t = n -> t_dtype t = scalar_t ->
  bind (packed_accessor32 scalar_t n t) k tr = k tt tr.
Proof.
  intros Hn Hd He. unfold bind, packed_accessor32.
  apply Z.leb_le in Hn. apply Z.eqb_eq in Hd. apply dtype_eqb_eq in He.
  rewrite Hn, Hd, He. reflexivity.
Qed.

(** It goes on only then; otherwise the call is rejected on the spot. *)
Lemma bind_accessor_cases {A} (scalar_t : dtype) (n : Z) (t : tensor)
    (k : unit -> M A) (tr : list op) :
  (numel t <= max_int /\ dim t = n /\ t_dtype t = scalar_t
   /\ bind (packed_accessor32 scalar_t n t) k tr = k tt tr)
  \/ (~ (numel t <= max_int /\ dim t = n /\ t_dtype t = scalar_t)
      /\ exists check,
          bind (packed_accessor32 scalar_t n t) k tr
          = (Rejected (AccessorFailed check (t_handle t)), tr)).
Proof.
  unfold bind, packed_accessor32.
  destruct (Z.leb_spec (numel t) max_int) as [Hn|Hn]; simpl.
  - destruct (Z.eqb_spec (dim t) n) as [Hd|Hd]; simpl.
    + destruct (dtype_eqb (t_dtype t) scalar_t) eqn:He; simpl.
      * left. apply dtype_eqb_eq in He. auto.
      * right. split; [|eexists; reflexivity].
        intros (_ & _ & E). apply dtype_eqb_eq in E. congruence.
    + right. split; [tauto|eexists; reflexivity].
  - right. split; [lia|eexists; reflexivity].
Qed.

Lemma numel_shape3 (t : tensor) (a b c : Z) :
  t_shape t = [a; b; c] -> numel t = a * b * c /\ dim t = 3.
Proof.
  intros E. unfold numel, dim. rewrite E. simpl fold_right. split; [ring|].
  reflexivity.
Qed.

Lemma numel_shape2 (t : tensor) (a b : Z) :
  t_shape t = [a; b] -> numel t = a * b /\ dim t = 2.
Proof.
  intros E. unfold numel, dim. rewrite E. simpl fold_right. split; [ring|].
  reflexivity.
Qed.

Lemma bind_assoc {A B C} (m : M A) (k : A -> M B) (k' : B -> M C)
    (tr : list op) :
  bind (bind m k) k' tr = bind m (fun x => bind (k x) k') tr.
Proof. unfold bind. destruct (m tr) as [[a| |] tr']; reflexivity. Qed.

(** The accessor at the head of the computation [Er] speaks of: its
    checks hold, or they do not and the call is rejected. *)
Tactic Notation "accessor_case" hyp(Er)
    ident(Hn) ident(Hd) ident(He) ident(Hfail) ident(check) :=
  lazymatch type of Er with
  | _ = bind (packed_accessor32 ?s ?n ?t) ?k ?tr =>
      let E := fresh "E" in
      destruct (bind_accessor_cases s n t k tr)
        as [(Hn & Hd & He & E) | (Hfail & check & E)];
      rewrite E in Er; clear E; cbv beta in Er; rewrite ?bind_assoc in Er
  end.

(** One [TORCH_CHECK] of a goal that asks for a rejection: either it
    fails, which settles the goal, or its condition becomes a fact. *)
Ltac reject_or_pass H :=
  rewrite bind_check;
  match goal with
  | |- context [if ?c then _ else _] =>
      destruct c eqn:H; [|eexists; reflexivity]
  end.

Lemma shape3_eq (l1 l2 : list Z) :
  List.length l1 = 3%nat -> List.length l2 = 3%nat ->
  nth 0 l1 0 = nth 0 l2 0 -> nth 1 l1 0 = nth 1 l2 0 ->
  nth 2 l1 0 = nth 2 l2 0 -> l1 = l2.
Proof.
  destruct l1 as [|a [|b [|c [|d l1]]]]; try discriminate.
  destruct l2 as [|a' [|b' [|c' [|d' l2]]]]; try discriminate.
  simpl. intros _ _ -> -> ->. reflexivity.
Qed.

Lemma small_power_of_two (n : Z) :
  4 <= n <= 16 -> Z.land n (n - 1) = 0 -> exists k, 0 <= k /\ n = 2 ^ k.
Proof.
  intros Hn Hl.
  assert (E : n = 4 \/ n = 5 \/ n = 6 \/ n = 7 \/ n = 8 \/ n = 9 \/ n = 10
              \/ n = 11 \/ n = 12 \/ n = 13 \/ n = 14 \/ n = 15 \/ n = 16)
    by lia.
  repeat (destruct E as [->|E]); try subst n; try discriminate Hl;
    [exists 2|exists 3|exists 4]; split; (lia || reflexivity).
Qed.

(** C8.  The backward entry point rejects the call, with no device
    operation issued, when the shape of [output_grad] differs from the
    shape of [input], or when [N = params.size(1) - 1] is not a power of
    two with [4 <= N <= 16]. *)
Theorem backward_rejects_bad_shapes
    (THREADS_PER_BLOCK : Z) (fuel : nat)
    (input params output_grad : tensor) :
  t_shape output_grad <> t_shape input
  \/ ~ (4 <= wrap (size params 1 - 1) <= 16
        /\ exists k, 0 <= k /\ wrap (size params 1 - 1) = 2 ^ k) ->
  exists e,
    mutual_information_backward_cuda THREADS_PER_BLOCK fuel
      input params output_grad []
    = (Rejected e, []).
Proof.
  intros Hbad. unfold mutual_information_backward_cuda.
  reject_or_pass C1. reject_or_pass C2. reject_or_pass C3.
  reject_or_pass C4. reject_or_pass C5. reject_or_pass C6.
  reject_or_pass C7. reject_or_pass C8. cbv zeta.
  reject_or_pass C9. reject_or_pass C10. reject_or_pass C11.
  exfalso. destruct Hbad as [Hshape|HN].
  - apply Hshape.
    apply andb_true_iff in C5. destruct C5 as [C5 S2].
    apply andb_true_iff in C5. destruct C5 as [C5 S1].
    apply andb_true_iff in C5. destruct C5 as [D3 S0].
    apply Z.eqb_eq in C1, D3, S0, S1, S2. unfold dim in C1, D3.
    apply shape3_eq; try assumption; lia.
  - apply HN. apply Z.leb_le in C9, C10. apply Z.eqb_eq in C11.
    split; [lia|]. apply small_power_of_two; [lia|].
    unfold sub in C11.
    rewrite (wrap_small (wrap (size params 1 - 1) - 1)) in C11
      by (apply in_range_intro; lia).
    exact C11.
Qed.

Lemma backward_rejects_bad_shapes_witness :
  let input := mkTensor [2; 3; 5] Float (CUDA 0) (Arg "input") in
  let params := mkTensor [3; 3] Float (CUDA 0) (Arg "params") in
  let output_grad := mkTensor [2; 3; 5] Float (CUDA 0) (Arg "output_grad") in
  ~ (4 <= wrap (size params 1 - 1) <= 16
     /\ exists k, 0 <= k /\ wrap (size params 1 - 1) = 2 ^ k)
  /\ exists e,
      mutual_information_backward_cuda 256 512 input params output_grad []
      = (Rejected e, []).
Proof.
  intros input params output_grad.
  assert (H : ~ (4 <= wrap (size params 1 - 1) <= 16
                 /\ exists k, 0 <= k /\ wrap (size params 1 - 1) = 2 ^ k)).
  { vm_compute. intros [[H _] _]. apply H. reflexivity. }
  split; [exact H|].
  apply (backward_rejects_bad_shapes 256 512 input params output_grad).
  right. exact H.
Defined.

Lemma numel_zero (B C T : Z) :
  in_range B -> in_range C -> in_range T -> B * C * T = 0 ->
  mul (mul (wrap C) (wrap B)) (wrap T) = 0.
Proof.
  intros HB HC HT H0. rewrite !wrap_small by assumption.
  assert (E : B = 0 \/ C = 0 \/ T = 0) by nia.
  destruct E as [E | [E | E]]; subst; unfold mul;
    rewrite ?Z.mul_0_r, ?Z.mul_0_l; reflexivity.
Qed.

(** C10.  For an input of shape [(B, C, T)] with [B * C * T = 0] that
    passes the checks of the entry point, the forward entry point returns
    an output of shape [(B, C, T)] and the backward entry point returns an
    input gradient of shape [(B, C, T)] and a parameter gradient of shape
    [(C, N + 1)]; in both cases the only device operations are the
    allocations of the returned tensors, and no kernel is launched. *)
Theorem empty_input_returns_without_launch
    (THREADS_PER_BLOCK : Z) (fuel : nat) (B C T N : Z)
    (input params output_grad : tensor) :
  t_shape input = [B; C; T] ->
  t_shape params = [C; N + 1] ->
  t_shape output_grad = [B; C; T] ->
  in_range B -> in_range C -> in_range T ->
  is_cuda (t_device input) = true ->
  is_cuda (t_device params) = true ->
  is_cuda (t_device output_grad) = true ->
  B * C * T = 0 ->
  (2 <= N -> Z.land N (N - 1) = 0 ->
   mutual_information_cuda THREADS_PER_BLOCK fuel input params []
   = (Ok (mkTensor [B; C; T] (t_dtype input) (t_device input) (Made 0)),
      [OpEmpty [B; C; T] (t_dtype input) (t_device input)]))
  /\ (4 <= N <= 16 -> Z.land N (N - 1) = 0 ->
      mutual_information_backward_cuda THREADS_PER_BLOCK fuel
        input params output_grad []
      = (Ok [mkTensor [B; C; T] (t_dtype input) (t_device input) (Made 0);
             mkTensor [C; N + 1] Float CPU (Made 1)],
         [OpEmpty [B; C; T] (t_dtype input) (t_device input);
          OpEmpty [C; N + 1] Float CPU])).
Proof.
  intros Hin Hpar Hog HB HC HT Dn Dp Dg H0.
  pose proof (numel_zero B C T HB HC HT H0) as Hz.
  split.
  - intros HN Hl. unfold mutual_information_cuda, dim, size.
    rewrite Hin, Hpar. simpl List.length. simpl nth.
    rewrite !bind_check. rewrite Dn, Dp.
    replace (N + 1 - 1) with N by lia.
    replace (N + 1 - 2) with (N - 1) by lia.
    rewrite Hl, !Z.eqb_refl. simpl.
    destruct (Z.leb_spec 3 (N + 1)); [|lia]. simpl.
    unfold bind, torch_empty, issue, ret, bind. simpl.
    rewrite Hz. simpl.
    rewrite !wrap_small by assumption. reflexivity.
  - intros HN Hl. unfold mutual_information_backward_cuda, dim, size.
    rewrite Hin, Hpar, Hog. simpl List.length. simpl nth.
    rewrite !bind_check. rewrite Dn, Dp, Dg.
    replace (N + 1 - 1) with N by lia.
    replace (N + 1 - 2) with (N - 1) by lia.
    rewrite Hl, !Z.eqb_refl. simpl.
    destruct (Z.leb_spec 3 (N + 1)); [|lia]. simpl.
    assert (EN : wrap N = N).
    { apply wrap_small, in_range_intro. lia. }
    rewrite ?bind_check. rewrite ?EN.
    destruct (Z.leb_spec 4 N); [|lia].
    destruct (Z.leb_spec N 16); [|lia].
    assert (Es : sub N 1 = N - 1).
    { apply wrap_small, in_range_intro. lia. }
    rewrite Es, Hl. simpl.
    unfold bind, torch_empty, issue, ret, bind. simpl.
    rewrite Hz. simpl.
    rewrite !wrap_small by assumption.
    assert (Ea : add N 1 = N + 1).
    { apply wrap_small, in_range_intro. lia. }
    rewrite Ea. reflexivity.
Qed.

Lemma empty_input_returns_without_launch_witness :
  let input := mkTensor [0; 3; 5] Float (CUDA 0) (Arg "input") in
  let params := mkTensor [3; 9] Float (CUDA 0) (Arg "params") in
  let output_grad := mkTensor [0; 3; 5] Float (CUDA 0) (Arg "output_grad") in
  mutual_information_cuda 256 512 input params []
  = (Ok (mkTensor [0; 3; 5] Float (CUDA 0) (Made 0)),
     [OpEmpty [0; 3; 5] Float (CUDA 0)])
  /\ mutual_information_backward_cuda 256 512 input params output_grad []
     = (Ok [mkTensor [0; 3; 5] Float (CUDA 0) (Made 0);
            mkTensor [3; 9] Float CPU (Made 1)],
        [OpEmpty [0; 3; 5] Float (CUDA 0); OpEmpty [3; 9] Float CPU]).
Proof.
  intros input params output_grad.
  destruct (empty_input_returns_without_launch 256 512 0 3 5 8
              input params output_grad) as [F Bw];
    try reflexivity; try (apply in_range_intro; lia).
  split.
  - apply F; [lia|reflexivity].
  - apply Bw; [lia|reflexivity].
Defined.

Lemma bind_ok {A B} (m : M A) (k : A -> M B) (tr tr' : list op) (a : A) :
  m tr = (Ok a, tr') -> bind m k tr = k a tr'.
Proof. intros H. unfold bind. rewrite H. reflexivity. Qed.

Lemma numel_nonzero (B C T : Z) :
  1 <= B -> 1 <= C -> 1 <= T -> C * B * T <= max_int ->
  (mul (mul (wrap C) (wrap B)) (wrap T) =? 0) = false.
Proof.
  intros HB HC HT Hm. unfold max_int in Hm.
  rewrite !(wrap_small) by (apply in_range_intro; nia).
  unfold mul. rewrite (wrap_small (C * B)) by (apply in_range_intro; nia).
  rewrite wrap_small by (apply in_range_intro; nia).
  apply Z.eqb_neq. nia.
Qed.

(** [B_reduced] and the final [grid_dim_y]. *)
Lemma grid_dim_y_pos (B ipb g limit : Z) :
  1 <= B -> 1 <= ipb <= limit -> B + limit <= max_int -> 1 <= g ->
  1 <= (if div (sub (add B ipb) 1) ipb <? g
        then div (sub (add B ipb) 1) ipb else g).
Proof.
  intros HB Hi Hm Hg. unfold max_int in Hm.
  assert (E : div (sub (add B ipb) 1) ipb = (B + ipb - 1) / ipb).
  { unfold div, sub, add.
    rewrite (wrap_small (B + ipb)) by (apply in_range_intro; lia).
    rewrite (wrap_small (B + ipb - 1)) by (apply in_range_intro; lia).
    rewrite Z.quot_div_nonneg by lia.
    pose proof (ceil_div_nonneg B ipb ltac:(lia) ltac:(lia)).
    apply wrap_small, in_range_intro. lia. }
  rewrite E.
  pose proof (ceil_div_bounds B ipb ltac:(lia) ltac:(lia)) as [H1 H2].
  destruct (Z.ltb_spec ((B + ipb - 1) / ipb) g); [nia|lia].
Qed.

Lemma div_threads (limit ipb X : Z) :
  1 <= ipb <= limit -> limit <= max_int -> ipb * X <= limit ->
  (X <=? div limit ipb) = true.
Proof.
  intros Hi Hm HX. unfold max_int in Hm. unfold div.
  rewrite Z.quot_div_nonneg by lia.
  assert (0 <= limit / ipb <= limit).
  { split; [apply Z.div_pos; lia|]. apply Z.div_le_upper_bound; nia. }
  rewrite wrap_small by (apply in_range_intro; lia).
  apply Z.leb_le. apply Z.div_le_lower_bound; lia.
Qed.

(** C9.  On a non-empty valid call the backward entry point allocates a
    zeroed buffer of shape [(grid_dim_y, C, N + 1)], launches the backward
    kernel once with that buffer as [params_grad], then sums the buffer
    over its leading dimension on the host and returns the sum, of shape
    [(C, N + 1)], as the parameter gradient.  In the kernel the thread
    group [(blockIdx.x, blockIdx.y)] stores its [N + 1] partial sums at
    [params_grad[blockIdx.y][blockIdx.x][0 .. N]], inside that buffer, and
    no other group stores there.  On a valid call the three tensors hold
    elements of one floating type, and [input] and [params] have at most
    [INT32_MAX] elements, which is what the accessors of the launch ask. *)
Theorem backward_reduces_partial_sums
    (THREADS_PER_BLOCK : Z) (fuel : nat) (B C T N : Z)
    (input params output_grad : tensor) :
  t_shape input = [B; C; T] ->
  t_shape params = [C; N + 1] ->
  t_shape output_grad = [B; C; T] ->
  is_cuda (t_device input) = true ->
  is_cuda (t_device params) = true ->
  is_cuda (t_device output_grad) = true ->
  is_floating (t_dtype input) = true ->
  t_dtype params = t_dtype input ->
  t_dtype output_grad = t_dtype input ->
  1 <= B -> 1 <= C -> 1 <= T ->
  C * B * T <= max_int -> C * (N + 1) <= max_int -> 2 * T <= max_int ->
  B + THREADS_PER_BLOCK <= max_int ->
  4 <= N <= 16 -> Z.land N (N - 1) = 0 ->
  N + 1 <= THREADS_PER_BLOCK -> 2 * THREADS_PER_BLOCK <= max_int ->
  THREADS_PER_BLOCK + 256 < Z.of_nat fuel ->
  exists images_per_thread_block grid_dim_y,
    let dt := t_dtype input in
    let dev := t_device input in
    let input_grad := mkTensor [B; C; T] dt dev (Made 0) in
    let partial_sums := mkTensor [grid_dim_y; C; N + 1] dt dev (Made 1) in
    1 <= grid_dim_y
    /\ mutual_information_backward_cuda THREADS_PER_BLOCK fuel
         input params output_grad []
       = (Ok [input_grad; mkTensor [C; N + 1] dt dev (Made 3)],
          [OpEmpty [B; C; T] dt dev;
           OpZeros [grid_dim_y; C; N + 1] dt dev;
           OpLaunch "mutual_information_backward_kernel"
             (C, grid_dim_y, 1) THREADS_PER_BLOCK (2 * N + 3)
             [input; params; output_grad; input_grad; partial_sums]
             images_per_thread_block;
           OpSum partial_sums [0%nat]])
    /\ (forall blk_x blk_y tid i j k,
           0 <= blk_x < C -> 0 <= blk_y < grid_dim_y ->
           0 <= tid < THREADS_PER_BLOCK ->
           params_grad_store N blk_x blk_y tid = Some (i, j, k) ->
           (i, j, k) = (blk_y, blk_x, tid)
           /\ 0 <= i < grid_dim_y /\ 0 <= j < C /\ 0 <= k < N + 1)
    /\ (forall i j k,
           0 <= i < grid_dim_y -> 0 <= j < C -> 0 <= k < N + 1 ->
           k < THREADS_PER_BLOCK
           /\ params_grad_store N j i k = Some (i, j, k)).
Proof.
  intros Hin Hpar Hog Dn Dp Dg Hfl Tp Tg HB HC HT Hnum Hpn HT2 HBT HN Hl
    Ht16 Ht2 Hf.
  unfold max_int in *.
  destruct (images_loop_backward THREADS_PER_BLOCK ltac:(lia)
              ltac:(unfold max_int; lia) T N fuel
              [OpEmpty [B; C; T] (t_dtype input) (t_device input)])
    as (ipb & Hipb & Ri & Pi); try (unfold max_int; lia).
  assert (HCm : C <= 2 ^ 31 - 1).
  { pose proof (Z.mul_nonneg_nonneg C N ltac:(lia) ltac:(lia)). lia. }
  destruct (grid_loop_product C fuel
              [OpEmpty [B; C; T] (t_dtype input) (t_device input)])
    as (g & Hg & Rg & Lg); try (unfold max_int; lia).
  pose proof (grid_dim_y_pos B ipb g THREADS_PER_BLOCK HB Ri
                ltac:(unfold max_int; lia) ltac:(lia)) as Hgd.
  set (gdy := if div (sub (add B ipb) 1) ipb <? g
              then div (sub (add B ipb) 1) ipb else g) in *.
  assert (Hgg : gdy <= g).
  { unfold gdy. destruct (Z.ltb_spec (div (sub (add B ipb) 1) ipb) g); lia. }
  assert (Hpg : gdy * C * (N + 1) <= 2 ^ 31 - 1).
  { destruct Lg as [Eg|Lg'];
      [assert (Eg1 : gdy = 1) by lia; rewrite Eg1; lia|].
    assert (gdy * C <= g * C) by (apply Z.mul_le_mono_nonneg_r; lia).
    assert (gdy * C * (N + 1) <= 255 * (N + 1))
      by (apply Z.mul_le_mono_nonneg_r; lia).
    lia. }
  assert (EN : wrap N = N) by (apply wrap_small, in_range_intro; lia).
  assert (Es : sub N 1 = N - 1) by (apply wrap_small, in_range_intro; lia).
  assert (Ea : add N 1 = N + 1) by (apply wrap_small, in_range_intro; lia).
  assert (Em : add (mul 2 N) 3 = 2 * N + 3).
  { unfold add, mul. rewrite (wrap_small (2 * N)) by (apply in_range_intro; lia).
    apply wrap_small, in_range_intro. lia. }
  assert (EB : wrap B = B) by (apply wrap_small, in_range_intro; nia).
  assert (EC : wrap C = C) by (apply wrap_small, in_range_intro; nia).
  assert (ET : wrap T = T) by (apply wrap_small, in_range_intro; nia).
  exists ipb, gdy. cbv zeta. split; [exact Hgd|]. split; [|split].
  - unfold mutual_information_backward_cuda, dim, size.
    rewrite Hin, Hpar, Hog. simpl List.length. simpl nth.
    rewrite ?bind_check. rewrite Dn, Dp, Dg.
    replace (N + 1 - 1) with N by lia.
    replace (N + 1 - 2) with (N - 1) by lia.
    rewrite Hl, !Z.eqb_refl. simpl.
    destruct (Z.leb_spec 3 (N + 1)); [|lia]. simpl.
    rewrite EN, Es, Hl.
    destruct (Z.leb_spec 4 N); [|lia].
    destruct (Z.leb_spec N 16); [|lia]. simpl.
    unfold torch_empty at 1. unfold issue at 1. unfold bind at 1 2.
    unfold ret at 1. simpl List.length. simpl app.
    pose proof (numel_nonzero B C T HB HC HT ltac:(unfold max_int; lia)) as Hnz.
    rewrite Hnz. rewrite EB, EC, ET in *.
    rewrite (bind_ok _ _ _ _ _ Hipb).
    rewrite (bind_ok _ _ _ _ _ Hg).
    fold gdy. rewrite ?bind_check.
    assert (Ck1 : ((T <=? div THREADS_PER_BLOCK ipb) || (ipb =? 1)) = true).
    { destruct Pi as [->|[P1 P2]].
      - rewrite orb_true_r. reflexivity.
      - rewrite (div_threads THREADS_PER_BLOCK ipb T Ri
                   ltac:(unfold max_int; lia) P1). reflexivity. }
    assert (Ck2 : (N <=? div THREADS_PER_BLOCK ipb) = true).
    { destruct Pi as [->|[P1 P2]].
      - apply (div_threads THREADS_PER_BLOCK 1 N); unfold max_int; lia.
      - apply (div_threads THREADS_PER_BLOCK ipb N Ri
                 ltac:(unfold max_int; lia) P2). }
    rewrite Ck1, Ck2, Ea, Em.
    unfold AT_DISPATCH_FLOATING_TYPES. rewrite Hfl.
    unfold torch_zeros at 1. unfold issue at 1. unfold bind at 1 2 3.
    unfold ret at 1. simpl List.length. simpl app.
    destruct (numel_shape3 input B C T Hin) as [Ni Di].
    destruct (numel_shape3 output_grad B C T Hog) as [Ng Dg3].
    destruct (numel_shape2 params C (N + 1) Hpar) as [Np Dp2].
    rewrite (bind_accessor _ 3 input)
      by first [assumption | reflexivity | rewrite Ni; unfold max_int; lia].
    rewrite (bind_accessor _ 2 params)
      by first [assumption | reflexivity | rewrite Np; unfold max_int; lia].
    rewrite (bind_accessor _ 3 output_grad)
      by first [assumption | reflexivity | rewrite Ng; unfold max_int; lia].
    rewrite bind_accessor;
      [|unfold numel, max_int; cbn [t_shape fold_right]; lia
       |reflexivity|reflexivity].
    rewrite bind_accessor;
      [|unfold numel, max_int; cbn [t_shape fold_right]; lia
       |reflexivity|reflexivity].
    reflexivity.
  - intros blk_x blk_y tid i j k Hx Hy Htid Hst.
    unfold params_grad_store, to_unsigned, modulus in Hst.
    rewrite (Z.mod_small N) in Hst by lia.
    destruct (Z.leb_spec tid N); [|discriminate].
    injection Hst as <- <- <-. repeat split; lia.
  - intros i j k Hi Hj Hk. split; [lia|].
    unfold params_grad_store, to_unsigned, modulus.
    rewrite (Z.mod_small N) by lia.
    destruct (Z.leb_spec k N); [reflexivity|lia].
Qed.

Lemma backward_reduces_partial_sums_witness :
  let input := mkTensor [2; 3; 5] Float (CUDA 0) (Arg "input") in
  let params := mkTensor [3; 9] Float (CUDA 0) (Arg "params") in
  let output_grad := mkTensor [2; 3; 5] Float (CUDA 0) (Arg "output_grad") in
  let input_grad := mkTensor [2; 3; 5] Float (CUDA 0) (Made 0) in
  (2 + 256 <= max_int /\ 3 * 2 * 5 <= max_int /\ 8 + 1 <= 256
   /\ Z.land 8 (8 - 1) = 0 /\ 256 + 256 < Z.of_nat 600)
  /\ exists images_per_thread_block grid_dim_y,
      1 <= grid_dim_y
      /\ mutual_information_backward_cuda 256 600 input params output_grad []
         = (Ok [input_grad; mkTensor [3; 9] Float (CUDA 0) (Made 3)],
            [OpEmpty [2; 3; 5] Float (CUDA 0);
             OpZeros [grid_dim_y; 3; 9] Float (CUDA 0);
             OpLaunch "mutual_information_backward_kernel"
               (3, grid_dim_y, 1) 256 19
               [input; params; output_grad; input_grad;
                mkTensor [grid_dim_y; 3; 9] Float (CUDA 0) (Made 1)]
               images_per_thread_block;
             OpSum (mkTensor [grid_dim_y; 3; 9] Float (CUDA 0) (Made 1))
               [0%nat]]).
Proof.
  intros input params output_grad input_grad.
  split.
  - unfold max_int. repeat split; try lia.
  - destruct (backward_reduces_partial_sums 256 600 2 3 5 8
                input params output_grad)
      as (ipb & gdy & H1 & H2 & _);
      try reflexivity; try (unfold max_int; lia).
    exists ipb, gdy. split; [exact H1|exact H2].
Defined.





End HostClaims.

(** ** The launch configuration the host computes *)

Section HostConfiguration.

Import Int32 Host.

Variable THREADS_PER_BLOCK : Z.
Hypothesis threads_pos : 1 <= THREADS_PER_BLOCK.
Hypothesis threads_small : 2 * THREADS_PER_BLOCK <= max_int.

(** The doubling loop of the forward entry point ends at the largest power
    of two [p] with [p * T <= THREADS_PER_BLOCK], or at 1 when there is
    none. *)
Lemma images_loop_forward_exact (T : Z) (fuel : nat) (tr : list op) :
  1 <= T -> 2 * T <= max_int ->
  THREADS_PER_BLOCK < Z.of_nat fuel ->
  exists ipb k,
    while fuel (fun ipb => mul (mul ipb 2) T <=? THREADS_PER_BLOCK)
      (fun ipb => mul ipb 2) 1 tr = (Ok ipb, tr)
    /\ 0 <= k /\ ipb = 2 ^ k
    /\ 1 <= ipb <= THREADS_PER_BLOCK
    /\ (ipb = 1 \/ ipb * T <= THREADS_PER_BLOCK)
    /\ THREADS_PER_BLOCK < 2 * ipb * T.
Proof.
  intros HT HT2 Hf. unfold max_int in *.
  destruct (while_invariant
              (fun ipb => (exists k, 0 <= k /\ ipb = 2 ^ k)
                          /\ 1 <= ipb <= THREADS_PER_BLOCK
                          /\ (ipb = 1 \/ ipb * T <= THREADS_PER_BLOCK))
              (fun ipb => THREADS_PER_BLOCK - ipb)
              (fun ipb => mul (mul ipb 2) T <=? THREADS_PER_BLOCK)
              (fun ipb => mul ipb 2)) with (fuel := fuel) (x := 1) (tr := tr)
    as (r & Hr & HP & Hc).
  - intros x (_ & Hx & _). lia.
  - intros x ((k & Hk & Ek) & Hx & Hor) Hc.
    assert (E2 : mul x 2 = x * 2) by (apply wrap_small, in_range_intro; lia).
    assert (E3 : mul (x * 2) T = x * 2 * T).
    { apply wrap_small, in_range_intro. destruct Hor as [->|Hor]; nia. }
    rewrite E2, E3 in Hc. apply Z.leb_le in Hc. rewrite E2.
    split; [|lia]. split; [|split; [nia|right; lia]].
    exists (k + 1). split; [lia|]. rewrite Z.pow_add_r by lia. lia.
  - split; [exists 0; split; [lia|reflexivity]|]. split; [lia|].
    left. reflexivity.
  - lia.
  - destruct HP as ((k & Hk & Ek) & Hx & Hor).
    exists r, k. repeat split; try assumption; try lia.
    assert (E2 : mul r 2 = r * 2) by (apply wrap_small, in_range_intro; lia).
    assert (E3 : mul (r * 2) T = r * 2 * T).
    { apply wrap_small, in_range_intro. destruct Hor as [->|Hor]; nia. }
    rewrite E2, E3 in Hc. apply Z.leb_gt in Hc. lia.
Qed.

(** The loop of the backward entry point: the largest power of two [p]
    with [p * T] and [p * N] both at most [THREADS_PER_BLOCK], or 1. *)
Lemma images_loop_backward_exact (T N : Z) (fuel : nat) (tr : list op) :
  1 <= T -> 2 * T <= max_int -> 1 <= N -> 2 * N <= max_int ->
  THREADS_PER_BLOCK < Z.of_nat fuel ->
  exists ipb k,
    while fuel
      (fun ipb => (mul (mul ipb 2) T <=? THREADS_PER_BLOCK)
                  && (mul (mul ipb 2) N <=? THREADS_PER_BLOCK))
      (fun ipb => mul ipb 2) 1 tr = (Ok ipb, tr)
    /\ 0 <= k /\ ipb = 2 ^ k
    /\ 1 <= ipb <= THREADS_PER_BLOCK
    /\ (ipb = 1 \/ (ipb * T <= THREADS_PER_BLOCK
                    /\ ipb * N <= THREADS_PER_BLOCK))
    /\ (THREADS_PER_BLOCK < 2 * ipb * T
        \/ THREADS_PER_BLOCK < 2 * ipb * N).
Proof.
  intros HT HT2 HN HN2 Hf. unfold max_int in *.
  destruct (while_invariant
              (fun ipb => (exists k, 0 <= k /\ ipb = 2 ^ k)
                          /\ 1 <= ipb <= THREADS_PER_BLOCK
                          /\ (ipb = 1 \/ (ipb * T <= THREADS_PER_BLOCK
                                          /\ ipb * N <= THREADS_PER_BLOCK)))
              (fun ipb => THREADS_PER_BLOCK - ipb)
              (fun ipb => (mul (mul ipb 2) T <=? THREADS_PER_BLOCK)
                          && (mul (mul ipb 2) N <=? THREADS_PER_BLOCK))
              (fun ipb => mul ipb 2)) with (fuel := fuel) (x := 1) (tr := tr)
    as (r & Hr & HP & Hc).
  - intros x (_ & Hx & _). lia.
  - intros x ((k & Hk & Ek) & Hx & Hor) Hc.
    apply andb_true_iff in Hc. destruct Hc as [Hc1 Hc2].
    assert (E2 : mul x 2 = x * 2) by (apply wrap_small, in_range_intro; lia).
    assert (E3 : mul (x * 2) T = x * 2 * T).
    { apply wrap_small, in_range_intro. destruct Hor as [->|Hor]; nia. }
    assert (E4 : mul (x * 2) N = x * 2 * N).
    { apply wrap_small, in_range_intro. destruct Hor as [->|Hor]; nia. }
    rewrite E2, E3 in Hc1. rewrite E2, E4 in Hc2.
    apply Z.leb_le in Hc1. apply Z.leb_le in Hc2. rewrite E2.
    split; [|lia]. split; [|split; [nia|right; lia]].
    exists (k + 1). split; [lia|]. rewrite Z.pow_add_r by lia. lia.
  - split; [exists 0; split; [lia|reflexivity]|]. split; [lia|].
    left. reflexivity.
  - lia.
  - destruct HP as ((k & Hk & Ek) & Hx & Hor).
    exists r, k. repeat split; try assumption; try lia.
    assert (E2 : mul r 2 = r * 2) by (apply wrap_small, in_range_intro; lia).
    assert (E3 : mul (r * 2) T = r * 2 * T).
    { apply wrap_small, in_range_intro. destruct Hor as [->|Hor]; nia. }
    assert (E4 : mul (r * 2) N = r * 2 * N).
    { apply wrap_small, in_range_intro. destruct Hor as [->|Hor]; nia. }
    rewrite E2, E3, E4 in Hc. apply andb_false_iff in Hc.
    destruct Hc as [Hc|Hc]; apply Z.leb_gt in Hc; lia.
Qed.

(** The grid loop ends at the least power of two [g] with
    [C * g >= 128]. *)
Lemma grid_loop_exact (C : Z) (fuel : nat) (tr : list op) :
  1 <= C <= max_int -> 256 < Z.of_nat fuel ->
  exists g j,
    while fuel (fun g => mul C g <? 128) (fun g => mul g 2) 1 tr
    = (Ok g, tr)
    /\ 0 <= j /\ g = 2 ^ j
    /\ 1 <= g <= 128
    /\ 128 <= C * g
    /\ (g = 1 \/ C * g < 256).
Proof.
  intros HC Hf. unfold max_int in *.
  destruct (while_invariant
              (fun g => (exists j, 0 <= j <= 7 /\ g = 2 ^ j)
                        /\ 1 <= g /\ (g = 1 \/ C * g < 256))
              (fun g => 256 - g)
              (fun g => mul C g <? 128)
              (fun g => mul g 2)) with (fuel := fuel) (x := 1) (tr := tr)
    as (r & Hr & HP & Hc).
  - intros x (_ & Hx & Hor). destruct Hor as [->|Hor]; nia.
  - intros x ((j & Hj & Ej) & Hx & Hor) Hc.
    assert (E1 : mul C x = C * x).
    { apply wrap_small, in_range_intro. destruct Hor as [->|Hor]; nia. }
    rewrite E1 in Hc. apply Z.ltb_lt in Hc.
    assert (E2 : mul x 2 = x * 2) by (apply wrap_small, in_range_intro; nia).
    rewrite E2. split; [|lia]. split; [|split; [lia|right; lia]].
    exists (j + 1).
    assert (Hx7 : x < 128) by nia.
    assert (Hj7 : j < 7).
    { destruct (Z.lt_ge_cases j 7) as [|Hge]; [assumption|].
      assert (2 ^ 7 <= 2 ^ j) by (apply Z.pow_le_mono_r; lia). lia. }
    split; [lia|]. rewrite Z.pow_add_r by lia. lia.
  - split; [exists 0; split; [lia|reflexivity]|]. split; [lia|].
    left. reflexivity.
  - lia.
  - destruct HP as ((j & Hj & Ej) & Hx & Hor).
    assert (E1 : mul C r = C * r).
    { apply wrap_small, in_range_intro. destruct Hor as [->|Hor]; nia. }
    rewrite E1 in Hc. apply Z.ltb_ge in Hc.
    exists r, j. repeat split; try assumption; try lia.
    subst r. assert (2 ^ j <= 2 ^ 7) by (apply Z.pow_le_mono_r; lia). lia.
Qed.

(** [B_reduced] is [ceil(B / images_per_thread_block)] and the final
    [grid_dim_y] the smaller of it and the result of the grid loop. *)
Lemma grid_dim_y_exact (B ipb g : Z) :
  1 <= B -> 1 <= ipb <= THREADS_PER_BLOCK ->
  B + THREADS_PER_BLOCK <= max_int -> 1 <= g ->
  let gdy := if div (sub (add B ipb) 1) ipb <? g
             then div (sub (add B ipb) 1) ipb else g in
  gdy = Z.min g ((B + ipb - 1) / ipb)
  /\ 1 <= gdy <= B /\ (gdy - 1) * ipb < B.
Proof.
  intros HB Hi Hm Hg. unfold max_int in Hm.
  assert (E : div (sub (add B ipb) 1) ipb = (B + ipb - 1) / ipb).
  { unfold div, sub, add.
    rewrite (wrap_small (B + ipb)) by (apply in_range_intro; lia).
    rewrite (wrap_small (B + ipb - 1)) by (apply in_range_intro; lia).
    rewrite Z.quot_div_nonneg by lia.
    pose proof (ceil_div_nonneg B ipb ltac:(lia) ltac:(lia)).
    apply wrap_small, in_range_intro. lia. }
  cbv zeta. rewrite E.
  pose proof (ceil_div_bounds B ipb ltac:(lia) ltac:(lia)) as [H1 H2].
  pose proof (ceil_div_nonneg B ipb ltac:(lia) ltac:(lia)) as H3.
  destruct (Z.ltb_spec ((B + ipb - 1) / ipb) g); repeat split; nia.
Qed.

Lemma forward_launch_trace
    (fuel : nat) (B C T N : Z) (input params : tensor) :
  t_shape input = [B; C; T] ->
  t_shape params = [C; N + 1] ->
  is_cuda (t_device input) = true ->
  is_cuda (t_device params) = true ->
  is_floating (t_dtype input) = true ->
  t_dtype params = t_dtype input ->
  1 <= B -> 1 <= C -> 1 <= T ->
  C * B * T <= max_int -> C * (N + 1) <= max_int -> 2 * T <= max_int ->
  B + THREADS_PER_BLOCK <= max_int ->
  2 <= N -> Z.land N (N - 1) = 0 -> N + 1 <= THREADS_PER_BLOCK ->
  THREADS_PER_BLOCK + 256 < Z.of_nat fuel ->
  exists ipb grid_dim_y k j,
    let output :=
      mkTensor [B; C; T] (t_dtype input) (t_device input) (Made 0) in
    mutual_information_cuda THREADS_PER_BLOCK fuel input params []
    = (Ok output,
       [OpEmpty [B; C; T] (t_dtype input) (t_device input);
        OpLaunch "mutual_information_kernel"
          (C, grid_dim_y, 1) THREADS_PER_BLOCK (2 * N + 3)
          [input; params; output] ipb])
    /\ 0 <= k /\ ipb = 2 ^ k
    /\ (ipb = 1 \/ T <= THREADS_PER_BLOCK / ipb)
    /\ (ipb = 1 \/ ipb * T <= THREADS_PER_BLOCK)
    /\ THREADS_PER_BLOCK < 2 * ipb * T
    /\ 0 <= j /\ 128 <= C * 2 ^ j /\ (j = 0 \/ C * 2 ^ j < 256)
    /\ grid_dim_y = Z.min (2 ^ j) ((B + ipb - 1) / ipb)
    /\ 1 <= grid_dim_y <= B
    /\ (grid_dim_y - 1) * ipb < B.
Proof.
  intros Hin Hpar Dn Dp Hfl Tp HB HC HT Hnum Hpn HT2 HBT HN Hl HN1 Hf.
  unfold max_int in *.
  set (tr0 := [OpEmpty [B; C; T] (t_dtype input) (t_device input)]).
  destruct (images_loop_forward_exact T fuel tr0)
    as (ipb & k & Hipb & Hk & Ek & Ri & Pi & Mi);
    try (unfold max_int; lia).
  destruct (grid_loop_exact C fuel tr0 ltac:(unfold max_int; lia)
              ltac:(lia))
    as (g & j & Hg & Hj & Ej & Rg & Lg & Mg).
  destruct (grid_dim_y_exact B ipb g HB Ri ltac:(unfold max_int; lia)
              ltac:(lia)) as (Egd & Rgd & Wgd).
  set (gdy := if div (sub (add B ipb) 1) ipb <? g
              then div (sub (add B ipb) 1) ipb else g) in *.
  assert (EN : wrap N = N) by (apply wrap_small, in_range_intro; lia).
  assert (Ea : add N 1 = N + 1) by (apply wrap_small, in_range_intro; lia).
  assert (Em : add (mul 2 N) 3 = 2 * N + 3).
  { unfold add, mul. rewrite (wrap_small (2 * N)) by (apply in_range_intro; lia).
    apply wrap_small, in_range_intro. lia. }
  assert (EB : wrap B = B) by (apply wrap_small, in_range_intro; nia).
  assert (EC : wrap C = C) by (apply wrap_small, in_range_intro; nia).
  assert (ET : wrap T = T) by (apply wrap_small, in_range_intro; nia).
  exists ipb, gdy, k, j. cbv zeta.
  split.
  - unfold mutual_information_cuda, dim, size.
    rewrite Hin, Hpar. simpl List.length. simpl nth.
    rewrite ?bind_check. rewrite Dn, Dp.
    replace (N + 1 - 1) with N by lia.
    replace (N + 1 - 2) with (N - 1) by lia.
    rewrite Hl, !Z.eqb_refl. simpl.
    destruct (Z.leb_spec 3 (N + 1)); [|lia]. simpl.
    unfold torch_empty at 1. unfold issue at 1. unfold bind at 1 2.
    unfold ret at 1. simpl List.length. simpl app.
    pose proof (numel_nonzero B C T HB HC HT ltac:(unfold max_int; lia)) as Hnz.
    rewrite Hnz. rewrite EB, EC, ET, EN in *.
    fold tr0.
    rewrite (bind_ok _ _ _ _ _ Hipb).
    rewrite (bind_ok _ _ _ _ _ Hg).
    fold gdy. rewrite ?bind_check.
    assert (Ck1 : ((T <=? div THREADS_PER_BLOCK ipb) || (ipb =? 1)) = true).
    { destruct Pi as [->|P1].
      - rewrite orb_true_r. reflexivity.
      - rewrite (div_threads THREADS_PER_BLOCK ipb T Ri
                   ltac:(unfold max_int; lia) P1). reflexivity. }
    rewrite Ck1, Ea, Em.
    destruct (Z.leb_spec (N + 1) THREADS_PER_BLOCK); [|lia].
    unfold AT_DISPATCH_FLOATING_TYPES. rewrite Hfl.
    rewrite ?bind_assoc.
    destruct (numel_shape3 input B C T Hin) as [Ni Di].
    destruct (numel_shape2 params C (N + 1) Hpar) as [Np Dp2].
    rewrite (bind_accessor _ 3 input)
      by first [assumption | reflexivity | rewrite Ni; unfold max_int; lia].
    cbv beta. rewrite ?bind_assoc.
    rewrite (bind_accessor _ 2 params)
      by first [assumption | reflexivity | rewrite Np; unfold max_int; lia].
    cbv beta. rewrite ?bind_assoc.
    rewrite bind_accessor;
      [|unfold numel, max_int; cbn [t_shape fold_right]; lia
       |reflexivity|reflexivity].
    reflexivity.
  - rewrite <- Ej. repeat split; try assumption; try lia.
    + destruct Pi as [->|P1]; [left; reflexivity|right].
      apply Z.div_le_lower_bound; lia.
    + destruct Mg as [->|Mg]; [|right; exact Mg].
      left. destruct (Z.eq_dec j 0) as [|Hj0]; [assumption|].
      assert (2 ^ 1 <= 2 ^ j) by (apply Z.pow_le_mono_r; lia). lia.
Qed.

(** X1.  On a valid non-empty call the forward entry point launches the
    kernel once, with the grid [(C, grid_dim_y, 1)], [THREADS_PER_BLOCK]
    threads and [2 N + 3] scalars of shared memory.
    [images_per_thread_block] is the largest power of two [p] with
    [p * T <= THREADS_PER_BLOCK] (1 when there is none) and [grid_dim_y]
    is the smaller of [ceil(B / images_per_thread_block)] and the least
    power of two [g] with [C * g >= 128]: so [1 <= grid_dim_y <= B], each
    thread group has an image to work on, and the kernel's documented
    requirement on [images_per_thread_block] holds.  On a valid call
    [params] holds elements of the floating type of [input], and both
    have at most [INT32_MAX] elements, which is what the accessors of the
    launch ask. *)
Theorem forward_launch_configuration
    (fuel : nat) (B C T N : Z) (input params : tensor) :
  t_shape input = [B; C; T] ->
  t_shape params = [C; N + 1] ->
  is_cuda (t_device input) = true ->
  is_cuda (t_device params) = true ->
  is_floating (t_dtype input) = true ->
  t_dtype params = t_dtype input ->
  1 <= B -> 1 <= C -> 1 <= T ->
  C * B * T <= max_int -> C * (N + 1) <= max_int -> 2 * T <= max_int ->
  B + THREADS_PER_BLOCK <= max_int ->
  2 <= N -> Z.land N (N - 1) = 0 -> N + 1 <= THREADS_PER_BLOCK ->
  THREADS_PER_BLOCK + 256 < Z.of_nat fuel ->
  exists ipb grid_dim_y k j,
    let output :=
      mkTensor [B; C; T] (t_dtype input) (t_device input) (Made 0) in
    mutual_information_cuda THREADS_PER_BLOCK fuel input params []
    = (Ok output,
       [OpEmpty [B; C; T] (t_dtype input) (t_device input);
        OpLaunch "mutual_information_kernel"
          (C, grid_dim_y, 1) THREADS_PER_BLOCK (2 * N + 3)
          [input; params; output] ipb])
    /\ 0 <= k /\ ipb = 2 ^ k
    /\ (ipb = 1 \/ T <= THREADS_PER_BLOCK / ipb)
    /\ (ipb = 1 \/ ipb * T <= THREADS_PER_BLOCK)
    /\ THREADS_PER_BLOCK < 2 * ipb * T
    /\ 0 <= j /\ 128 <= C * 2 ^ j /\ (j = 0 \/ C * 2 ^ j < 256)
    /\ grid_dim_y = Z.min (2 ^ j) ((B + ipb - 1) / ipb)
    /\ 1 <= grid_dim_y <= B
    /\ (grid_dim_y - 1) * ipb < B.
Proof.
  intros Hin Hpar Dn Dp Hfl Tp HB HC HT Hnum Hpn HT2 HBT HN Hl HN1 Hf.
  destruct (forward_launch_trace fuel B C T N input params)
    as (ipb & grid_dim_y & k & j & H); try assumption.
  exists ipb, grid_dim_y, k, j. exact H.
Qed.

Lemma backward_launch_trace
    (fuel : nat) (B C T N : Z) (input params output_grad : tensor) :
  t_shape input = [B; C; T] ->
  t_shape params = [C; N + 1] ->
  t_shape output_grad = [B; C; T] ->
  is_cuda (t_device input) = true ->
  is_cuda (t_device params) = true ->
  is_cuda (t_device output_grad) = true ->
  is_floating (t_dtype input) = true ->
  t_dtype params = t_dtype input ->
  t_dtype output_grad = t_dtype input ->
  1 <= B -> 1 <= C -> 1 <= T ->
  C * B * T <= max_int -> C * (N + 1) <= max_int -> 2 * T <= max_int ->
  B + THREADS_PER_BLOCK <= max_int ->
  4 <= N <= 16 -> Z.land N (N - 1) = 0 -> N <= THREADS_PER_BLOCK ->
  THREADS_PER_BLOCK + 256 < Z.of_nat fuel ->
  exists ipb grid_dim_y k j output tr1 tr2,
    mutual_information_backward_cuda THREADS_PER_BLOCK fuel
      input params output_grad []
    = (Ok output,
       tr1 ++ OpLaunch "mutual_information_backward_kernel"
                (C, grid_dim_y, 1) THREADS_PER_BLOCK (2 * N + 3)
                [input; params; output_grad;
                 mkTensor [B; C; T] (t_dtype input) (t_device input)
                   (Made 0);
                 mkTensor [grid_dim_y; C; N + 1] (t_dtype input)
                   (t_device input) (Made 1)]
                ipb :: tr2)
    /\ existsb is_launch tr1 = false /\ existsb is_launch tr2 = false
    /\ 0 <= k /\ ipb = 2 ^ k
    /\ N <= THREADS_PER_BLOCK / ipb
    /\ (ipb = 1 \/ T <= THREADS_PER_BLOCK / ipb)
    /\ (THREADS_PER_BLOCK < 2 * ipb * T \/ THREADS_PER_BLOCK < 2 * ipb * N)
    /\ 0 <= j /\ 128 <= C * 2 ^ j /\ (j = 0 \/ C * 2 ^ j < 256)
    /\ grid_dim_y = Z.min (2 ^ j) ((B + ipb - 1) / ipb)
    /\ 1 <= grid_dim_y <= B
    /\ (grid_dim_y - 1) * ipb < B.
Proof.
  intros Hin Hpar Hog Dn Dp Dg Hfl Tp Tg HB HC HT Hnum Hpn HT2 HBT HN Hl
    HNT Hf.
  unfold max_int in *.
  set (tr0 := [OpEmpty [B; C; T] (t_dtype input) (t_device input)]).
  destruct (images_loop_backward_exact T N fuel tr0)
    as (ipb & k & Hipb & Hk & Ek & Ri & Pi & Mi);
    try (unfold max_int; lia).
  destruct (grid_loop_exact C fuel tr0 ltac:(unfold max_int; lia)
              ltac:(lia))
    as (g & j & Hg & Hj & Ej & Rg & Lg & Mg).
  destruct (grid_dim_y_exact B ipb g HB Ri ltac:(unfold max_int; lia)
              ltac:(lia)) as (Egd & Rgd & Wgd).
  set (gdy := if div (sub (add B ipb) 1) ipb <? g
              then div (sub (add B ipb) 1) ipb else g) in *.
  assert (EN : wrap N = N) by (apply wrap_small, in_range_intro; lia).
  assert (Es : sub N 1 = N - 1) by (apply wrap_small, in_range_intro; lia).
  assert (Ea : add N 1 = N + 1) by (apply wrap_small, in_range_intro; lia).
  assert (Em : add (mul 2 N) 3 = 2 * N + 3).
  { unfold add, mul. rewrite (wrap_small (2 * N)) by (apply in_range_intro; lia).
    apply wrap_small, in_range_intro. lia. }
  assert (EB : wrap B = B) by (apply wrap_small, in_range_intro; nia).
  assert (EC : wrap C = C) by (apply wrap_small, in_range_intro; nia).
  assert (ET : wrap T = T) by (apply wrap_small, in_range_intro; nia).
  assert (PN : ipb * N <= THREADS_PER_BLOCK).
  { destruct Pi as [->|[_ P2]]; lia. }
  assert (Hgg : gdy <= g).
  { unfold gdy. destruct (Z.ltb_spec (div (sub (add B ipb) 1) ipb) g); lia. }
  assert (Hpg : gdy * C * (N + 1) <= 2 ^ 31 - 1).
  { destruct Mg as [Eg|Mg'];
      [assert (Eg1 : gdy = 1) by lia; rewrite Eg1; lia|].
    assert (gdy * C <= g * C) by (apply Z.mul_le_mono_nonneg_r; lia).
    assert (gdy * C * (N + 1) <= 255 * (N + 1))
      by (apply Z.mul_le_mono_nonneg_r; lia).
    lia. }
  exists ipb, gdy, k, j. eexists. exists [OpEmpty [B; C; T] (t_dtype input) (t_device input);
           OpZeros [gdy; C; N + 1] (t_dtype input) (t_device input)].
  eexists.
  split; [|split; [reflexivity|split]].
  - unfold mutual_information_backward_cuda, dim, size.
    rewrite Hin, Hpar, Hog. simpl List.length. simpl nth.
    rewrite ?bind_check. rewrite Dn, Dp, Dg.
    replace (N + 1 - 1) with N by lia.
    replace (N + 1 - 2) with (N - 1) by lia.
    rewrite Hl, !Z.eqb_refl. simpl.
    destruct (Z.leb_spec 3 (N + 1)); [|lia]. simpl.
    rewrite EN, Es, Hl.
    destruct (Z.leb_spec 4 N); [|lia].
    destruct (Z.leb_spec N 16); [|lia]. simpl.
    unfold torch_empty at 1. unfold issue at 1. unfold bind at 1 2.
    unfold ret at 1. simpl List.length. simpl app.
    pose proof (numel_nonzero B C T HB HC HT ltac:(unfold max_int; lia)) as Hnz.
    rewrite Hnz. rewrite EB, EC, ET in *.
    fold tr0.
    rewrite (bind_ok _ _ _ _ _ Hipb).
    rewrite (bind_ok _ _ _ _ _ Hg).
    fold gdy. rewrite ?bind_check.
    assert (Ck1 : ((T <=? div THREADS_PER_BLOCK ipb) || (ipb =? 1)) = true).
    { destruct Pi as [->|[P1 P2]].
      - rewrite orb_true_r. reflexivity.
      - rewrite (div_threads THREADS_PER_BLOCK ipb T Ri
                   ltac:(unfold max_int; lia) P1). reflexivity. }
    assert (Ck2 : (N <=? div THREADS_PER_BLOCK ipb) = true).
    { apply (div_threads THREADS_PER_BLOCK ipb N Ri
               ltac:(unfold max_int; lia) PN). }
    rewrite Ck1, Ck2, Ea, Em.
    unfold AT_DISPATCH_FLOATING_TYPES. rewrite Hfl.
    unfold torch_zeros at 1. unfold issue at 1. unfold bind at 1 2 3.
    unfold ret at 1. simpl List.length. simpl app.
    destruct (numel_shape3 input B C T Hin) as [Ni Di].
    destruct (numel_shape3 output_grad B C T Hog) as [Ng Dg3].
    destruct (numel_shape2 params C (N + 1) Hpar) as [Np Dp2].
    rewrite (bind_accessor _ 3 input)
      by first [assumption | reflexivity | rewrite Ni; unfold max_int; lia].
    rewrite (bind_accessor _ 2 params)
      by first [assumption | reflexivity | rewrite Np; unfold max_int; lia].
    rewrite (bind_accessor _ 3 output_grad)
      by first [assumption | reflexivity | rewrite Ng; unfold max_int; lia].
    rewrite bind_accessor;
      [|unfold numel, max_int; cbn [t_shape fold_right]; lia
       |reflexivity|reflexivity].
    rewrite bind_accessor;
      [|unfold numel, max_int; cbn [t_shape fold_right]; lia
       |reflexivity|reflexivity].
    reflexivity.
  - reflexivity.
  - rewrite <- Ej. repeat split; try assumption; try lia.
    + apply Z.div_le_lower_bound; lia.
    + destruct Pi as [->|[P1 _]]; [left; reflexivity|right].
      apply Z.div_le_lower_bound; lia.
    + destruct Mg as [->|Mg]; [|right; exact Mg].
      left. destruct (Z.eq_dec j 0) as [|Hj0]; [assumption|].
      assert (2 ^ 1 <= 2 ^ j) by (apply Z.pow_le_mono_r; lia). lia.
Qed.

(** X2.  On a valid non-empty call the backward entry point launches the
    backward kernel with the grid [(C, grid_dim_y, 1)] where
    [images_per_thread_block] is the largest power of two [p] with
    [p * T] and [p * N] both at most [THREADS_PER_BLOCK] (1 when there is
    none), and [grid_dim_y] is the smaller of
    [ceil(B / images_per_thread_block)] and the least power of two [g]
    with [C * g >= 128].  So [1 <= grid_dim_y <= B], and the kernel's
    documented requirements hold:
    [N <= THREADS_PER_BLOCK / images_per_thread_block], and
    [THREADS_PER_BLOCK / images_per_thread_block >= T] unless
    [images_per_thread_block] is 1.  On a valid call [params] and
    [output_grad] hold elements of the floating type of [input], and
    [input] and [params] have at most [INT32_MAX] elements, which is what
    the accessors of the launch ask. *)
Theorem backward_launch_configuration
    (fuel : nat) (B C T N : Z) (input params output_grad : tensor) :
  t_shape input = [B; C; T] ->
  t_shape params = [C; N + 1] ->
  t_shape output_grad = [B; C; T] ->
  is_cuda (t_device input) = true ->
  is_cuda (t_device params) = true ->
  is_cuda (t_device output_grad) = true ->
  is_floating (t_dtype input) = true ->
  t_dtype params = t_dtype input ->
  t_dtype output_grad = t_dtype input ->
  1 <= B -> 1 <= C -> 1 <= T ->
  C * B * T <= max_int -> C * (N + 1) <= max_int -> 2 * T <= max_int ->
  B + THREADS_PER_BLOCK <= max_int ->
  4 <= N <= 16 -> Z.land N (N - 1) = 0 -> N <= THREADS_PER_BLOCK ->
  THREADS_PER_BLOCK + 256 < Z.of_nat fuel ->
  exists ipb grid_dim_y k j output tr1 tr2,
    mutual_information_backward_cuda THREADS_PER_BLOCK fuel
      input params output_grad []
    = (Ok output,
       tr1 ++ OpLaunch "mutual_information_backward_kernel"
                (C, grid_dim_y, 1) THREADS_PER_BLOCK (2 * N + 3)
                [input; params; output_grad;
                 mkTensor [B; C; T] (t_dtype input) (t_device input)
                   (Made 0);
                 mkTensor [grid_dim_y; C; N + 1] (t_dtype input)
                   (t_device input) (Made 1)]
                ipb :: tr2)
    /\ existsb is_launch tr1 = false /\ existsb is_launch tr2 = false
    /\ 0 <= k /\ ipb = 2 ^ k
    /\ N <= THREADS_PER_BLOCK / ipb
    /\ (ipb = 1 \/ T <= THREADS_PER_BLOCK / ipb)
    /\ (THREADS_PER_BLOCK < 2 * ipb * T \/ THREADS_PER_BLOCK < 2 * ipb * N)
    /\ 0 <= j /\ 128 <= C * 2 ^ j /\ (j = 0 \/ C * 2 ^ j < 256)
    /\ grid_dim_y = Z.min (2 ^ j) ((B + ipb - 1) / ipb)
    /\ 1 <= grid_dim_y <= B
    /\ (grid_dim_y - 1) * ipb < B.
Proof.
  intros Hin Hpar Hog Dn Dp Dg Hfl Tp Tg HB HC HT Hnum Hpn HT2 HBT HN Hl
    HNT Hf.
  destruct (backward_launch_trace fuel B C T N input params output_grad)
    as (ipb & grid_dim_y & k & j & output & tr1 & tr2 & H);
    try assumption.
  exists ipb, grid_dim_y, k, j, output, tr1, tr2. exact H.
Qed.

(** The accessor at the head of the computation [Er] speaks of: its
    checks hold, or they do not and the call is rejected. *)
Tactic Notation "accessor_cases" hyp(Er)
    ident(Hn) ident(Hd) ident(He) ident(Hfail) ident(check) :=
  lazymatch type of Er with
  | _ = bind (packed_accessor32 ?s ?n ?t) ?k ?tr =>
      let E := fresh "E" in
      destruct (bind_accessor_cases s n t k tr)
        as [(Hn & Hd & He & E) | (Hfail & check & E)];
      rewrite E in Er; clear E; cbv beta in Er; rewrite ?bind_assoc in Er
  end.



End HostConfiguration.

Section HostConfigurationWitnesses.

Import Int32 Host.

Lemma forward_launch_configuration_witness :
  let input := mkTensor [2; 3; 5] Float (CUDA 0) (Arg "input") in
  let params := mkTensor [3; 9] Float (CUDA 0) (Arg "params") in
  (2 * 256 <= max_int /\ 3 * 2 * 5 <= max_int /\ 8 + 1 <= 256
   /\ Z.land 8 (8 - 1) = 0 /\ 256 + 256 < Z.of_nat 600)
  /\ exists ipb grid_dim_y,
      snd (mutual_information_cuda 256 600 input params [])
      = [OpEmpty [2; 3; 5] Float (CUDA 0);
         OpLaunch "mutual_information_kernel" (3, grid_dim_y, 1) 256 19
           [input; params; mkTensor [2; 3; 5] Float (CUDA 0) (Made 0)] ipb]
      /\ 1 <= grid_dim_y <= 2 /\ (ipb = 1 \/ 5 <= 256 / ipb).
Proof.
  intros input params. split.
  - unfold max_int. repeat split; lia.
  - destruct (forward_launch_configuration 256 ltac:(lia)
                ltac:(unfold max_int; lia) 600 2 3 5 8 input params)
      as (ipb & gdy & k & j & Hrun & _ & _ & Hd & _ & _ & _ & _ & _ & _
          & Hg & _);
      try reflexivity; try (unfold max_int; lia).
    exists ipb, gdy. cbv zeta in Hrun. rewrite Hrun.
    split; [reflexivity|]. split; assumption.
Defined.

Lemma backward_launch_configuration_witness :
  let input := mkTensor [2; 3; 5] Float (CUDA 0) (Arg "input") in
  let params := mkTensor [3; 9] Float (CUDA 0) (Arg "params") in
  let output_grad := mkTensor [2; 3; 5] Float (CUDA 0) (Arg "output_grad") in
  (2 * 256 <= max_int /\ 3 * 2 * 5 <= max_int /\ 8 <= 256
   /\ Z.land 8 (8 - 1) = 0 /\ 256 + 256 < Z.of_nat 600)
  /\ exists ipb grid_dim_y,
      1 <= grid_dim_y <= 2 /\ 8 <= 256 / ipb
      /\ exists output tr1 tr2,
          mutual_information_backward_cuda 256 600 input params
            output_grad []
          = (Ok output,
             tr1 ++ OpLaunch "mutual_information_backward_kernel"
                      (3, grid_dim_y, 1) 256 19
                      [input; params; output_grad;
                       mkTensor [2; 3; 5] Float (CUDA 0) (Made 0);
                       mkTensor [grid_dim_y; 3; 9] Float (CUDA 0) (Made 1)]
                      ipb :: tr2).
Proof.
  intros input params output_grad. split.
  - unfold max_int. repeat split; lia.
  - destruct (backward_launch_configuration 256 ltac:(lia)
                ltac:(unfold max_int; lia) 600 2 3 5 8
                input params output_grad)
      as (ipb & gdy & k & j & output & tr1 & tr2 & Hrun & _ & _ & _ & _
          & Hd & _ & _ & _ & _ & _ & _ & Hg & _);
      try reflexivity; try (unfold max_int; lia).
    exists ipb, gdy. split; [exact Hg|]. split; [exact Hd|].
    exists output, tr1, tr2. exact Hrun.
Defined.


(** Operands of two element types, or an input of more than [INT32_MAX]
    elements, reach no kernel: an accessor of the launch rejects the
    call. *)
Example accessors_reject_before_the_launch :
  let input := mkTensor [2; 3; 5] Float (CUDA 0) (Arg "input") in
  let large := mkTensor [1024; 1024; 2049] Float (CUDA 0) (Arg "input") in
  let output_grad := mkTensor [2; 3; 5] Long (CUDA 0) (Arg "output_grad") in
  mutual_information_cuda 256 600 input
    (mkTensor [3; 17] Double (CUDA 0) (Arg "params")) []
  = (Rejected (AccessorFailed (ScalarTypeIs Float) (Arg "params")),
     [OpEmpty [2; 3; 5] Float (CUDA 0)])
  /\ mutual_information_cuda 256 600 large
       (mkTensor [1024; 17] Float (CUDA 0) (Arg "params")) []
     = (Rejected (AccessorFailed NumelFitsInt32 (Arg "input")),
        [OpEmpty [1024; 1024; 2049] Float (CUDA 0)])
  /\ mutual_information_backward_cuda 256 600 input
       (mkTensor [3; 17] Float (CUDA 0) (Arg "params")) output_grad []
     = (Rejected (AccessorFailed (ScalarTypeIs Float) (Arg "output_grad")),
        [OpEmpty [2; 3; 5] Float (CUDA 0);
         OpZeros [1; 3; 17] Float (CUDA 0)]).
Proof. repeat split; vm_compute; reflexivity. Qed.

End HostConfigurationWitnesses.

(** ** More on the scheduling of the forward kernel *)

Section SchedulingExtras.

Import Int32 Kernel.

Lemma NoDup_flat_map_disjoint {A B} (f : A -> list B) (l : list A) :
  NoDup l ->
  (forall x, In x l -> NoDup (f x)) ->
  (forall x y b, In x l -> In y l -> In b (f x) -> In b (f y) -> x = y) ->
  NoDup (flat_map f l).
Proof.
  induction l as [|a l IH]; intros Hl Hf Hd; simpl.
  - constructor.
  - inversion Hl as [|? ? Ha Hl']; subst.
    apply NoDup_app.
    + apply Hf. left. reflexivity.
    + apply IH; [exact Hl'| |].
      * intros x Hx. apply Hf. right. exact Hx.
      * intros x y b Hx Hy. apply Hd; right; assumption.
    + intros b Hb Hb'. apply in_flat_map in Hb'.
      destruct Hb' as (y & Hy & Hby).
      assert (a = y).
      { apply (Hd a y b); [left; reflexivity|right; exact Hy| |]; assumption. }
      subst y. contradiction.
Qed.

Lemma stride_loop_NoDup (fuel : nat) :
  forall start bound step,
    0 <= start -> 1 <= step -> bound + step <= max_int + 1 ->
    (Z.to_nat (bound - start) <= fuel)%nat ->
    NoDup (stride_loop fuel start bound step).
Proof.
  induction fuel as [|fuel IH]; intros start bound step Hs Hst Hb Hf; simpl.
  - constructor.
  - destruct (Z.ltb_spec start bound) as [Hlt|Hge]; [|constructor].
    assert (Ha : add start step = start + step).
    { apply wrap_small, in_range_intro. unfold max_int in Hb. lia. }
    rewrite Ha. constructor.
    + intros Hin. apply stride_loop_In in Hin; try lia.
      destruct Hin as (k & Hk & E & _). nia.
    + apply IH; lia.
Qed.

Variables BLOCK_S_SIZE BLOCK_T_SIZE B S T : Z.
Variable boundary : list (list Z).

Local Abbreviation in_range_launch :=
  (launch_in_range BLOCK_S_SIZE BLOCK_T_SIZE B S T boundary).
Local Abbreviation launch_of :=
  (kernel_launch BLOCK_S_SIZE BLOCK_T_SIZE B S T boundary).
Local Abbreviation works_in :=
  (does_work BLOCK_S_SIZE BLOCK_T_SIZE B S T boundary).

(** The variables of a tile that a launch works on. *)
Lemma working_tile (iter gridDim_x : Z) (u : tile) :
  in_range_launch iter gridDim_x ->
  In u (launch_of iter gridDim_x) ->
  exists b s sb tb se te,
    boundary_rect S T boundary b = (sb, tb, se, te)
    /\ 0 <= b < B /\ 0 <= s <= iter
    /\ s < num_s_blocks BLOCK_S_SIZE S
    /\ 0 <= sb /\ se <= S /\ 0 <= tb /\ te <= T
    /\ s * BLOCK_S_SIZE + sb < se
    /\ (iter - s) * BLOCK_T_SIZE + tb < te
    /\ kernel_unit BLOCK_S_SIZE BLOCK_T_SIZE B S T boundary iter
         (s * B + b) = Some u
    /\ u = mkTile b s (s * BLOCK_S_SIZE + sb)
             ((iter - s) * BLOCK_T_SIZE + tb)
             (mul (s * BLOCK_S_SIZE) ((iter - s) * BLOCK_T_SIZE) =? 0)
             se te
             (Z.min BLOCK_T_SIZE (se - (s * BLOCK_S_SIZE + sb)))
             (Z.min BLOCK_S_SIZE
                (te - ((iter - s) * BLOCK_T_SIZE + tb))).
Proof.
  intros R Hin.
  destruct (num_blocks_exact _ _ _ _ _ _ iter gridDim_x R)
    as (Es & Et & En & Em).
  pose proof R as [Hbs Hbt HB HS HT Hi Hg Hsm Htm Hu _ _].
  pose proof (ceil_div_nonneg S BLOCK_S_SIZE Hbs HS) as Ns.
  rewrite <- Es in Ns.
  apply kernel_launch_In in Hin; [|lia|rewrite Em; nia].
  destruct Hin as (bbi & Hr & Hu'). rewrite Em in Hr.
  assert (HB1 : 1 <= B) by nia.
  pose proof (Z.div_mod bbi B ltac:(lia)) as E.
  pose proof (Z.mod_pos_bound bbi B ltac:(lia)) as Rm.
  assert (Hq0 : 0 <= bbi / B) by (apply Z.div_pos; lia).
  assert (Hq : bbi / B < Z.min (iter + 1) (num_s_blocks BLOCK_S_SIZE S)).
  { apply Z.div_lt_upper_bound; lia. }
  destruct (boundary_rect_valid _ _ _ _ _ _ iter gridDim_x (bbi mod B) R
              ltac:(lia))
    as (sb & tb & se & te & Hrect & V1 & V2 & V3 & V4).
  assert (Ebbi : bbi = bbi / B * B + bbi mod B) by lia.
  exists (bbi mod B), (bbi / B), sb, tb, se, te.
  rewrite Ebbi in Hu'.
  pose proof Hu' as Hu''.
  rewrite (kernel_unit_closed _ _ _ _ _ _ iter gridDim_x (bbi mod B)
             (bbi / B) sb tb se te R) in Hu' by (assumption || lia).
  cbv zeta in Hu'.
  destruct (Z.leb_spec (se - (bbi / B * BLOCK_S_SIZE + sb)) 0)
    as [L1|L1]; [discriminate|].
  destruct (Z.leb_spec
              (te - ((iter - bbi / B) * BLOCK_T_SIZE + tb)) 0)
    as [L2|L2]; [discriminate|].
  simpl in Hu'. injection Hu' as <-.
  repeat split; try assumption; try lia.
Qed.



Lemma map_flat_map {X Y Z'} (f : Y -> Z') (g : X -> list Y) (l : list X) :
  map f (flat_map g l) = flat_map (fun x => map f (g x)) l.
Proof.
  induction l as [|a l IH]; simpl; [reflexivity|].
  rewrite map_app, IH. reflexivity.
Qed.

(** A unit is found again from the batch element and the tile row of its
    tile. *)
Lemma kernel_unit_key (iter gridDim_x bbi : Z) (u : tile) :
  in_range_launch iter gridDim_x ->
  0 <= bbi < mul B (num_blocks_this_iter BLOCK_S_SIZE S iter) ->
  kernel_unit BLOCK_S_SIZE BLOCK_T_SIZE B S T boundary iter bbi = Some u ->
  bbi = tile_block u * B + tile_b u.
Proof.
  intros R Hr Hu.
  destruct (num_blocks_exact _ _ _ _ _ _ iter gridDim_x R)
    as (Es & Et & En & Em).
  pose proof R as [Hbs Hbt HB HS HT Hi Hg Hsm Htm Hu' _ _].
  pose proof (ceil_div_nonneg S BLOCK_S_SIZE Hbs HS) as Ns.
  rewrite <- Es in Ns. rewrite Em in Hr.
  assert (HB1 : 1 <= B) by nia.
  pose proof (Z.div_mod bbi B ltac:(lia)) as E.
  pose proof (Z.mod_pos_bound bbi B ltac:(lia)) as Rm.
  assert (Hq0 : 0 <= bbi / B) by (apply Z.div_pos; lia).
  assert (Hq : bbi / B < Z.min (iter + 1) (num_s_blocks BLOCK_S_SIZE S)).
  { apply Z.div_lt_upper_bound; lia. }
  destruct (boundary_rect_valid _ _ _ _ _ _ iter gridDim_x (bbi mod B) R
              ltac:(lia))
    as (sb & tb & se & te & Hrect & V1 & V2 & V3 & V4).
  assert (Ebbi : bbi = bbi / B * B + bbi mod B) by lia.
  rewrite Ebbi in Hu.
  rewrite (kernel_unit_closed _ _ _ _ _ _ iter gridDim_x (bbi mod B)
             (bbi / B) sb tb se te R) in Hu by (assumption || lia).
  cbv zeta in Hu.
  destruct ((se - (bbi / B * BLOCK_S_SIZE + sb) <=? 0)
            || (te - ((iter - bbi / B) * BLOCK_T_SIZE + tb) <=? 0));
    [discriminate|].
  injection Hu as <-. simpl. lia.
Qed.

(** X5.  In one launch no unit is worked on twice: over all thread blocks
    of the grid and all rounds of their loops, the pairs of batch element
    and tile row of the tiles worked on are pairwise different. *)
Theorem launch_units_distinct (iter gridDim_x : Z) :
  launch_in_range BLOCK_S_SIZE BLOCK_T_SIZE B S T boundary iter gridDim_x ->
  NoDup (map (fun u => (tile_b u, tile_block u))
           (kernel_launch BLOCK_S_SIZE BLOCK_T_SIZE B S T boundary
                          iter gridDim_x)).
Proof.
  intros R.
  destruct (num_blocks_exact _ _ _ _ _ _ iter gridDim_x R)
    as (Es & Et & En & Em).
  pose proof R as [Hbs Hbt HB HS HT Hi Hg Hsm Htm Hu _ _].
  pose proof (ceil_div_nonneg S BLOCK_S_SIZE Hbs HS) as Ns.
  rewrite <- Es in Ns.
  set (bound := mul B (num_blocks_this_iter BLOCK_S_SIZE S iter)) in *.
  assert (Hbound : bound + gridDim_x <= max_int + 1) by (rewrite Em; nia).
  assert (Hb0 : 0 <= bound) by (rewrite Em; nia).
  set (key := fun u : tile => (tile_b u, tile_block u)).
  set (F := fun bbi =>
              match kernel_unit BLOCK_S_SIZE BLOCK_T_SIZE B S T boundary
                      iter bbi with
              | Some u => [u]
              | None => []
              end).
  assert (Hkey : forall bx bbi k,
             In bbi (stride_loop (Z.to_nat bound) (Z.of_nat bx) bound
                       gridDim_x) ->
             In k (map key (F bbi)) ->
             bbi = snd k * B + fst k
             /\ exists q, 0 <= q /\ bbi = Z.of_nat bx + q * gridDim_x).
  { intros bx bbi k Hbbi Hk.
    apply stride_loop_In in Hbbi; try lia.
    destruct Hbbi as (q & Hq & E & Hlt).
    unfold F in Hk.
    destruct (kernel_unit BLOCK_S_SIZE BLOCK_T_SIZE B S T boundary iter bbi)
      as [u|] eqn:Hu'; simpl in Hk; [|contradiction].
    destruct Hk as [<-|[]]. split.
    - apply (kernel_unit_key iter gridDim_x bbi u R); [fold bound; nia|].
      exact Hu'.
    - exists q. split; assumption. }
  unfold kernel_launch. rewrite map_flat_map.
  apply NoDup_flat_map_disjoint.
  - apply seq_NoDup.
  - intros bx Hbx. apply in_seq in Hbx. unfold kernel_block.
    fold bound. fold F. rewrite map_flat_map.
    apply NoDup_flat_map_disjoint.
    + apply stride_loop_NoDup; lia.
    + intros bbi _. unfold F.
      destruct (kernel_unit BLOCK_S_SIZE BLOCK_T_SIZE B S T boundary
                  iter bbi); simpl; repeat constructor. intros [].
    + intros x y k Hx Hy Hkx Hky.
      destruct (Hkey bx x k Hx Hkx) as [E1 _].
      destruct (Hkey bx y k Hy Hky) as [E2 _]. lia.
  - intros bx bx' k Hbx Hbx' Hk Hk'.
    apply in_seq in Hbx, Hbx'. unfold kernel_block in Hk, Hk'.
    fold bound in Hk, Hk'. fold F in Hk, Hk'.
    rewrite map_flat_map in Hk, Hk'.
    apply in_flat_map in Hk, Hk'.
    destruct Hk as (x & Hx & Hkx). destruct Hk' as (y & Hy & Hky).
    destruct (Hkey bx x k Hx Hkx) as [E1 (q & Hq & Eq)].
    destruct (Hkey bx' y k Hy Hky) as [E2 (q' & Hq' & Eq')].
    assert (Exy : x = y) by lia.
    assert (Emod : Z.of_nat bx = Z.of_nat bx').
    { assert (M1 : x mod gridDim_x = Z.of_nat bx).
      { rewrite Eq, Z.mod_add by lia. apply Z.mod_small. lia. }
      assert (M2 : y mod gridDim_x = Z.of_nat bx').
      { rewrite Eq', Z.mod_add by lia. apply Z.mod_small. lia. }
      congruence. }
    lia.
Qed.

(** The writes of one thread into [px_buf] and [py_buf]. *)
Lemma load_thread_In (u : tile) (tid : Z) (w : load_write) :
  1 <= BLOCK_S_SIZE -> 1 <= BLOCK_T_SIZE -> (scratch_in_range BLOCK_S_SIZE BLOCK_T_SIZE) ->
  0 <= tid < 4 * BLOCK_T_SIZE ->
  In w (load_thread BLOCK_S_SIZE BLOCK_T_SIZE u tid) <->
  exists i,
    0 <= i < BLOCK_S_SIZE * BLOCK_T_SIZE
    /\ i mod (4 * BLOCK_T_SIZE) = tid
    /\ w = (if (i / BLOCK_T_SIZE <? block_S u)
                && (i mod BLOCK_T_SIZE <? block_T u)
            then mkLoadWrite (i / BLOCK_T_SIZE) (i mod BLOCK_T_SIZE)
                   (ExpOf (tile_b u)
                      (add (i / BLOCK_T_SIZE) (s_block_begin u))
                      (add (i mod BLOCK_T_SIZE) (t_block_begin u)))
            else mkLoadWrite (i / BLOCK_T_SIZE) (i mod BLOCK_T_SIZE)
                   ZeroFill).
Proof.
  intros Hbs Hbt Hsr Htid. unfold scratch_in_range, max_int in Hsr.
  unfold load_thread.
  assert (Eb : mul BLOCK_S_SIZE BLOCK_T_SIZE = BLOCK_S_SIZE * BLOCK_T_SIZE).
  { apply wrap_small, in_range_intro. nia. }
  assert (Ed : block_dimx BLOCK_T_SIZE = 4 * BLOCK_T_SIZE).
  { unfold block_dimx. rewrite Z.mul_comm.
    apply wrap_small, in_range_intro. nia. }
  rewrite Eb, Ed.
  assert (Conv : forall i, 0 <= i < BLOCK_S_SIZE * BLOCK_T_SIZE ->
            rem i BLOCK_T_SIZE = i mod BLOCK_T_SIZE
            /\ div i BLOCK_T_SIZE = i / BLOCK_T_SIZE).
  { intros i Hi. unfold rem, div.
    rewrite Z.rem_mod_nonneg, Z.quot_div_nonneg by lia.
    split; [reflexivity|].
    assert (0 <= i / BLOCK_T_SIZE <= i).
    { split; [apply Z.div_pos; lia|].
      apply Z.div_le_upper_bound; nia. }
    apply wrap_small, in_range_intro. lia. }
  rewrite in_map_iff. split.
  - intros (i & Ew & Hi). apply stride_loop_In in Hi; try (unfold max_int; nia).
    destruct Hi as (k & Hk & Ei & Hlt).
    assert (Hi : 0 <= i < BLOCK_S_SIZE * BLOCK_T_SIZE) by nia.
    destruct (Conv i Hi) as [Er Eq]. rewrite Er, Eq in Ew.
    exists i. split; [exact Hi|]. split; [|symmetry; exact Ew].
    rewrite Ei, Z.mod_add by lia. apply Z.mod_small. lia.
  - intros (i & Hi & Hm & Ew).
    exists i. destruct (Conv i Hi) as [Er Eq]. rewrite Er, Eq.
    split; [symmetry; exact Ew|].
    apply stride_loop_In; try (unfold max_int; nia).
    exists (i / (4 * BLOCK_T_SIZE)).
    pose proof (Z.div_mod i (4 * BLOCK_T_SIZE) ltac:(lia)).
    split; [apply Z.div_pos; lia|]. split; lia.
Qed.

(** X6.  The load loop reads [px] and [py] inside their bounds only: a
    cell [exp(px[b][s][t])] that a thread of a working tile stores into
    [px_buf[s'][t']] has [b] the batch element of the tile,
    [s = s_block_begin + s'] and [t = t_block_begin + t'], and lies inside
    the rectangle of the batch element, hence inside the [(B, S, T)]
    tensor; and every store goes to a cell of the
    [BLOCK_S_SIZE] by [BLOCK_T_SIZE] scratch arrays. *)
Theorem tile_loads_in_bounds
    (iter gridDim_x : Z) (u : tile) (tid : Z) (w : load_write) :
  in_range_launch iter gridDim_x -> (scratch_in_range BLOCK_S_SIZE BLOCK_T_SIZE) ->
  In u (launch_of iter gridDim_x) ->
  0 <= tid < 4 * BLOCK_T_SIZE ->
  In w (load_thread BLOCK_S_SIZE BLOCK_T_SIZE u tid) ->
  0 <= lw_s w < BLOCK_S_SIZE /\ 0 <= lw_t w < BLOCK_T_SIZE
  /\ match lw_val w with
     | ExpOf b s t =>
         b = tile_b u /\ 0 <= b < B
         /\ s = s_block_begin u + lw_s w /\ t = t_block_begin u + lw_t w
         /\ 0 <= s < s_end u /\ s_end u <= S
         /\ 0 <= t < t_end u /\ t_end u <= T
     | ZeroFill => True
     end.
Proof.
  intros R Hsr Hu Htid Hw.
  pose proof R as [Hbs Hbt HB HS HT Hi Hg Hsm Htm Hun _ _].
  destruct (working_tile iter gridDim_x u R Hu)
    as (b & s & sb & tb & se & te & Hrect & Hb & Hs & Hsn & V1 & V2 & V3
        & V4 & I1 & I2 & _ & Eu).
  apply load_thread_In in Hw; try assumption.
  destruct Hw as (i & Hi' & Hm & Ew).
  assert (Hq : 0 <= i / BLOCK_T_SIZE < BLOCK_S_SIZE).
  { split; [apply Z.div_pos; lia|]. apply Z.div_lt_upper_bound; lia. }
  pose proof (Z.mod_pos_bound i BLOCK_T_SIZE ltac:(lia)) as Hr.
  unfold max_int in *.
  destruct ((i / BLOCK_T_SIZE <? block_S u)
            && (i mod BLOCK_T_SIZE <? block_T u)) eqn:Ec;
    subst w; simpl; (split; [lia|]); (split; [lia|]); [|exact I].
  apply andb_true_iff in Ec. destruct Ec as [Ec1 Ec2].
  apply Z.ltb_lt in Ec1, Ec2. subst u.
  cbn [tile_b s_block_begin t_block_begin s_end t_end block_S block_T]
    in *.
  assert (P1 : 0 <= s * BLOCK_S_SIZE) by (apply Z.mul_nonneg_nonneg; lia).
  assert (P2 : 0 <= (iter - s) * BLOCK_T_SIZE)
    by (apply Z.mul_nonneg_nonneg; lia).
  assert (Ea1 : add (i / BLOCK_T_SIZE) (s * BLOCK_S_SIZE + sb)
                = i / BLOCK_T_SIZE + (s * BLOCK_S_SIZE + sb)).
  { apply wrap_small, in_range_intro. lia. }
  assert (Ea2 : add (i mod BLOCK_T_SIZE) ((iter - s) * BLOCK_T_SIZE + tb)
                = i mod BLOCK_T_SIZE + ((iter - s) * BLOCK_T_SIZE + tb)).
  { apply wrap_small, in_range_intro. lia. }
  rewrite Ea1, Ea2. repeat split; lia.
Qed.

(** X7.  The load loop fills the whole of [px_buf] and [py_buf], and no
    cell twice: every cell [(s, t)] of the scratch arrays is stored to by
    a thread of the block, and two stores to one cell are the same store
    of the same thread. *)
Theorem tile_loads_cover_scratch (u : tile) :
  1 <= BLOCK_S_SIZE -> 1 <= BLOCK_T_SIZE -> (scratch_in_range BLOCK_S_SIZE BLOCK_T_SIZE) ->
  (forall s t,
      0 <= s < BLOCK_S_SIZE -> 0 <= t < BLOCK_T_SIZE ->
      exists tid w,
        0 <= tid < 4 * BLOCK_T_SIZE
        /\ In w (load_thread BLOCK_S_SIZE BLOCK_T_SIZE u tid)
        /\ lw_s w = s /\ lw_t w = t)
  /\ (forall tid tid' w w',
         0 <= tid < 4 * BLOCK_T_SIZE -> 0 <= tid' < 4 * BLOCK_T_SIZE ->
         In w (load_thread BLOCK_S_SIZE BLOCK_T_SIZE u tid) ->
         In w' (load_thread BLOCK_S_SIZE BLOCK_T_SIZE u tid') ->
         lw_s w = lw_s w' -> lw_t w = lw_t w' ->
         tid = tid' /\ w = w').
Proof.
  intros Hbs Hbt Hsr. split.
  - intros s t Hs Ht.
    set (i := s * BLOCK_T_SIZE + t).
    assert (Hi : 0 <= i < BLOCK_S_SIZE * BLOCK_T_SIZE) by (subst i; nia).
    assert (Eq : i / BLOCK_T_SIZE = s).
    { subst i. rewrite Z.add_comm, Z.div_add by lia.
      rewrite Z.div_small by lia. lia. }
    assert (Er : i mod BLOCK_T_SIZE = t).
    { subst i. rewrite Z.add_comm, Z.mod_add by lia.
      apply Z.mod_small. lia. }
    pose proof (Z.mod_pos_bound i (4 * BLOCK_T_SIZE) ltac:(lia)) as Hm.
    exists (i mod (4 * BLOCK_T_SIZE)). eexists.
    split; [exact Hm|]. split.
    + apply load_thread_In; try assumption.
      exists i. split; [exact Hi|]. split; reflexivity.
    + rewrite Eq, Er.
      destruct ((s <? block_S u) && (t <? block_T u)); split; reflexivity.
  - intros tid tid' w w' Htid Htid' Hw Hw' Es Et.
    apply load_thread_In in Hw; try assumption.
    apply load_thread_In in Hw'; try assumption.
    destruct Hw as (i & Hi & Hm & Ew).
    destruct Hw' as (i' & Hi' & Hm' & Ew').
    assert (Ei : i = i').
    { assert (lw_s w = i / BLOCK_T_SIZE /\ lw_t w = i mod BLOCK_T_SIZE).
      { subst w. destruct ((i / BLOCK_T_SIZE <? block_S u)
                           && (i mod BLOCK_T_SIZE <? block_T u));
          split; reflexivity. }
      assert (lw_s w' = i' / BLOCK_T_SIZE /\ lw_t w' = i' mod BLOCK_T_SIZE).
      { subst w'. destruct ((i' / BLOCK_T_SIZE <? block_S u)
                            && (i' mod BLOCK_T_SIZE <? block_T u));
          split; reflexivity. }
      pose proof (Z.div_mod i BLOCK_T_SIZE ltac:(lia)).
      pose proof (Z.div_mod i' BLOCK_T_SIZE ltac:(lia)).
      destruct H as [A1 A2]. destruct H0 as [B1 B2].
      rewrite <- A1, <- A2 in H1. rewrite <- B1, <- B2 in H2.
      rewrite Es, Et in H1. lia. }
    subst i'. split; [congruence|congruence].
Qed.

Lemma border_thread_cell (u : tile) (tid : Z) :
  1 <= BLOCK_S_SIZE <= max_int -> 1 <= BLOCK_T_SIZE <= max_int ->
  0 <= tid <= max_int ->
  match border_thread BLOCK_S_SIZE BLOCK_T_SIZE u tid with
  | Some w =>
      (tid < 64 /\ tid <= BLOCK_S_SIZE /\ bw_row w = tid /\ bw_col w = 0)
      \/ (64 <= tid /\ tid - 64 <= BLOCK_T_SIZE
          /\ bw_row w = 0 /\ bw_col w = tid - 64)
  | None =>
      (tid < 64 /\ BLOCK_S_SIZE < tid)
      \/ (64 <= tid /\ BLOCK_T_SIZE < tid - 64)
  end.
Proof.
  intros Hbs Hbt Htid. unfold max_int in *. unfold border_thread.
  assert (Us : to_unsigned BLOCK_S_SIZE = BLOCK_S_SIZE).
  { unfold to_unsigned, modulus. apply Z.mod_small. lia. }
  assert (Ut : to_unsigned BLOCK_T_SIZE = BLOCK_T_SIZE).
  { unfold to_unsigned, modulus. apply Z.mod_small. lia. }
  rewrite Us, Ut.
  destruct (Z.ltb_spec tid 64) as [H64|H64].
  - destruct (Z.leb_spec tid BLOCK_S_SIZE) as [Hle|Hgt].
    + destruct (ultb _ _ && ultb _ _); simpl; left; repeat split; lia.
    + left. split; lia.
  - assert (Ud : to_unsigned (tid - 64) = tid - 64).
    { unfold to_unsigned, modulus. apply Z.mod_small. lia. }
    assert (Es : sub tid 64 = tid - 64).
    { apply wrap_small, in_range_intro. lia. }
    rewrite Ud, Es.
    destruct (Z.leb_spec (tid - 64) BLOCK_T_SIZE) as [Hle|Hgt].
    + destruct (ultb _ _ && ultb _ _); simpl; right; repeat split; lia.
    + right. split; lia.
Qed.

(** X8.  The border import stores inside [p_buf] only, which has
    [BLOCK_S_SIZE + 1] rows and [BLOCK_T_SIZE + 1] columns.  With
    [BLOCK_T_SIZE >= 32] every cell of row 0 is stored to.  A cell
    [p_buf[r][0]] of column 0 is stored to exactly when [r <= 63]: the
    threads of column 0 are those below 64, so with [BLOCK_S_SIZE >= 64]
    the rows from 64 on are left as they were. *)
Theorem border_import_cells (u : tile) :
  1 <= BLOCK_S_SIZE -> 32 <= BLOCK_T_SIZE ->
  (scratch_in_range BLOCK_S_SIZE BLOCK_T_SIZE) ->
  (forall tid w,
      0 <= tid < 4 * BLOCK_T_SIZE ->
      border_thread BLOCK_S_SIZE BLOCK_T_SIZE u tid = Some w ->
      0 <= bw_row w <= BLOCK_S_SIZE /\ 0 <= bw_col w <= BLOCK_T_SIZE
      /\ (bw_row w = 0 \/ bw_col w = 0))
  /\ (forall c,
         0 <= c <= BLOCK_T_SIZE ->
         exists tid w,
           0 <= tid < 4 * BLOCK_T_SIZE
           /\ border_thread BLOCK_S_SIZE BLOCK_T_SIZE u tid = Some w
           /\ bw_row w = 0 /\ bw_col w = c)
  /\ (forall r,
         0 <= r <= BLOCK_S_SIZE ->
         r <= 63 <->
         exists tid w,
           0 <= tid < 4 * BLOCK_T_SIZE
           /\ border_thread BLOCK_S_SIZE BLOCK_T_SIZE u tid = Some w
           /\ bw_row w = r /\ bw_col w = 0).
Proof.
  intros Hbs Hbt Hsr. unfold scratch_in_range in Hsr.
  assert (Hs' : 1 <= BLOCK_S_SIZE <= max_int) by (unfold max_int in *; nia).
  assert (Ht' : 1 <= BLOCK_T_SIZE <= max_int) by (unfold max_int in *; nia).
  assert (Cell : forall tid, 0 <= tid < 4 * BLOCK_T_SIZE ->
            match border_thread BLOCK_S_SIZE BLOCK_T_SIZE u tid with
            | Some w =>
                (tid < 64 /\ tid <= BLOCK_S_SIZE
                 /\ bw_row w = tid /\ bw_col w = 0)
                \/ (64 <= tid /\ tid - 64 <= BLOCK_T_SIZE
                    /\ bw_row w = 0 /\ bw_col w = tid - 64)
            | None =>
                (tid < 64 /\ BLOCK_S_SIZE < tid)
                \/ (64 <= tid /\ BLOCK_T_SIZE < tid - 64)
            end).
  { intros tid Htid. apply border_thread_cell; try assumption.
    unfold max_int in *. nia. }
  split; [|split].
  - intros tid w Htid Hw. specialize (Cell tid Htid). rewrite Hw in Cell.
    destruct Cell as [(A & B' & C & D)|(A & B' & C & D)]; lia.
  - intros c Hc. exists (64 + c).
    assert (Htid : 0 <= 64 + c < 4 * BLOCK_T_SIZE) by lia.
    specialize (Cell (64 + c) Htid).
    destruct (border_thread BLOCK_S_SIZE BLOCK_T_SIZE u (64 + c)) as [w|].
    + exists w. split; [exact Htid|]. split; [reflexivity|].
      destruct Cell as [(A & _)|(A & B' & C & D)]; lia.
    + destruct Cell as [(A & _)|(A & B')]; lia.
  - intros r Hr. split.
    + intros H63. exists r.
      assert (Htid : 0 <= r < 4 * BLOCK_T_SIZE) by lia.
      specialize (Cell r Htid).
      destruct (border_thread BLOCK_S_SIZE BLOCK_T_SIZE u r) as [w|].
      * exists w. split; [exact Htid|]. split; [reflexivity|].
        destruct Cell as [(A & B' & C & D)|(A & _)]; lia.
      * destruct Cell as [(A & B')|(A & _)]; lia.
    + intros (tid & w & Htid & Hw & Hrow & Hcol).
      specialize (Cell tid Htid). rewrite Hw in Cell.
      destruct Cell as [(A & B' & C & D)|(A & B' & C & D)]; lia.
Qed.

End SchedulingExtras.

Section SchedulingExtrasWitnesses.

Import Int32 Kernel.

Lemma example_launch_in_range :
  launch_in_range 4 64 2 8 128 [[0; 0; 8; 128]; [0; 0; 4; 64]] 1 3.
Proof.
  constructor; try (unfold max_int; lia).
  - repeat constructor.
    + exists 0, 0, 8, 128. repeat split; lia.
    + exists 0, 0, 4, 64. repeat split; lia.
  - right. reflexivity.
Defined.


Lemma launch_units_distinct_witness :
  NoDup (map (fun u => (tile_b u, tile_block u))
           (kernel_launch 4 64 2 8 128 [[0; 0; 8; 128]; [0; 0; 4; 64]]
              1 3)).
Proof.
  exact (launch_units_distinct 4 64 2 8 128 _ 1 3 example_launch_in_range).
Defined.

Lemma tile_loads_in_bounds_witness :
  exists u w,
    In u (kernel_launch 4 64 2 8 128 [[0; 0; 8; 128]; [0; 0; 4; 64]] 1 3)
    /\ In w (load_thread 4 64 u 5)
    /\ 0 <= lw_s w < 4 /\ 0 <= lw_t w < 64.
Proof.
  eexists. eexists.
  assert (Hu : In (mkTile 0 0 0 64 true 8 128 8 4)
                 (kernel_launch 4 64 2 8 128
                    [[0; 0; 8; 128]; [0; 0; 4; 64]] 1 3)).
  { vm_compute. left. reflexivity. }
  assert (Hw : In (mkLoadWrite 0 5 ZeroFill)
                 (load_thread 4 64 (mkTile 0 0 0 64 true 8 128 8 4) 5)).
  { vm_compute. left. reflexivity. }
  split; [exact Hu|]. split; [exact Hw|].
  destruct (tile_loads_in_bounds 4 64 2 8 128 _ 1 3 _ 5 _
              example_launch_in_range ltac:(unfold scratch_in_range, max_int; lia)
              Hu ltac:(lia) Hw) as (A & B' & _).
  split; assumption.
Defined.

Lemma tile_loads_cover_scratch_witness :
  exists tid w,
    0 <= tid < 4 * 64
    /\ In w (load_thread 4 64 (mkTile 0 0 0 64 true 8 128 8 4) tid)
    /\ lw_s w = 3 /\ lw_t w = 17.
Proof.
  destruct (tile_loads_cover_scratch 4 64 (mkTile 0 0 0 64 true 8 128 8 4)
              ltac:(lia) ltac:(lia)
              ltac:(unfold scratch_in_range, max_int; lia)) as [H _].
  apply (H 3 17); lia.
Defined.

Lemma border_import_cells_witness :
  exists tid w,
    0 <= tid < 4 * 64
    /\ border_thread 4 64 (mkTile 0 0 0 64 true 8 128 8 4) tid = Some w
    /\ bw_row w = 0 /\ bw_col w = 64.
Proof.
  destruct (border_import_cells 4 64 (mkTile 0 0 0 64 true 8 128 8 4)
              ltac:(lia) ltac:(lia)
              ltac:(unfold scratch_in_range, max_int; lia)) as (_ & H & _).
  apply (H 64). lia.
Defined.

End SchedulingExtrasWitnesses.

(** ** The backward kernel: routing of the gradients *)

Section BackwardBits.

Import Int32 Backward.

Lemma pow2_pos (k : Z) : 0 <= k -> 0 < 2 ^ k.
Proof. intros. apply Z.pow_pos_nonneg; lia. Qed.

Lemma pow2_le_30 (k : Z) : 0 <= k <= 30 -> 1 <= 2 ^ k <= 2 ^ 30.
Proof.
  intros Hk. split.
  - pose proof (pow2_pos k). lia.
  - apply Z.pow_le_mono_r; lia.
Qed.

Lemma sub_pow2_ones (k : Z) : 0 <= k <= 30 -> sub (2 ^ k) 1 = Z.ones k.
Proof.
  intros Hk. pose proof (pow2_le_30 k Hk). unfold sub.
  rewrite wrap_small by (apply in_range_intro; lia).
  rewrite Z.ones_equiv. lia.
Qed.

Lemma to_unsigned_land (z : Z) : to_unsigned z = Z.land z (Z.ones 32).
Proof. unfold to_unsigned, modulus. now rewrite Z.land_ones by lia. Qed.

Lemma land_unsigned_small (a z : Z) :
  0 <= a <= max_int -> Z.land a (to_unsigned z) = Z.land a z.
Proof.
  intros Ha. rewrite to_unsigned_land, (Z.land_comm z), Z.land_assoc.
  rewrite Z.land_ones by lia. rewrite Z.mod_small; [reflexivity|].
  unfold max_int in Ha. lia.
Qed.

Lemma this_n_eq (k tid : Z) :
  0 <= k <= 30 -> 0 <= tid <= max_int ->
  this_n (2 ^ k) tid = tid mod 2 ^ k.
Proof.
  intros Hk Ht. unfold this_n. rewrite sub_pow2_ones by assumption.
  rewrite land_unsigned_small by assumption.
  rewrite Z.land_ones by lia.
  pose proof (Z.mod_pos_bound tid (2 ^ k) (pow2_pos k (proj1 Hk))).
  pose proof (pow2_le_30 k Hk).
  apply wrap_small, in_range_intro. lia.
Qed.

Lemma this_block_start_eq (k tid : Z) :
  0 <= k <= 30 -> 0 <= tid <= max_int ->
  this_block_start (2 ^ k) tid = 2 ^ k * (tid / 2 ^ k).
Proof.
  intros Hk Ht. unfold this_block_start. rewrite sub_pow2_ones by assumption.
  rewrite land_unsigned_small by assumption.
  rewrite <- Z.ldiff_land, Z.ldiff_ones_r by lia.
  rewrite Z.shiftr_div_pow2, Z.shiftl_mul_pow2 by lia.
  pose proof (pow2_pos k (proj1 Hk)) as Hp.
  pose proof (Z.mul_div_le tid (2 ^ k) Hp).
  pose proof (Z.div_pos tid (2 ^ k) (proj1 Ht) Hp).
  rewrite wrap_small by (apply in_range_intro; unfold max_int in *; nia).
  lia.
Qed.

Lemma land_shifted_small (a x k : Z) :
  0 <= k -> 0 <= x < 2 ^ k -> Z.land (a * 2 ^ k) x = 0.
Proof.
  intros Hk Hx.
  rewrite <- (Z.mod_small x (2 ^ k)) by assumption.
  rewrite <- (Z.land_ones x) by assumption.
  rewrite (Z.land_comm x), Z.land_assoc, Z.land_ones by assumption.
  rewrite Z.mod_mul by (pose proof (pow2_pos k Hk); lia).
  apply Z.land_0_l.
Qed.

Lemma lor_shifted_small (a x k : Z) :
  0 <= k -> 0 <= x < 2 ^ k -> Z.lor (a * 2 ^ k) x = a * 2 ^ k + x.
Proof.
  intros Hk Hx. pose proof (Z.add_lor_land (a * 2 ^ k) x) as H.
  rewrite land_shifted_small in H by assumption. lia.
Qed.

Lemma time_index_eq (k tid m : Z) :
  0 <= k <= 30 -> 0 <= tid <= max_int -> 0 <= m ->
  m * 2 ^ k + 2 ^ k <= max_int ->
  time_index (2 ^ k) tid (m * 2 ^ k) = tid mod 2 ^ k + m * 2 ^ k.
Proof.
  intros Hk Ht Hm Hb. unfold time_index.
  rewrite sub_pow2_ones by assumption.
  rewrite land_unsigned_small by assumption.
  rewrite Z.land_ones by lia.
  pose proof (pow2_pos k (proj1 Hk)) as Hp.
  pose proof (Z.mod_pos_bound tid (2 ^ k) Hp).
  assert (Hu : to_unsigned (m * 2 ^ k) = m * 2 ^ k).
  { unfold to_unsigned, modulus. apply Z.mod_small.
    unfold max_int in Hb. nia. }
  rewrite Hu, Z.lor_comm, lor_shifted_small by lia.
  rewrite wrap_small by (apply in_range_intro; unfold max_int in *; nia).
  lia.
Qed.

End BackwardBits.

Section BackwardPacking.

Import Int32 Backward.

Local Abbreviation nibbles xs := (Forall (fun x => 0 <= x < 16) xs).

Lemma pack_app (xs : list Z) (x : Z) : pack (xs ++ [x]) = 16 * pack xs + x.
Proof. unfold pack. now rewrite fold_left_app. Qed.

Lemma pack_bound (xs : list Z) :
  nibbles xs -> 0 <= pack xs < 16 ^ Z.of_nat (List.length xs).
Proof.
  induction xs as [|x xs IH] using rev_ind; intros H.
  - cbn. lia.
  - apply Forall_app in H as [H1 H2]. apply Forall_inv in H2.
    specialize (IH H1). rewrite pack_app, length_app, Nat2Z.inj_add.
    cbn [List.length]. rewrite Z.pow_add_r by lia.
    change (16 ^ Z.of_nat 1) with 16. lia.
Qed.

Lemma pack_fits (xs : list Z) :
  nibbles xs -> (List.length xs <= 15)%nat -> 0 <= 16 * pack xs < 2 ^ 64.
Proof.
  intros H Hl. pose proof (pack_bound xs H) as Hb.
  assert (16 ^ Z.of_nat (List.length xs) <= 16 ^ 15)
    by (apply Z.pow_le_mono_r; lia).
  change (2 ^ 64) with (16 * 16 ^ 15). lia.
Qed.

Lemma push_eq (xs : list Z) (x : Z) :
  nibbles xs -> (List.length xs <= 15)%nat -> 0 <= x < 16 ->
  Z.lor (wrap64 (Z.shiftl (pack xs) 4)) x = pack (xs ++ [x]).
Proof.
  intros H Hl Hx. pose proof (pack_fits xs H Hl).
  rewrite Z.shiftl_mul_pow2 by lia. unfold wrap64.
  rewrite Z.mod_small by (change (2 ^ 4) with 16; lia).
  rewrite lor_shifted_small by (change (2 ^ 4) with 16; lia).
  rewrite pack_app. change (2 ^ 4) with 16. lia.
Qed.

Lemma pop_eq (xs : list Z) (x : Z) :
  0 <= x < 16 ->
  Z.land (pack (xs ++ [x])) 15 = x /\
  Z.shiftr (pack (xs ++ [x])) 4 = pack xs.
Proof.
  intros Hx. rewrite pack_app. split.
  - change 15 with (Z.ones 4). rewrite Z.land_ones by lia.
    change (2 ^ 4) with 16. rewrite Z.add_comm, Z.mul_comm, Z.mod_add by lia.
    apply Z.mod_small. lia.
  - rewrite Z.shiftr_div_pow2 by lia. change (2 ^ 4) with 16.
    rewrite Z.add_comm, Z.mul_comm, Z.div_add by lia.
    rewrite Z.div_small by lia. lia.
Qed.

Lemma char_of_byte_eqb (b tn : Z) :
  0 <= b < 256 -> 0 <= tn < 128 ->
  (char_of_byte b =? tn) = (b =? tn).
Proof.
  intros Hb Ht. unfold char_of_byte.
  destruct (Z.ltb_spec b 128); [reflexivity|].
  destruct (Z.eqb_spec (b - 256) tn), (Z.eqb_spec b tn); lia || reflexivity.
Qed.

Lemma read_uint32_byte (n_buf : list Z) (off j : Z) :
  (forall d, 0 <= d < 4 -> 0 <= byte_at n_buf (off + d) < 256) ->
  0 <= j < 4 ->
  Z.shiftr (read_uint32 n_buf off) (8 * j) mod 2 ^ 8
  = byte_at n_buf (off + j).
Proof.
  intros Hb Hj. unfold read_uint32.
  pose proof (Hb 0 ltac:(lia)) as H0. pose proof (Hb 1 ltac:(lia)) as H1.
  pose proof (Hb 2 ltac:(lia)) as H2. pose proof (Hb 3 ltac:(lia)) as H3.
  rewrite Z.add_0_r in H0.
  rewrite Z.shiftr_div_pow2 by lia.
  change (2 ^ 8) with 256. change (2 ^ 16) with 65536.
  change (2 ^ 24) with 16777216.
  assert (Hc : j = 0 \/ j = 1 \/ j = 2 \/ j = 3) by lia.
  destruct Hc as [E | [E | [E | E]]]; subst j.
  - change (2 ^ (8 * 0)) with 1. rewrite Z.add_0_r.
    Z.div_mod_to_equations. lia.
  - change (2 ^ (8 * 1)) with 256.
    Z.div_mod_to_equations. lia.
  - change (2 ^ (8 * 2)) with 65536.
    Z.div_mod_to_equations. lia.
  - change (2 ^ (8 * 3)) with 16777216.
    Z.div_mod_to_equations. lia.
Qed.

End BackwardPacking.

Section BackwardLane.

Import Int32 Backward.

Variables (N k : Z) (n_buf : list Z) (tid : Z).
Hypothesis N_pow : N = 2 ^ k.
Hypothesis k_range : 2 <= k <= 4.
Hypothesis tid_nonneg : 0 <= tid.
Hypothesis group_inside : N * (tid / N) + N <= Z.of_nat (List.length n_buf).
Hypothesis buf_small : Z.of_nat (List.length n_buf) <= max_int.
Hypothesis bytes : Forall (fun b => 0 <= b < 256) n_buf.

Local Abbreviation nibbles xs := (Forall (fun x => 0 <= x < 16) xs).
Local Abbreviation tbs := (N * (tid / N)).
Local Abbreviation tn := (tid mod N).
Local Abbreviation matches x := (byte_at n_buf (tbs + x) =? tn).

Lemma N_cases : N = 4 \/ N = 8 \/ N = 16.
Proof.
  assert (Hc : k = 2 \/ k = 3 \/ k = 4) by lia.
  destruct Hc as [E | [E | E]]; subst k; subst N; auto.
Qed.

Lemma lane_bounds : 4 <= N <= 16 /\ 0 <= tbs /\ 0 <= tn < N /\ tid < tbs + N.
Proof.
  pose proof N_cases as HN.
  assert (0 < N) by lia.
  pose proof (Z.div_pos tid N tid_nonneg H).
  pose proof (Z.mod_pos_bound tid N H).
  pose proof (Z.div_mod tid N ltac:(lia)). nia.
Qed.

Lemma byte_at_range (i : Z) : 0 <= byte_at n_buf i < 256.
Proof.
  unfold byte_at. destruct (Nat.lt_ge_cases (Z.to_nat i) (List.length n_buf)).
  - apply (proj1 (Forall_forall _ _) bytes). now apply nth_In.
  - rewrite nth_overflow by assumption. lia.
Qed.

Lemma gather_entries (i : Z) :
  0 <= i -> in_range (tbs + i) ->
  forall js xs,
    nibbles xs -> (List.length xs + List.length js <= 16)%nat ->
    Forall (fun j => 0 <= j < 4 /\ i + j < 16) js ->
    fold_left
      (fun st j => gather_entry tn i j (read_uint32 n_buf (tbs + i)) st)
      js (pack xs, Z.of_nat (List.length xs))
    = (pack (xs ++ filter (fun x => matches x) (map (Z.add i) js)),
       Z.of_nat (List.length (xs ++ filter (fun x => matches x)
                                      (map (Z.add i) js)))).
Proof.
  intros Hi Hr. pose proof lane_bounds as HL.
  induction js as [|j js IH]; intros xs Hx Hl Hj.
  - cbn. now rewrite app_nil_r.
  - apply Forall_cons_iff in Hj as [[Hj1 Hj2] Hj].
    cbn [List.length] in Hl. cbn [fold_left map filter].
    unfold gather_entry at 2.
    rewrite read_uint32_byte by (auto using byte_at_range).
    rewrite char_of_byte_eqb by (auto using byte_at_range; lia).
    rewrite <- Z.add_assoc.
    destruct (byte_at n_buf (tbs + (i + j)) =? tn).
    + assert (Ha : add i j = i + j)
        by (apply wrap_small, in_range_intro; lia).
      assert (Hn : add (Z.of_nat (List.length xs)) 1
                   = Z.of_nat (List.length (xs ++ [i + j]))).
      { rewrite length_app, Nat2Z.inj_add. cbn.
        apply wrap_small, in_range_intro. lia. }
      rewrite Ha, Hn, push_eq by (assumption || lia).
      rewrite IH.
      * now rewrite <- app_assoc.
      * apply Forall_app. split; [assumption|].
        constructor; [lia|constructor].
      * rewrite length_app. cbn. lia.
      * assumption.
    + now apply IH; [|lia|].
Qed.

Lemma gather_words :
  forall ws xs,
    nibbles xs -> (List.length xs + 4 * List.length ws <= 16)%nat ->
    Forall (fun i => 0 <= i /\ i + 4 <= N) ws ->
    fold_left (fun st i => gather_word tn n_buf tbs i st) ws
              (pack xs, Z.of_nat (List.length xs))
    = (pack (xs ++ filter (fun x => matches x)
                     (flat_map (fun i => map (Z.add i) [0; 1; 2; 3]) ws)),
       Z.of_nat (List.length (xs ++ filter (fun x => matches x)
                     (flat_map (fun i => map (Z.add i) [0; 1; 2; 3]) ws)))).
Proof.
  pose proof lane_bounds as HL.
  induction ws as [|i ws IH]; intros xs Hx Hl Hw.
  - cbn. now rewrite app_nil_r.
  - apply Forall_cons_iff in Hw as [[Hi1 Hi2] Hw].
    cbn [List.length] in Hl. cbn [fold_left flat_map].
    unfold gather_word at 2.
    assert (Hr : in_range (tbs + i))
      by (apply in_range_intro; unfold max_int in *; lia).
    rewrite (wrap_small _ Hr : add tbs i = tbs + i).
    rewrite gather_entries; try assumption.
    + rewrite IH.
      * now rewrite filter_app, app_assoc.
      * apply Forall_app. split; [assumption|].
        apply Forall_forall. intros x Hin.
        apply filter_In in Hin as [Hin _]. cbn in Hin. lia.
      * rewrite length_app.
        pose proof (filter_length_le (fun x => matches x)
                      (map (Z.add i) [0; 1; 2; 3])) as Hf.
        cbn [List.length map] in Hf. cbn [map]. lia.
      * assumption.
    + cbn. lia.
    + repeat constructor; lia.
Qed.

Lemma gather_spec :
  gather N n_buf tid
  = (pack (filter (fun x => matches x) (map Z.of_nat (seq 0 (Z.to_nat N)))),
     Z.of_nat (List.length (filter (fun x => matches x)
                              (map Z.of_nat (seq 0 (Z.to_nat N)))))).
Proof.
  pose proof lane_bounds as HL.
  assert (Htid : 0 <= tid <= max_int) by lia.
  unfold gather.
  rewrite N_pow, this_n_eq, this_block_start_eq by lia. rewrite <- N_pow.
  change (0, 0) with (pack [], Z.of_nat (@List.length Z [])).
  assert (Hw : exists ws,
             Kernel.stride_loop (Z.to_nat N) 0 N 4 = ws /\
             Forall (fun i => 0 <= i /\ i + 4 <= N) ws /\
             (4 * List.length ws <= 16)%nat /\
             flat_map (fun i => map (Z.add i) [0; 1; 2; 3]) ws
             = map Z.of_nat (seq 0 (Z.to_nat N))).
  { destruct N_cases as [E | [E | E]]; rewrite E;
      [exists [0] | exists [0; 4] | exists [0; 4; 8; 12]];
      (split; [reflexivity|]); (split; [repeat constructor; lia|]);
      (split; [cbn; lia|reflexivity]). }
  destruct Hw as (ws & -> & Hws & Hlen & <-).
  rewrite gather_words; [reflexivity|constructor|cbn [List.length]; lia|assumption].
Qed.

Lemma length_set_nth (v : Z) (l : list Z) :
  forall n, List.length (set_nth n v l) = List.length l.
Proof.
  induction l as [|x l IH]; intros [|n]; cbn; try reflexivity.
  now rewrite IH.
Qed.

Lemma nth_set_nth (v d : Z) (l : list Z) :
  forall n m,
    (n < List.length l)%nat ->
    nth m (set_nth n v l) d = if (m =? n)%nat then v else nth m l d.
Proof.
  induction l as [|x l IH]; intros [|n] [|m] Hn; cbn in *;
    try reflexivity; try lia.
  apply IH. lia.
Qed.

Lemma byte_at_set_byte (buf : list Z) (i v q : Z) :
  0 <= i < Z.of_nat (List.length buf) -> 0 <= q ->
  byte_at (set_byte buf i v) q = if q =? i then v else byte_at buf q.
Proof.
  intros Hi Hq. unfold byte_at, set_byte.
  rewrite nth_set_nth by lia.
  destruct (Nat.eqb_spec (Z.to_nat q) (Z.to_nat i)), (Z.eqb_spec q i);
    reflexivity || lia.
Qed.

Lemma pop_loop_spec :
  forall ms buf srcs,
    Forall (fun x => 0 <= x < N) ms -> NoDup ms ->
    tbs + N <= Z.of_nat (List.length buf) <= max_int ->
    (forall x, In x ms -> byte_at buf (tbs + x) = tn) ->
    exists buf',
      pop_loop (List.length ms) tbs tn (pack ms) buf srcs
      = Some (buf', srcs ++ map (Z.add tbs) (rev ms)) /\
      List.length buf' = List.length buf /\
      forall q, 0 <= q ->
        (In q (map (Z.add tbs) ms) -> byte_at buf' q = 0) /\
        (~ In q (map (Z.add tbs) ms) -> byte_at buf' q = byte_at buf q).
Proof.
  pose proof lane_bounds as HL.
  induction ms as [|x ms IH] using rev_ind; intros buf srcs Hx Hnd Hlen Hm.
  - exists buf. cbn. rewrite app_nil_r. repeat split; tauto.
  - apply Forall_app in Hx as [Hx Hx1]. apply Forall_inv in Hx1.
    apply NoDup_remove in Hnd as [Hnd Hnotin]. rewrite app_nil_r in *.
    rewrite length_app, Nat.add_1_r. cbn [pop_loop].
    destruct (pop_eq ms x ltac:(lia)) as [-> ->].
    assert (Hs : wrap (wrap64 (Z.lor tbs x)) = tbs + x).
    { rewrite N_pow at 1. rewrite Z.mul_comm, lor_shifted_small by lia.
      rewrite <- N_pow, Z.mul_comm. unfold wrap64.
      rewrite Z.mod_small by (unfold max_int in *; lia).
      apply wrap_small, in_range_intro. unfold max_int in *. lia. }
    rewrite Hs, (Hm x) by (apply in_or_app; right; now left).
    rewrite char_of_byte_eqb, Z.eqb_refl by lia.
    destruct (IH (set_byte buf (tbs + x) 0) (srcs ++ [tbs + x]))
      as (buf' & Hpop & Hl & Hq); try assumption.
    + unfold set_byte. now rewrite length_set_nth.
    + intros y Hy.
      pose proof (proj1 (Forall_forall _ _) Hx y Hy) as Hyr. cbv beta in Hyr.
      rewrite byte_at_set_byte by lia.
      destruct (Z.eqb_spec (tbs + y) (tbs + x)) as [E|_].
      * assert (y = x) by lia. subst y. contradiction.
      * apply Hm, in_or_app. now left.
    + exists buf'. split; [|split].
      * rewrite Hpop, rev_app_distr. cbn. now rewrite <- app_assoc.
      * rewrite Hl. unfold set_byte. apply length_set_nth.
      * intros q Hq0. destruct (Hq q Hq0) as [Hin Hout].
        rewrite map_app, in_app_iff. cbn [map In]. split.
        -- intros [Hi | [E | []]]; [now apply Hin|].
           destruct (in_dec Z.eq_dec q (map (Z.add tbs) ms)) as [Hi|Hn];
             [now apply Hin|].
           rewrite Hout, byte_at_set_byte by (assumption || lia).
           subst q. now rewrite Z.eqb_refl.
        -- intros Hn. rewrite Hout by tauto.
           rewrite byte_at_set_byte by lia.
           destruct (Z.eqb_spec q (tbs + x)); [|reflexivity].
           exfalso. apply Hn. right. left. lia.
Qed.

Lemma NoDup_map_of_nat (l : list nat) : NoDup l -> NoDup (map Z.of_nat l).
Proof.
  induction 1 as [|x l Hx Hl IH]; cbn; constructor; [|assumption].
  intros Hin. apply in_map_iff in Hin as (y & Hy & Hin).
  apply Nat2Z.inj in Hy. now subst y.
Qed.

Lemma matches_nibbles :
  Forall (fun x => 0 <= x < N)
         (filter (fun x => matches x) (map Z.of_nat (seq 0 (Z.to_nat N)))).
Proof.
  apply Forall_forall. intros x Hx.
  apply filter_In in Hx as [Hx _].
  apply in_map_iff in Hx as (n & <- & Hn). apply in_seq in Hn. lia.
Qed.

Lemma matches_NoDup :
  NoDup (filter (fun x => matches x) (map Z.of_nat (seq 0 (Z.to_nat N)))).
Proof. apply NoDup_filter, NoDup_map_of_nat, seq_NoDup. Qed.

Lemma In_sources_of (q : Z) :
  In q (sources_of N n_buf tid) <->
  tbs <= q < tbs + N /\ byte_at n_buf q = tn.
Proof.
  unfold sources_of. rewrite in_map_iff. split.
  - intros (x & <- & Hx). apply in_rev, filter_In in Hx as [Hx Hm].
    apply in_map_iff in Hx as (n & <- & Hn). apply in_seq in Hn.
    apply Z.eqb_eq in Hm. lia.
  - intros [Hq Hb]. exists (q - tbs). split; [lia|].
    apply in_rev. rewrite rev_involutive. apply filter_In. split.
    + apply in_map_iff. exists (Z.to_nat (q - tbs)). split; [lia|].
      apply in_seq. lia.
    + apply Z.eqb_eq. rewrite <- Hb. f_equal. lia.
Qed.

Lemma sources_of_NoDup : NoDup (sources_of N n_buf tid).
Proof.
  unfold sources_of.
  assert (Hinj : forall l, NoDup l -> NoDup (map (fun x => tbs + x) l)).
  { induction 1 as [|x l Hx Hl IH]; cbn; constructor; [|assumption].
    intros Hin. apply in_map_iff in Hin as (y & Hy & Hin).
    assert (y = x) by lia. now subst y. }
  apply Hinj, NoDup_rev, matches_NoDup.
Qed.

Lemma consume_spec (buf : list Z) :
  List.length buf = List.length n_buf ->
  (forall q, In q (sources_of N n_buf tid) -> byte_at buf q = byte_at n_buf q) ->
  exists buf',
    consume N tid (gather N n_buf tid) buf
    = Some (buf', sources_of N n_buf tid) /\
    List.length buf' = List.length buf /\
    forall q, 0 <= q ->
      (In q (sources_of N n_buf tid) -> byte_at buf' q = 0) /\
      (~ In q (sources_of N n_buf tid) -> byte_at buf' q = byte_at buf q).
Proof.
  intros Hlen Hsame. pose proof lane_bounds as HL.
  rewrite gather_spec. unfold consume. cbn [fst snd]. rewrite Nat2Z.id.
  rewrite N_pow, this_n_eq, this_block_start_eq by lia. rewrite <- N_pow.
  destruct (pop_loop_spec _ buf [] matches_nibbles matches_NoDup)
    as (buf' & Hpop & Hl & Hq).
  - rewrite Hlen. lia.
  - intros x Hx. rewrite Hsame.
    + apply filter_In in Hx as [_ Hx]. now apply Z.eqb_eq in Hx.
    + unfold sources_of. apply in_map_iff. exists x. split; [reflexivity|].
      now apply in_rev; rewrite rev_involutive.
  - exists buf'. split; [exact Hpop|]. split; [exact Hl|].
    intros q Hq0. destruct (Hq q Hq0) as [Hin Hout].
    assert (Hiff : In q (sources_of N n_buf tid) <->
                   In q (map (Z.add tbs)
                          (filter (fun x => matches x)
                                  (map Z.of_nat (seq 0 (Z.to_nat N)))))).
    { unfold sources_of. rewrite !in_map_iff.
      split; intros (x & E & Hx); exists x; (split; [exact E|]).
      - now apply in_rev.
      - now apply in_rev; rewrite rev_involutive. }
    split; intros H; [apply Hin | apply Hout]; tauto.
Qed.

(** X9. Packing and unpacking of [src_indexes] in the backward kernel
    lose nothing.  For [N] in {4, 8, 16} and a thread [tid] whose block of
    [N] threads lies inside [n_buf]: the gather loop leaves in [num_src]
    the number of threads of the block whose [n] equals [tid % N] and in
    [src_indexes] their offsets, four bits each, within 64 bits; the
    consuming loop then visits exactly these threads, the last one first,
    each once, and its [assert] never fails; every visited [src_thread]
    is an index of the block, hence inside [n_buf], [output_grad_buf] and
    [input_buf]. *)
Theorem gather_consume_round_trip :
  exists buf',
    consume N tid (gather N n_buf tid) n_buf
    = Some (buf', sources_of N n_buf tid) /\
    snd (gather N n_buf tid) = Z.of_nat (List.length (sources_of N n_buf tid)) /\
    0 <= snd (gather N n_buf tid) <= N /\
    0 <= fst (gather N n_buf tid) < 2 ^ 64 /\
    NoDup (sources_of N n_buf tid) /\
    forall q,
      In q (sources_of N n_buf tid) <->
      N * (tid / N) <= q < N * (tid / N) + N /\
      byte_at n_buf q = tid mod N.
Proof.
  pose proof lane_bounds as HL.
  destruct (consume_spec n_buf eq_refl (fun q _ => eq_refl))
    as (buf' & Hc & _).
  exists buf'. split; [exact Hc|].
  pose proof (filter_length_le (fun x => matches x)
                (map Z.of_nat (seq 0 (Z.to_nat N)))) as Hle.
  rewrite length_map, length_seq in Hle.
  assert (Hnib : nibbles (filter (fun x => matches x)
                            (map Z.of_nat (seq 0 (Z.to_nat N))))).
  { eapply Forall_impl; [|exact matches_nibbles]. cbv beta. lia. }
  pose proof (pack_bound _ Hnib) as Hpb.
  assert (Hpow : 16 ^ Z.of_nat (List.length (filter (fun x => matches x)
                            (map Z.of_nat (seq 0 (Z.to_nat N)))))
                 <= 16 ^ 16) by (apply Z.pow_le_mono_r; lia).
  rewrite gather_spec. cbn [fst snd].
  split; [|split; [|split; [|split]]].
  - unfold sources_of. now rewrite length_map, length_rev.
  - lia.
  - change (2 ^ 64) with (16 ^ 16). lia.
  - exact sources_of_NoDup.
  - exact In_sources_of.
Qed.

End BackwardLane.

Section BackwardBlock.

Import Int32 Backward.

Variables (N k G : Z) (n_buf : list Z).
Hypothesis N_pow : N = 2 ^ k.
Hypothesis k_range : 2 <= k <= 4.
Hypothesis groups : Z.of_nat (List.length n_buf) = G * N.
Hypothesis buf_small : Z.of_nat (List.length n_buf) <= max_int.
Hypothesis entries : Forall (fun b => 0 <= b < N \/ b = 255) n_buf.

Local Abbreviation len := (Z.of_nat (List.length n_buf)).
Local Abbreviation consumed done q :=
  (exists tid, In tid done /\ In q (sources_of N n_buf tid)).
Local Abbreviation step :=
  (fun acc tid =>
     match acc with
     | None => None
     | Some (buf, outs) =>
         match consume N tid (gather N n_buf tid) buf with
         | None => None
         | Some (buf', sources) => Some (buf', outs ++ [(tid, sources)])
         end
     end).

Lemma N_range : 4 <= N <= 16.
Proof.
  assert (Hc : k = 2 \/ k = 3 \/ k = 4) by lia.
  destruct Hc as [E | [E | E]]; subst k; subst N; cbn; lia.
Qed.

Lemma entries_bytes : Forall (fun b => 0 <= b < 256) n_buf.
Proof.
  pose proof N_range. eapply Forall_impl; [|exact entries].
  cbv beta. intros b Hb. lia.
Qed.

Lemma group_inside (tid : Z) :
  0 <= tid < len -> N * (tid / N) + N <= len.
Proof.
  intros Ht. pose proof N_range as HN. rewrite groups in *.
  assert (tid / N < G) by (apply Z.div_lt_upper_bound; lia).
  nia.
Qed.

Lemma lane_sources (tid q : Z) :
  0 <= tid < len ->
  In q (sources_of N n_buf tid) <->
  N * (tid / N) <= q < N * (tid / N) + N /\ byte_at n_buf q = tid mod N.
Proof.
  intros Ht.
  apply (In_sources_of N k n_buf tid N_pow k_range); lia.
Qed.

Lemma lane_of_source (tid q : Z) :
  0 <= tid < len ->
  In q (sources_of N n_buf tid) <->
  0 <= q < len /\ 0 <= byte_at n_buf q < N /\
  tid = N * (q / N) + byte_at n_buf q.
Proof.
  intros Ht. pose proof N_range as HN. rewrite lane_sources by assumption.
  pose proof (group_inside tid Ht) as Hg.
  assert (HNpos : 0 < N) by lia.
  pose proof (Z.div_pos tid N ltac:(lia) HNpos).
  pose proof (Z.mod_pos_bound tid N HNpos).
  pose proof (Z.div_mod tid N ltac:(lia)) as Hdm.
  split.
  - intros [Hq Hb].
    assert (Hd : q / N = tid / N).
    { symmetry. apply (Z.div_unique q N (tid / N) (q - N * (tid / N))); lia. }
    rewrite Hd, Hb. lia.
  - intros (Hq & Hb & E).
    assert (Hd : tid / N = q / N).
    { symmetry.
      apply (Z.div_unique tid N (q / N) (byte_at n_buf q)); lia. }
    assert (Hm : tid mod N = byte_at n_buf q).
    { symmetry.
      apply (Z.mod_unique tid N (q / N) (byte_at n_buf q)); lia. }
    rewrite Hd, Hm. split; [|reflexivity].
    pose proof (Z.mod_pos_bound q N HNpos).
    pose proof (Z.div_mod q N ltac:(lia)). lia.
Qed.

Lemma route_block_prefix :
  forall tids done buf outs,
    NoDup (done ++ tids) ->
    Forall (fun tid => 0 <= tid < len) (done ++ tids) ->
    List.length buf = List.length n_buf ->
    (forall q, 0 <= q ->
       (consumed done q -> byte_at buf q = 0) /\
       (~ consumed done q -> byte_at buf q = byte_at n_buf q)) ->
    exists buf',
      fold_left step tids (Some (buf, outs))
      = Some (buf', outs ++ map (fun tid => (tid, sources_of N n_buf tid))
                                tids) /\
      List.length buf' = List.length n_buf /\
      forall q, 0 <= q ->
        (consumed (done ++ tids) q -> byte_at buf' q = 0) /\
        (~ consumed (done ++ tids) q -> byte_at buf' q = byte_at n_buf q).
Proof.
  induction tids as [|tid tids IH]; intros done buf outs Hnd Hr Hlen Hinv.
  - exists buf. cbn. rewrite !app_nil_r. auto.
  - assert (Ht : 0 <= tid < len).
    { apply (proj1 (Forall_forall _ _) Hr), in_or_app. right. now left. }
    assert (Hnew : ~ In tid done).
    { apply NoDup_remove_2 in Hnd. intros Hin. apply Hnd, in_or_app. now left. }
    assert (Hdone : forall t, In t done -> 0 <= t < len).
    { intros t Hin. apply (proj1 (Forall_forall _ _) Hr), in_or_app.
      now left. }
    assert (Hfresh : forall q, In q (sources_of N n_buf tid) ->
                               ~ consumed done q).
    { intros q Hq (t & Hin & Hqt).
      apply lane_of_source in Hq; [|assumption].
      apply lane_of_source in Hqt; [|now apply Hdone].
      assert (t = tid) by lia. subst t. contradiction. }
    destruct (consume_spec N k n_buf tid N_pow k_range (proj1 Ht)
                (group_inside tid Ht) buf_small entries_bytes buf Hlen)
      as (buf1 & Hc & Hl1 & Hq1).
    { intros q Hq.
      assert (0 <= q) by (apply lane_of_source in Hq; [lia|assumption]).
      now apply Hinv, Hfresh. }
    cbn [fold_left]. rewrite Hc.
    destruct (IH (done ++ [tid]) buf1 (outs ++ [(tid, sources_of N n_buf tid)]))
      as (buf' & Hf & Hl & Hq).
    + now rewrite <- app_assoc.
    + now rewrite <- app_assoc.
    + congruence.
    + intros q Hq0. destruct (Hq1 q Hq0) as [Hin Hout].
      destruct (Hinv q Hq0) as [Hi0 Hi1].
      destruct (in_dec Z.eq_dec q (sources_of N n_buf tid)) as [Hs|Hs].
      * split; [intros _; now apply Hin|].
        intros Hn. exfalso. apply Hn. exists tid. split; [|assumption].
        apply in_or_app. right. now left.
      * rewrite (Hout Hs). split.
        -- intros (t & Ht1 & Ht2). apply Hi0. exists t. split; [|assumption].
           apply in_app_or in Ht1 as [Ht1 | [E | []]]; [assumption|].
           subst t. contradiction.
        -- intros Hn. apply Hi1. intros (t & Ht1 & Ht2). apply Hn.
           exists t. split; [|assumption]. apply in_or_app. now left.
    + exists buf'. split; [|split; [assumption|]].
      * rewrite Hf. cbn [map]. now rewrite <- app_assoc.
      * intros q Hq0. rewrite <- app_assoc in Hq. exact (Hq q Hq0).
Qed.

(** X10. Routing of the gradients in one thread block of the backward
    kernel.  Let [n_buf] hold, for every thread, an interval index in
    [0, N) or the padding value 255, with [N] in {4, 8, 16} dividing the
    number of threads.  In whatever order the threads are taken, no
    [assert] of the consuming loop fails; thread [tid] accumulates the
    sources [q] of its own block of [N] threads with [n_buf[q] == tid % N]
    and no others, so that the products of every thread with an interval
    index are added exactly once, by the thread
    [N * (q / N) + n_buf[q]], and those of a padding thread are added
    nowhere; afterwards [n_buf] holds 0 or 255 everywhere, which is the
    final [assert] of every thread. *)
Theorem route_block_exactly_once (tids : list Z) :
  NoDup tids ->
  (forall tid, In tid tids <-> 0 <= tid < len) ->
  exists buf',
    route_block N n_buf tids
    = Some (buf', map (fun tid => (tid, sources_of N n_buf tid)) tids) /\
    (forall tid, 0 <= tid < len ->
       NoDup (sources_of N n_buf tid) /\
       forall q,
         In q (sources_of N n_buf tid) <->
         0 <= q < len /\ 0 <= byte_at n_buf q < N /\
         tid = N * (q / N) + byte_at n_buf q) /\
    (forall q, 0 <= q < len -> 0 <= byte_at n_buf q < N ->
       0 <= N * (q / N) + byte_at n_buf q < len) /\
    (forall tid, 0 <= tid < len -> final_assert buf' tid = true).
Proof.
  intros Hnd Hall. pose proof N_range as HN.
  assert (Hr : Forall (fun tid => 0 <= tid < len) ([] ++ tids)).
  { apply Forall_forall. intros tid Hin. now apply Hall. }
  destruct (route_block_prefix tids [] n_buf [] Hnd Hr eq_refl)
    as (buf' & Hf & Hl & Hq).
  { intros q _. split; [intros (t & [] & _)|reflexivity]. }
  assert (Hlane : forall q, 0 <= q < len -> 0 <= byte_at n_buf q < N ->
                            0 <= N * (q / N) + byte_at n_buf q < len).
  { intros q Hq0 Hb. pose proof (group_inside q Hq0).
    pose proof (Z.div_pos q N ltac:(lia) ltac:(lia)). nia. }
  exists buf'. split; [exact Hf|]. split; [|split; [exact Hlane|]].
  - intros tid Ht. split.
    + apply (sources_of_NoDup N k n_buf tid k_range).
    + intros q. now apply lane_of_source.
  - intros q Hq0. destruct (Hq q ltac:(lia)) as [Hin Hout]. cbn [app] in *.
    assert (He : 0 <= byte_at n_buf q < N \/ byte_at n_buf q = 255).
    { apply (proj1 (Forall_forall _ _) entries). unfold byte_at.
      apply nth_In. lia. }
    unfold final_assert. destruct He as [Hb | Hb].
    + rewrite Hin; [reflexivity|].
      exists (N * (q / N) + byte_at n_buf q). split.
      * now apply Hall, Hlane.
      * apply lane_of_source; [now apply Hlane|]. lia.
    + rewrite Hout.
      * rewrite Hb. reflexivity.
      * intros (t & Ht & Hs). apply lane_of_source in Hs; [lia|].
        now apply Hall.
Qed.

End BackwardBlock.

Section BackwardRoutingWitnesses.

Import Int32 Backward.

Lemma gather_consume_round_trip_witness :
  exists buf',
    consume 4 1 (gather 4 [1; 0; 255; 1; 3; 3; 0; 2] 1)
            [1; 0; 255; 1; 3; 3; 0; 2]
    = Some (buf', [3; 0]).
Proof.
  destruct (gather_consume_round_trip 4 2 [1; 0; 255; 1; 3; 3; 0; 2] 1
              eq_refl ltac:(lia) ltac:(lia)
              ltac:(vm_compute; discriminate)
              ltac:(vm_compute; discriminate)
              ltac:(repeat constructor; lia))
    as (buf' & H & _).
  exists buf'. exact H.
Defined.

Lemma route_block_exactly_once_witness :
  exists buf',
    route_block 4 [1; 0; 255; 1; 3; 3; 0; 2] [7; 6; 5; 4; 3; 2; 1; 0]
    = Some (buf', [(7, [5; 4]); (6, [7]); (5, []); (4, [6]);
                   (3, []); (2, []); (1, [3; 0]); (0, [1])]).
Proof.
  destruct (route_block_exactly_once 4 2 2 [1; 0; 255; 1; 3; 3; 0; 2]
              eq_refl ltac:(lia) eq_refl
              ltac:(vm_compute; discriminate)
              ltac:(repeat constructor; lia)
              [7; 6; 5; 4; 3; 2; 1; 0]
              ltac:(repeat constructor; cbn; lia)
              ltac:(intros tid; cbn; lia))
    as (buf' & H & _).
  exists buf'. exact H.
Defined.

End BackwardRoutingWitnesses.

(** ** Arithmetic on [threadIdx.x] *)

Section UnsignedFacts.

Import Int32.

Lemma to_unsigned_small (z : Z) : 0 <= z <= max_int -> to_unsigned z = z.
Proof.
  intros H. unfold to_unsigned, modulus. apply Z.mod_small.
  unfold max_int in H. lia.
Qed.

Lemma ultb_small (a b : Z) :
  0 <= a <= max_int -> 0 <= b <= max_int -> ultb a b = (a <? b).
Proof. intros Ha Hb. unfold ultb. now rewrite !to_unsigned_small. Qed.

End UnsignedFacts.

(** ** The loops over the elements of the batch *)

Section ElementLoops.

Import Int32 UInt32 Kernel Pointwise.

Variables THREADS_PER_BLOCK images_per_thread_block T_inc B T gridDim_y : Z.

Hypothesis images_pos : 1 <= images_per_thread_block.
Hypothesis T_inc_pos : 1 <= T_inc.
Hypothesis threads_split : THREADS_PER_BLOCK = images_per_thread_block * T_inc.
Hypothesis image_fits : T <= T_inc \/ images_per_thread_block = 1.
Hypothesis grid_pos : 1 <= gridDim_y.
Hypothesis B_nonneg : 0 <= B.
Hypothesis T_nonneg : 0 <= T.
Hypothesis b_small : B + gridDim_y * images_per_thread_block <= max_int.
Hypothesis t_small : T + THREADS_PER_BLOCK <= max_int.

Local Abbreviation ipb := images_per_thread_block.
Local Abbreviation TPB := THREADS_PER_BLOCK.

Lemma threads_bounds : 1 <= T_inc <= TPB /\ 1 <= ipb <= TPB /\ TPB <= max_int.
Proof. rewrite threads_split in *. nia. Qed.

Lemma T_inc_eq : div TPB ipb = T_inc.
Proof.
  pose proof threads_bounds as HB. unfold div.
  rewrite Z.quot_div_nonneg by lia.
  rewrite threads_split, Z.mul_comm, Z.div_mul by lia.
  apply wrap_small, in_range_intro. unfold max_int in *. lia.
Qed.

Lemma b_offset_eq (tid : Z) :
  0 <= tid < TPB ->
  udiv tid T_inc = tid / T_inc /\ 0 <= tid / T_inc < ipb.
Proof.
  intros Ht. pose proof threads_bounds as HB. unfold udiv.
  rewrite !to_unsigned_small by lia.
  assert (0 <= tid / T_inc) by (apply Z.div_pos; lia).
  assert (tid / T_inc < ipb)
    by (apply Z.div_lt_upper_bound; [lia|]; rewrite Z.mul_comm; lia).
  split; [|lia].
  apply wrap_small, in_range_intro. unfold max_int in *. lia.
Qed.

Lemma t_start_eq (tid : Z) :
  0 <= tid < TPB -> urem tid T_inc = tid mod T_inc.
Proof.
  intros Ht. pose proof threads_bounds as HB. unfold urem.
  rewrite !to_unsigned_small by lia.
  pose proof (Z.mod_pos_bound tid T_inc ltac:(lia)).
  apply wrap_small, in_range_intro. unfold max_int in *. lia.
Qed.

Lemma thread_of_element (tid o r : Z) :
  0 <= tid -> 0 <= r < T_inc ->
  tid = o * T_inc + r <-> tid / T_inc = o /\ tid mod T_inc = r.
Proof.
  intros Ht Hr. split.
  - intros E. split.
    + symmetry. apply (Z.div_unique tid T_inc o r); lia.
    + symmetry. apply (Z.mod_unique tid T_inc o r); lia.
  - intros [<- <-]. pose proof (Z.div_mod tid T_inc ltac:(lia)). lia.
Qed.

Lemma image_loop_In (blockIdx_y tid b : Z) :
  0 <= blockIdx_y < gridDim_y -> 0 <= tid < TPB ->
  In b (image_loop TPB ipb B gridDim_y blockIdx_y tid) <->
  0 <= b < B /\ blockIdx_y = (b / ipb) mod gridDim_y /\
  tid / T_inc = b mod ipb.
Proof.
  intros Hy Ht. pose proof threads_bounds as HB.
  destruct (b_offset_eq tid Ht) as [Ho Hor].
  unfold image_loop. cbv zeta. rewrite T_inc_eq, Ho.
  set (o := tid / T_inc) in *.
  assert (Hyi : 0 <= blockIdx_y * ipb <= gridDim_y * ipb - ipb) by nia.
  assert (Hm : mul blockIdx_y ipb = blockIdx_y * ipb)
    by (apply wrap_small, in_range_intro; unfold max_int in *; lia).
  assert (Ha : add (blockIdx_y * ipb) o = blockIdx_y * ipb + o)
    by (apply wrap_small, in_range_intro; unfold max_int in *; lia).
  assert (Hg : mul gridDim_y ipb = gridDim_y * ipb)
    by (apply wrap_small, in_range_intro; unfold max_int in *; nia).
  rewrite Hm, Ha, Hg.
  rewrite stride_loop_In by (try lia; nia).
  split.
  - intros (j & Hj & E & Hlt).
    assert (Eb : b = ipb * (blockIdx_y + j * gridDim_y) + o) by lia.
    assert (Hd : b / ipb = blockIdx_y + j * gridDim_y).
    { symmetry. apply (Z.div_unique b ipb _ o); lia. }
    assert (Hr : b mod ipb = o).
    { symmetry. apply (Z.mod_unique b ipb (blockIdx_y + j * gridDim_y) o);
        lia. }
    split; [nia|]. split; [|lia].
    rewrite Hd. apply (Z.mod_unique _ gridDim_y j blockIdx_y); lia.
  - intros (Hb & Ey & Eo).
    exists (b / ipb / gridDim_y).
    assert (0 <= b / ipb) by (apply Z.div_pos; lia).
    pose proof (Z.div_mod b ipb ltac:(lia)) as D1.
    pose proof (Z.div_mod (b / ipb) gridDim_y ltac:(lia)) as D2.
    split; [apply Z.div_pos; lia|]. split; [|lia].
    rewrite <- Ey in D2. rewrite <- Eo in D1.
    rewrite D1 at 1. rewrite D2 at 1. ring.
Qed.

Lemma image_loop_NoDup (blockIdx_y tid : Z) :
  0 <= blockIdx_y < gridDim_y -> 0 <= tid < TPB ->
  NoDup (image_loop TPB ipb B gridDim_y blockIdx_y tid).
Proof.
  intros Hy Ht. pose proof threads_bounds as HB.
  destruct (b_offset_eq tid Ht) as [Ho Hor].
  unfold image_loop. cbv zeta. rewrite T_inc_eq, Ho.
  set (o := tid / T_inc) in *.
  assert (Hyi : 0 <= blockIdx_y * ipb <= gridDim_y * ipb - ipb) by nia.
  assert (Hm : mul blockIdx_y ipb = blockIdx_y * ipb)
    by (apply wrap_small, in_range_intro; unfold max_int in *; lia).
  assert (Ha : add (blockIdx_y * ipb) o = blockIdx_y * ipb + o)
    by (apply wrap_small, in_range_intro; unfold max_int in *; lia).
  assert (Hg : mul gridDim_y ipb = gridDim_y * ipb)
    by (apply wrap_small, in_range_intro; unfold max_int in *; nia).
  rewrite Hm, Ha, Hg.
  apply stride_loop_NoDup; try lia; nia.
Qed.

Lemma forward_time_In (tid t : Z) :
  0 <= tid < TPB ->
  In t (stride_loop (Z.to_nat T) (urem tid T_inc) T TPB) <->
  0 <= t < T /\ tid mod T_inc = t mod T_inc.
Proof.
  intros Ht. pose proof threads_bounds as HB.
  rewrite t_start_eq by assumption.
  pose proof (Z.mod_pos_bound tid T_inc ltac:(lia)) as Hr.
  set (r := tid mod T_inc) in *.
  rewrite stride_loop_In by lia.
  split.
  - intros (j & Hj & E & Hlt). split; [nia|].
    apply (Z.mod_unique t T_inc (j * ipb) r); [lia|].
    rewrite E, threads_split. ring.
  - intros (Hb & E).
    pose proof (Z.div_mod t T_inc ltac:(lia)) as D.
    destruct image_fits as [Hfit | H1].
    + exists 0. rewrite E, Z.mod_small by lia. lia.
    + exists (t / T_inc). split; [apply Z.div_pos; lia|].
      split; [|lia]. rewrite threads_split, H1, E. lia.
Qed.

Lemma NoDup_map_pair (b : Z) (l : list Z) :
  NoDup l -> NoDup (map (fun t => (b, t)) l).
Proof.
  induction 1 as [|x l Hx Hl IH]; cbn; constructor; [|assumption].
  intros Hin. apply in_map_iff in Hin as (y & Hy & Hin).
  injection Hy as ->. contradiction.
Qed.

Lemma forward_thread_NoDup (blockIdx_y tid : Z) :
  0 <= blockIdx_y < gridDim_y -> 0 <= tid < TPB ->
  NoDup (forward_thread TPB ipb B T gridDim_y blockIdx_y tid).
Proof.
  intros Hy Ht. pose proof threads_bounds as HB.
  unfold forward_thread. cbv zeta. rewrite T_inc_eq.
  apply NoDup_flat_map_disjoint.
  - now apply image_loop_NoDup.
  - intros b _. apply NoDup_map_pair.
    rewrite t_start_eq by assumption.
    pose proof (Z.mod_pos_bound tid T_inc ltac:(lia)).
    apply stride_loop_NoDup; lia.
  - intros x y [b t] _ _ Hx Hy'.
    apply in_map_iff in Hx as (? & E1 & _).
    apply in_map_iff in Hy' as (? & E2 & _). congruence.
Qed.

Lemma forward_thread_In (blockIdx_y tid b t : Z) :
  0 <= blockIdx_y < gridDim_y -> 0 <= tid < TPB ->
  In (b, t) (forward_thread TPB ipb B T gridDim_y blockIdx_y tid) <->
  0 <= b < B /\ 0 <= t < T /\
  blockIdx_y = (b / ipb) mod gridDim_y /\
  tid = (b mod ipb) * T_inc + t mod T_inc.
Proof.
  intros Hy Ht. pose proof threads_bounds as HB.
  unfold forward_thread. cbv zeta. rewrite T_inc_eq.
  rewrite in_flat_map. split.
  - intros (b' & Hb' & Hin). apply in_map_iff in Hin as (t' & E & Ht').
    injection E as -> ->.
    apply image_loop_In in Hb'; [|assumption..].
    apply forward_time_In in Ht'; [|assumption].
    destruct Hb' as (Hb & Ey & Eo), Ht' as (Htr & Et).
    repeat (split; [assumption|]).
    pose proof (Z.mod_pos_bound t T_inc ltac:(lia)).
    apply thread_of_element; [lia|lia|]. now split.
  - intros (Hb & Htr & Ey & Et).
    pose proof (Z.mod_pos_bound t T_inc ltac:(lia)).
    apply thread_of_element in Et as [Eo Em]; [|lia|lia].
    exists b. split.
    + apply image_loop_In; auto.
    + apply in_map_iff. exists t. split; [reflexivity|].
      apply forward_time_In; auto.
Qed.

Lemma writer_in_grid (b t : Z) :
  0 <= b < B -> 0 <= t < T ->
  0 <= (b / ipb) mod gridDim_y < gridDim_y /\
  0 <= (b mod ipb) * T_inc + t mod T_inc < TPB.
Proof.
  intros Hb Htr.
  pose proof (Z.mod_pos_bound (b / ipb) gridDim_y ltac:(lia)).
  pose proof (Z.mod_pos_bound b ipb ltac:(lia)).
  pose proof (Z.mod_pos_bound t T_inc ltac:(lia)).
  split; [lia|]. rewrite threads_split. nia.
Qed.

(** X11. The forward kernel stores every element of the output exactly
    once.  Let [THREADS_PER_BLOCK = images_per_thread_block * T_inc], with
    an image that fits its threads ([T <= T_inc]) or one image per block.
    A thread stores no element twice; it stores [output[b][c][t]] exactly
    for the elements inside the tensor ([0 <= b < B], [0 <= t < T]) with
    [blockIdx.y == (b / images_per_thread_block) % gridDim.y] and
    [threadIdx.x == (b % images_per_thread_block) * T_inc + t % T_inc];
    and every element inside the tensor has this block and this thread in
    the grid. *)
Theorem forward_output_written_once (blockIdx_y tid : Z) :
  0 <= blockIdx_y < gridDim_y -> 0 <= tid < TPB ->
  NoDup (forward_thread TPB ipb B T gridDim_y blockIdx_y tid) /\
  (forall b t,
     In (b, t) (forward_thread TPB ipb B T gridDim_y blockIdx_y tid) <->
     0 <= b < B /\ 0 <= t < T /\
     blockIdx_y = (b / ipb) mod gridDim_y /\
     tid = (b mod ipb) * T_inc + t mod T_inc) /\
  (forall b t, 0 <= b < B -> 0 <= t < T ->
     0 <= (b / ipb) mod gridDim_y < gridDim_y /\
     0 <= (b mod ipb) * T_inc + t mod T_inc < TPB).
Proof.
  intros Hy Ht. split; [|split].
  - now apply forward_thread_NoDup.
  - intros b t. now apply forward_thread_In.
  - exact writer_in_grid.
Qed.

Lemma one_writer (cells : Z -> Z -> list (Z * Z)) :
  (forall blockIdx_y tid b t,
     0 <= blockIdx_y < gridDim_y -> 0 <= tid < TPB ->
     In (b, t) (cells blockIdx_y tid) <->
     0 <= b < B /\ 0 <= t < T /\
     blockIdx_y = (b / ipb) mod gridDim_y /\
     tid = (b mod ipb) * T_inc + t mod T_inc) ->
  forall b t, 0 <= b < B -> 0 <= t < T ->
    exists blockIdx_y tid,
      0 <= blockIdx_y < gridDim_y /\ 0 <= tid < TPB /\
      In (b, t) (cells blockIdx_y tid) /\
      forall blockIdx_y' tid',
        0 <= blockIdx_y' < gridDim_y -> 0 <= tid' < TPB ->
        In (b, t) (cells blockIdx_y' tid') ->
        blockIdx_y' = blockIdx_y /\ tid' = tid.
Proof.
  intros Hcells b t Hb Ht.
  destruct (writer_in_grid b t Hb Ht) as [Hy Htid].
  exists ((b / ipb) mod gridDim_y), ((b mod ipb) * T_inc + t mod T_inc).
  split; [exact Hy|]. split; [exact Htid|]. split.
  - apply Hcells; auto.
  - intros y' tid' Hy' Htid' Hin.
    apply Hcells in Hin; [|assumption..]. tauto.
Qed.

Lemma In_somes {A : Type} (a : A) (l : list (option A)) :
  In a (somes l) <-> In (Some a) l.
Proof.
  induction l as [|[x|] l IH]; cbn; [tauto| |].
  - rewrite IH. split; intros [E | H]; auto; left; congruence.
  - rewrite IH. split; [auto|]. intros [E | H]; [discriminate|assumption].
Qed.

Lemma NoDup_somes {A : Type} (l : list (option A)) :
  NoDup l -> NoDup (somes l).
Proof.
  induction 1 as [|[x|] l Hx Hl IH]; cbn; [constructor| |assumption].
  constructor; [|assumption]. now rewrite In_somes.
Qed.

Lemma somes_app {A : Type} (l1 l2 : list (option A)) :
  somes (l1 ++ l2) = somes l1 ++ somes l2.
Proof.
  induction l1 as [|[x|] l1 IH]; cbn; [reflexivity| |assumption].
  now rewrite IH.
Qed.

Lemma somes_flat_map {A X : Type} (f : X -> list (option A)) (l : list X) :
  somes (flat_map f l) = flat_map (fun x => somes (f x)) l.
Proof.
  induction l as [|x l IH]; cbn; [reflexivity|].
  now rewrite somes_app, IH.
Qed.

Lemma length_flat_map_map {X Y W : Type} (f : X -> Y -> W) (l : list Y) :
  forall xs, List.length (flat_map (fun x => map (f x) l) xs)
             = (List.length xs * List.length l)%nat.
Proof.
  induction xs as [|x xs IH]; cbn; [reflexivity|].
  now rewrite length_app, length_map, IH.
Qed.

Section PowerOfTwo.

Variable k : Z.
Hypothesis k_range : 0 <= k <= 30.
Hypothesis T_inc_pow : T_inc = 2 ^ k.

Lemma backward_time (tid j : Z) :
  0 <= tid < TPB -> 0 <= j -> j * TPB < T ->
  Backward.time_index T_inc tid (j * TPB) = tid mod T_inc + j * TPB.
Proof.
  intros Ht Hj Hlt. pose proof threads_bounds as HB.
  assert (E : j * TPB = j * ipb * T_inc) by (rewrite threads_split; ring).
  rewrite E, T_inc_pow.
  apply time_index_eq.
  - exact k_range.
  - lia.
  - nia.
  - rewrite <- T_inc_pow, <- E. lia.
Qed.

Lemma backward_round_In (tid b t : Z) :
  0 <= tid < TPB ->
  In (Some (b, t))
     (map (fun t_offset =>
             if Backward.time_index T_inc tid t_offset <? T
             then Some (b, Backward.time_index T_inc tid t_offset)
             else None)
          (stride_loop (Z.to_nat T) 0 T TPB)) <->
  0 <= t < T /\ tid mod T_inc = t mod T_inc.
Proof.
  intros Ht. pose proof threads_bounds as HB.
  pose proof (Z.mod_pos_bound tid T_inc ltac:(lia)) as Hr.
  rewrite in_map_iff. split.
  - intros (t_offset & E & Hin).
    apply stride_loop_In in Hin as (j & Hj & Eo & Hlt); try lia.
    rewrite Z.add_0_l in Eo. subst t_offset.
    rewrite backward_time in E by assumption.
    destruct (Z.ltb_spec (tid mod T_inc + j * TPB) T); [|discriminate].
    injection E as <-. split; [nia|].
    apply (Z.mod_unique _ T_inc (j * ipb) (tid mod T_inc)); [lia|].
    rewrite threads_split. ring.
  - intros (Hb & E).
    pose proof (Z.div_mod t T_inc ltac:(lia)) as D.
    assert (Hj : exists j, 0 <= j /\ j * TPB < T /\
                           t = tid mod T_inc + j * TPB).
    { destruct image_fits as [Hfit | H1].
      - exists 0. rewrite E, Z.mod_small by lia. lia.
      - exists (t / T_inc).
        assert (0 <= t / T_inc) by (apply Z.div_pos; lia).
        pose proof (Z.mod_pos_bound t T_inc ltac:(lia)).
        rewrite threads_split, H1, E. split; [lia|]. split; nia. }
    destruct Hj as (j & Hj & Hlt & Et).
    exists (j * TPB). split.
    + rewrite backward_time by assumption. rewrite <- Et.
      destruct (Z.ltb_spec t T); [reflexivity|lia].
    + apply stride_loop_In; try lia. exists j. lia.
Qed.

Lemma backward_round_NoDup (tid b : Z) :
  0 <= tid < TPB ->
  NoDup (somes
    (map (fun t_offset =>
             if Backward.time_index T_inc tid t_offset <? T
             then Some (b, Backward.time_index T_inc tid t_offset)
             else None)
          (stride_loop (Z.to_nat T) 0 T TPB))).
Proof.
  intros Ht. pose proof threads_bounds as HB.
  assert (Hnd : NoDup (stride_loop (Z.to_nat T) 0 T TPB))
    by (apply stride_loop_NoDup; lia).
  assert (Hall : forall x, In x (stride_loop (Z.to_nat T) 0 T TPB) ->
                           exists j, 0 <= j /\ x = j * TPB /\ x < T).
  { intros x Hx. apply stride_loop_In in Hx as (j & Hj & E & Hlt); try lia.
    exists j. lia. }
  induction Hnd as [|x l Hx Hl IH]; cbn; [constructor|].
  destruct (Hall x (or_introl eq_refl)) as (j & Hj & -> & Hlt).
  specialize (IH (fun y Hy => Hall y (or_intror Hy))).
  rewrite backward_time by assumption.
  destruct (Z.ltb_spec (tid mod T_inc + j * TPB) T); [|assumption].
  constructor; [|assumption].
  rewrite In_somes, in_map_iff. intros (y & E & Hy).
  destruct (Hall y (or_intror Hy)) as (j' & Hj' & -> & Hlt').
  rewrite backward_time in E by assumption.
  destruct (Z.ltb_spec (tid mod T_inc + j' * TPB) T); [|discriminate].
  injection E as E. assert (j' * TPB = j * TPB) by lia. congruence.
Qed.

Lemma backward_thread_NoDup (blockIdx_y tid : Z) :
  0 <= blockIdx_y < gridDim_y -> 0 <= tid < TPB ->
  NoDup (backward_thread TPB ipb B T gridDim_y blockIdx_y tid).
Proof.
  intros Hy Ht. pose proof threads_bounds as HB.
  unfold backward_thread, backward_rounds. cbv zeta. rewrite T_inc_eq.
  rewrite somes_flat_map. apply NoDup_flat_map_disjoint.
  - now apply image_loop_NoDup.
  - intros b _. now apply backward_round_NoDup.
  - intros x y [b t] _ _ Hx Hy'.
    apply In_somes, in_map_iff in Hx as (? & E1 & _).
    apply In_somes, in_map_iff in Hy' as (? & E2 & _).
    destruct (_ <? T); [|discriminate].
    destruct (_ <? T); [|discriminate]. congruence.
Qed.

Lemma backward_thread_In (blockIdx_y tid b t : Z) :
  0 <= blockIdx_y < gridDim_y -> 0 <= tid < TPB ->
  In (b, t) (backward_thread TPB ipb B T gridDim_y blockIdx_y tid) <->
  0 <= b < B /\ 0 <= t < T /\
  blockIdx_y = (b / ipb) mod gridDim_y /\
  tid = (b mod ipb) * T_inc + t mod T_inc.
Proof.
  intros Hy Ht. pose proof threads_bounds as HB.
  unfold backward_thread, backward_rounds. cbv zeta. rewrite T_inc_eq.
  rewrite In_somes, in_flat_map. split.
  - intros (b' & Hb' & Hin).
    assert (b' = b).
    { apply in_map_iff in Hin as (? & E & _).
      destruct (_ <? T); [|discriminate]. congruence. }
    subst b'. apply backward_round_In in Hin; [|assumption].
    apply image_loop_In in Hb'; [|assumption..].
    destruct Hb' as (Hb & Ey & Eo), Hin as (Htr & Et).
    repeat (split; [assumption|]).
    pose proof (Z.mod_pos_bound t T_inc ltac:(lia)).
    apply thread_of_element; [lia|lia|]. now split.
  - intros (Hb & Htr & Ey & Et).
    pose proof (Z.mod_pos_bound t T_inc ltac:(lia)).
    apply thread_of_element in Et as [Eo Em]; [|lia|lia].
    exists b. split.
    + apply image_loop_In; auto.
    + apply backward_round_In; auto.
Qed.

(** X12. The backward kernel stores [input_grad] at the elements at which
    the forward kernel stores [output], once each, when [T_inc] is a power
    of two: then [(threadIdx.x & (T_inc - 1)) | t_offset] is
    [threadIdx.x % T_inc + t_offset] at every [t_offset] of the loop.
    Threads with the same [threadIdx.x / T_inc] go through the same
    number of rounds. *)
Theorem backward_input_grad_written_once (blockIdx_y tid : Z) :
  0 <= blockIdx_y < gridDim_y -> 0 <= tid < TPB ->
  NoDup (backward_thread TPB ipb B T gridDim_y blockIdx_y tid) /\
  (forall b t,
     In (b, t) (backward_thread TPB ipb B T gridDim_y blockIdx_y tid) <->
     0 <= b < B /\ 0 <= t < T /\
     blockIdx_y = (b / ipb) mod gridDim_y /\
     tid = (b mod ipb) * T_inc + t mod T_inc) /\
  (forall tid', 0 <= tid' < TPB -> tid' / T_inc = tid / T_inc ->
     List.length (backward_rounds TPB ipb B T gridDim_y blockIdx_y tid')
     = List.length (backward_rounds TPB ipb B T gridDim_y blockIdx_y tid)).
Proof.
  intros Hy Ht. split; [|split].
  - now apply backward_thread_NoDup.
  - intros b t. now apply backward_thread_In.
  - intros tid' Ht' E.
    unfold backward_rounds. cbv zeta.
    rewrite !length_flat_map_map. f_equal.
    unfold image_loop. cbv zeta. rewrite T_inc_eq.
    destruct (b_offset_eq tid Ht) as [-> _].
    destruct (b_offset_eq tid' Ht') as [-> _]. now rewrite E.
Qed.

End PowerOfTwo.

End ElementLoops.

(** ** Shared memory of the two kernels *)

Section SharedFacts.

Import Int32 Kernel Shared.

Variable N : Z.
Hypothesis N_range : 0 <= N <= 2 ^ 30.

Local Abbreviation K := (N / 2).

Lemma K_eq : div N 2 = K /\ 0 <= K /\ 2 * K <= N.
Proof.
  unfold div. rewrite Z.quot_div_nonneg by lia.
  pose proof (Z.div_pos N 2 ltac:(lia) ltac:(lia)).
  pose proof (Z.mul_div_le N 2 ltac:(lia)).
  split; [|lia]. apply wrap_small, in_range_intro. lia.
Qed.

Lemma up_loop_In (i : Z) :
  In i (stride_loop (Z.to_nat K) 0 K 1) <-> 0 <= i < K.
Proof.
  destruct K_eq as (_ & HK & HK2).
  rewrite stride_loop_In by (unfold max_int; lia).
  split; [intros (j & Hj & -> & Hlt); lia|].
  intros Hi. exists i. lia.
Qed.

Lemma count_down_In (fuel : nat) :
  forall s i,
    -1 <= s <= 2 ^ 30 -> (Z.to_nat (s + 1) <= fuel)%nat ->
    In i (count_down fuel s) <-> 0 <= i <= s.
Proof.
  induction fuel as [|fuel IH]; intros s i Hs Hf; cbn [count_down].
  - cbn. lia.
  - destruct (Z.leb_spec 0 s); [|cbn; lia].
    assert (E : sub s 1 = s - 1)
      by (apply wrap_small, in_range_intro; lia).
    cbn [In]. rewrite E, IH by lia. lia.
Qed.

Lemma down_loop_In (i : Z) :
  In i (count_down (Z.to_nat K) (sub K 1)) <-> 0 <= i < K.
Proof.
  destruct K_eq as (_ & HK & HK2).
  assert (E : sub K 1 = K - 1) by (apply wrap_small, in_range_intro; lia).
  rewrite E, count_down_In by lia. lia.
Qed.

Lemma index_arith (i : Z) :
  0 <= i < K ->
  add K i = K + i /\ sub (sub K i) 1 = K - i - 1 /\
  forward_lower K i = K - 1 - i /\ backward_lower K i = K - i - 1.
Proof.
  intros Hi. destruct K_eq as (_ & HK & HK2).
  unfold forward_lower, backward_lower, add, sub.
  rewrite !(wrap_small (K - i)), !(wrap_small (K - 1))
    by (apply in_range_intro; lia).
  rewrite !wrap_small by (apply in_range_intro; lia). lia.
Qed.

Lemma sub_tid (tid : Z) : 0 <= tid <= N -> sub tid 1 = tid - 1.
Proof. intros H. apply wrap_small, in_range_intro. lia. Qed.

Lemma prologue_In (lower : Z -> Z -> Z) (tid : Z) (a : access) :
  In a (prologue lower N tid) <->
  (tid <= N /\ a = mkAccess Store params_buf (sub tid 1))
  \/ (tid = 0 /\
      (a = mkAccess Load params_buf (-1)
       \/ a = mkAccess Store params_buf (-2)
       \/ a = mkAccess Store params_buf (-3)
       \/ a = mkAccess Load params_buf (-2)
       \/ exists i, 0 <= i < K /\
                    (a = mkAccess Load params_buf (add K i)
                     \/ a = mkAccess Store y_vals (add K i))))
  \/ (tid = 64 /\
      (a = mkAccess Load params_buf (-2)
       \/ exists i, 0 <= i < K /\
                    (a = mkAccess Load params_buf (lower K i)
                     \/ a = mkAccess Store y_vals (sub (sub K i) 1))))
  \/ a = mkAccess Load params_buf (-3).
Proof.
  destruct K_eq as (EK & HK & HK2).
  unfold prologue. cbv zeta.
  rewrite (to_unsigned_small N) by (unfold max_int; lia).
  rewrite EK, !in_app_iff.
  assert (Hup : forall f g,
             In a (flat_map (fun i => [f i; g i])
                            (stride_loop (Z.to_nat K) 0 K 1)) <->
             exists i, 0 <= i < K /\ (a = f i \/ a = g i)).
  { intros f g. rewrite in_flat_map. split.
    - intros (i & Hi & Hin). apply up_loop_In in Hi. exists i.
      cbn in Hin. intuition congruence.
    - intros (i & Hi & Hin). exists i. rewrite up_loop_In. cbn.
      intuition congruence. }
  destruct (Z.leb_spec tid N), (Z.eqb_spec tid 0), (Z.eqb_spec tid 64);
    cbn [In]; rewrite ?Hup; try lia;
    (split; [intros H'|intros H']; intuition (try congruence; try lia)).
Qed.

Lemma epilogue_In (tid : Z) (a : access) :
  In a (epilogue N tid) <->
  (tid < N /\ (a = mkAccess Store params_grad_buf tid
               \/ a = mkAccess Store y_vals_grad_buf tid))
  \/ (tid = 0 /\
      (a = mkAccess Load params_buf (-2)
       \/ a = mkAccess Load params_grad_buf (-1)
       \/ a = mkAccess Store params_grad_buf (-1)
       \/ exists i, 0 <= i < K /\
                    (a = mkAccess Load y_vals_grad_buf (add K i)
                     \/ a = mkAccess Load params_grad_buf (add K i)
                     \/ a = mkAccess Store params_grad_buf (add K i)
                     \/ a = mkAccess Load params_buf (add K i))))
  \/ (tid = 64 /\
      (a = mkAccess Load params_buf (-2)
       \/ a = mkAccess Store params_grad_buf (-1)
       \/ exists i, 0 <= i < K /\
                    (a = mkAccess Load y_vals_grad_buf (sub (sub K i) 1)
                     \/ a = mkAccess Load params_grad_buf (sub (sub K i) 1)
                     \/ a = mkAccess Store params_grad_buf (sub (sub K i) 1)
                     \/ a = mkAccess Load params_buf (sub (sub K i) 1))))
  \/ (tid <= N /\ a = mkAccess Load params_grad_buf (sub tid 1)).
Proof.
  destruct K_eq as (EK & HK & HK2).
  unfold epilogue. cbv zeta.
  rewrite (to_unsigned_small N) by (unfold max_int; lia).
  rewrite EK, !in_app_iff.
  assert (Hdown : forall f g h e,
             In a (flat_map (fun i => [f i; g i; h i; e i])
                            (count_down (Z.to_nat K) (sub K 1))) <->
             exists i, 0 <= i < K /\
                       (a = f i \/ a = g i \/ a = h i \/ a = e i)).
  { intros f g h e. rewrite in_flat_map. split.
    - intros (i & Hi & Hin). apply down_loop_In in Hi. exists i.
      cbn in Hin. intuition congruence.
    - intros (i & Hi & Hin). exists i. rewrite down_loop_In. cbn.
      intuition congruence. }
  destruct (Z.ltb_spec tid N), (Z.leb_spec tid N), (Z.eqb_spec tid 0),
    (Z.eqb_spec tid 64);
    cbn [In]; rewrite ?in_app_iff; cbn [In]; rewrite ?Hdown; try lia;
    (split; [intros H'|intros H']; intuition (try congruence; try lia)).
Qed.

Ltac cell_bounds :=
  unfold in_bounds, place; cbn [fst snd acc_ptr acc_index]; lia.

(** X13. Shared memory stays inside its arrays.  Every access of the two
    kernels from the load of the parameters to the read of [inv_scale]
    falls inside the [2 * N + 3] scalars the host passes for
    [extern_buf].  The accesses of the backward kernel after the
    reductions stay inside [extern_buf], [input_buf] and
    [output_grad_buf] exactly when [N + 1 <= THREADS_PER_BLOCK]: with
    [THREADS_PER_BLOCK == N] thread [N - 1] stores
    [params_grad_buf[N - 1]], which is [input_buf[THREADS_PER_BLOCK]]. *)
Theorem shared_accesses_in_bounds (THREADS_PER_BLOCK : Z) :
  1 <= N <= THREADS_PER_BLOCK ->
  (forall lower tid a,
     lower = forward_lower \/ lower = backward_lower ->
     0 <= tid -> In a (prologue lower N tid) ->
     in_bounds THREADS_PER_BLOCK N (place N (acc_ptr a) (acc_index a))) /\
  ((forall tid a,
      0 <= tid < THREADS_PER_BLOCK -> In a (epilogue N tid) ->
      in_bounds THREADS_PER_BLOCK N (place N (acc_ptr a) (acc_index a)))
   <-> N + 1 <= THREADS_PER_BLOCK).
Proof.
  intros HN. destruct K_eq as (EK & HK & HK2). split; [|split].
  - intros lower tid a Hl Ht Hin. apply prologue_In in Hin.
    destruct Hin as [[Hle ->] | [[-> H] | [[-> H] | ->]]].
    + rewrite sub_tid by lia. cell_bounds.
    + destruct H as [-> | [-> | [-> | [-> | (i & Hi & H)]]]];
        try cell_bounds.
      destruct (index_arith i Hi) as (E1 & _).
      destruct H as [-> | ->]; rewrite E1; cell_bounds.
    + destruct H as [-> | (i & Hi & H)]; [cell_bounds|].
      destruct (index_arith i Hi) as (_ & E2 & E3 & E4).
      destruct H as [-> | ->]; [|rewrite E2; cell_bounds].
      destruct Hl as [-> | ->]; [rewrite E3|rewrite E4]; cell_bounds.
    + cell_bounds.
  - intros H.
    specialize (H (N - 1) (mkAccess Store params_grad_buf (N - 1))
                  ltac:(lia)).
    unfold in_bounds, place in H. cbn [fst snd acc_ptr acc_index] in H.
    cut (0 <= 1 + (N - 1) < THREADS_PER_BLOCK); [lia|]. apply H. apply epilogue_In. left. split; [lia|now left].
  - intros Hle tid a Ht Hin. apply epilogue_In in Hin.
    destruct Hin as [[Hlt H] | [[-> H] | [[-> H] | [Hlt ->]]]].
    + destruct H as [-> | ->]; cell_bounds.
    + destruct H as [-> | [-> | [-> | (i & Hi & H)]]]; try cell_bounds.
      destruct (index_arith i Hi) as (E1 & _).
      destruct H as [-> | [-> | [-> | ->]]]; rewrite E1; cell_bounds.
    + destruct H as [-> | [-> | (i & Hi & H)]]; try cell_bounds.
      destruct (index_arith i Hi) as (_ & E2 & _).
      destruct H as [-> | [-> | [-> | ->]]]; rewrite E2; cell_bounds.
    + rewrite sub_tid by lia. cell_bounds.
Qed.

(** X14. The tables in shared memory are complete only in blocks of more
    than 64 threads.  For an even [N >= 2]: every entry of [params_buf],
    from [-3] to [N - 1], and every entry of [y_vals] is stored by some
    thread of the block exactly when [N < blockDim.x] and
    [64 < blockDim.x]; the lower half of [y_vals] is the work of thread
    64 alone. *)
Theorem tables_initialised_iff (lower : Z -> Z -> Z) (blockDim_x : Z) :
  2 <= N -> N = 2 * K -> 1 <= blockDim_x ->
  ((forall n, -3 <= n < N ->
      stored_by (prologue lower N) blockDim_x params_buf n) /\
   (forall n, 0 <= n < N ->
      stored_by (prologue lower N) blockDim_x y_vals n))
  <-> N < blockDim_x /\ 64 < blockDim_x.
Proof.
  intros HN Heven Hb. destruct K_eq as (EK & HK & HK2). split.
  - intros [Hp Hy]. split.
    + destruct (Hp (N - 1) ltac:(lia)) as (tid & Ht & Hin).
      apply prologue_In in Hin.
      destruct Hin as [[Hle E] | [[-> H] | [[-> H] | E]]];
        [|exfalso..|discriminate].
      * injection E as E. rewrite sub_tid in E by lia. lia.
      * destruct H as [E | [E | [E | [E | (i & Hi & [E | E])]]]];
          try discriminate; injection E as E; lia.
      * destruct H as [E | (i & Hi & [E | E])]; discriminate.
    + destruct (Hy 0 ltac:(lia)) as (tid & Ht & Hin).
      apply prologue_In in Hin.
      destruct Hin as [[Hle E] | [[-> H] | [[-> H] | E]]];
        [discriminate|exfalso|lia|discriminate].
      destruct H as [E | [E | [E | [E | (i & Hi & [E | E])]]]];
        try discriminate.
      injection E as E. destruct (index_arith i Hi) as (E1 & _). lia.
  - intros [H1 H2]. split.
    + intros n Hn.
      assert (Hc : n = -3 \/ n = -2 \/ -1 <= n) by lia.
      destruct Hc as [-> | [-> | Hc]].
      * exists 0. split; [lia|]. apply prologue_In. right. left. tauto.
      * exists 0. split; [lia|]. apply prologue_In. right. left. tauto.
      * exists (n + 1). split; [lia|]. apply prologue_In. left.
        split; [lia|]. rewrite sub_tid by lia. f_equal. lia.
    + intros n Hn. destruct (Z.lt_ge_cases n K) as [Hlt | Hge].
      * exists 64. split; [lia|]. apply prologue_In. right. right. left.
        split; [reflexivity|]. right. exists (K - 1 - n). split; [lia|].
        right. destruct (index_arith (K - 1 - n) ltac:(lia)) as (_ & E2 & _).
        rewrite E2. f_equal. lia.
      * exists 0. split; [lia|]. apply prologue_In. right. left.
        split; [reflexivity|]. do 4 right. exists (n - K). split; [lia|].
        right. destruct (index_arith (n - K) ltac:(lia)) as (E1 & _).
        rewrite E1. f_equal. lia.
Qed.

End SharedFacts.

(** ** The summing reductions *)

Section ReduceFacts.

Import Int32 UInt32 Reduce.

Lemma mod_half (q i r : Z) :
  0 < i -> 0 <= r < i ->
  q mod i = r <-> q mod (2 * i) = r \/ q mod (2 * i) = r + i.
Proof.
  intros Hi Hr.
  pose proof (Z.mod_pos_bound q (2 * i) ltac:(lia)) as Hs.
  pose proof (Z.div_mod q (2 * i) ltac:(lia)) as Hq.
  set (s := q mod (2 * i)) in *. set (a := q / (2 * i)) in *.
  destruct (Z.lt_ge_cases s i) as [Hlt | Hge].
  - assert (E : q mod i = s).
    { symmetry. apply (Z.mod_unique q i (2 * a) s); lia. }
    rewrite E. lia.
  - assert (E : q mod i = s - i).
    { symmetry. apply (Z.mod_unique q i (2 * a + 1) (s - i)); lia. }
    rewrite E. lia.
Qed.

Lemma read_inside (buf : list term) (j : Z) :
  0 <= j < Z.of_nat (List.length buf) ->
  read buf j = Some (nth (Z.to_nat j) buf (Val 0)).
Proof. intros Hj. unfold read. apply nth_error_nth'. lia. Qed.

Lemma pass_spec (active : Z -> bool) (i : Z) (buf : list term) :
  forall vals first,
    0 <= first ->
    (forall t, first <= t < first + Z.of_nat (List.length vals) ->
               active t = true ->
               t + i <= max_int /\ 0 <= t + i < Z.of_nat (List.length buf)) ->
    exists r,
      pass active i buf first vals = Some r /\
      List.length r = List.length vals /\
      forall d, (d < List.length vals)%nat ->
        nth d r (Val 0)
        = if active (first + Z.of_nat d)
          then Plus (nth d vals (Val 0))
                    (nth (Z.to_nat (first + Z.of_nat d + i)) buf (Val 0))
          else nth d vals (Val 0).
Proof.
  induction vals as [|v vals IH]; intros first Hf Hact.
  - exists []. cbn. repeat split. intros d Hd. lia.
  - cbn [List.length] in Hact.
    destruct (IH (first + 1) ltac:(lia)) as (r & Hr & Hl & Hn).
    { intros t Ht. apply Hact. lia. }
    cbn [pass]. rewrite Hr.
    destruct (active first) eqn:Ea.
    + destruct (Hact first ltac:(lia) Ea) as [Hin Hb].
      rewrite to_unsigned_small, read_inside by (assumption || lia).
      cbn [option_map]. eexists. split; [reflexivity|].
      split; [cbn; now rewrite Hl|].
      intros [|d] Hd; cbn [nth].
      * rewrite Z.add_0_r, Ea. reflexivity.
      * rewrite Hn by (cbn in Hd; lia).
        replace (first + 1 + Z.of_nat d) with (first + Z.of_nat (S d)) by lia.
        reflexivity.
    + eexists. split; [reflexivity|].
      split; [cbn; now rewrite Hl|].
      intros [|d] Hd; cbn [nth].
      * rewrite Z.add_0_r, Ea. reflexivity.
      * rewrite Hn by (cbn in Hd; lia).
        replace (first + 1 + Z.of_nat d) with (first + Z.of_nat (S d)) by lia.
        reflexivity.
Qed.

Section Strided.

Variables N D : Z.
Hypothesis N_pos : 1 <= N.
Hypothesis D_small : D <= max_int.

(** After the passes down to stride [M / 2]: thread [tid < M] holds the
    sum over the threads [q] with [q % M == tid], each once. *)
Local Abbreviation sums_mod M vals :=
  (List.length vals = Z.to_nat D /\
   forall tid, 0 <= tid < M ->
     NoDup (leaves (nth (Z.to_nat tid) vals (Val 0))) /\
     forall q, In q (leaves (nth (Z.to_nat tid) vals (Val 0))) <->
               0 <= q < D /\ q mod M = tid).

Lemma initial_sums : 0 <= D -> sums_mod D (initial D).
Proof.
  intros HD. unfold initial. split; [now rewrite length_map, length_seq|].
  intros tid Ht.
  assert (E : nth (Z.to_nat tid)
                  (map (fun n => Val (Z.of_nat n)) (seq 0 (Z.to_nat D)))
                  (Val 0) = Val tid).
  { rewrite (nth_indep _ (Val 0) (Val (Z.of_nat 0)))
      by (rewrite length_map, length_seq; lia).
    rewrite (map_nth (fun n => Val (Z.of_nat n))), seq_nth by lia.
    f_equal. lia. }
  rewrite E. cbn [leaves]. split; [repeat constructor; intros []|].
  intros q. cbn [In]. split.
  - intros [<- | []]. split; [lia|]. apply Z.mod_small. lia.
  - intros [Hq Hm]. left. rewrite Z.mod_small in Hm by lia. lia.
Qed.

Lemma halve (j : nat) :
  N * 2 ^ Z.of_nat (S j) <= D ->
  div (N * 2 ^ Z.of_nat (S j)) 2 = N * 2 ^ Z.of_nat j /\
  N * 2 ^ Z.of_nat (S j) = 2 * (N * 2 ^ Z.of_nat j) /\
  N <= N * 2 ^ Z.of_nat j.
Proof.
  intros HD.
  assert (Hp : 0 < 2 ^ Z.of_nat j) by (apply Z.pow_pos_nonneg; lia).
  assert (E : N * 2 ^ Z.of_nat (S j) = 2 * (N * 2 ^ Z.of_nat j)).
  { rewrite Nat2Z.inj_succ, Z.pow_succ_r by lia. ring. }
  split; [|split; [exact E|nia]].
  unfold div. rewrite Z.quot_div_nonneg by nia.
  rewrite E, Z.mul_comm, Z.div_mul by lia.
  apply wrap_small, in_range_intro. unfold max_int in *. nia.
Qed.

Lemma strided_loop_spec :
  forall j vals fuel,
    (j < fuel)%nat -> N * 2 ^ Z.of_nat j <= D ->
    sums_mod (N * 2 ^ Z.of_nat j) vals ->
    exists vals',
      strided_loop fuel N (div (N * 2 ^ Z.of_nat j) 2) vals = Returned vals'
      /\ sums_mod N vals'.
Proof.
  induction j as [|j IH]; intros vals fuel Hfuel HD Hinv.
  - destruct fuel as [|fuel]; [lia|].
    change (2 ^ Z.of_nat 0) with 1 in *. rewrite Z.mul_1_r in *.
    exists vals. split; [|exact Hinv]. cbn [strided_loop].
    assert (E : div N 2 = N / 2).
    { unfold div. rewrite Z.quot_div_nonneg by lia.
      pose proof (Z.div_pos N 2 ltac:(lia) ltac:(lia)).
      pose proof (Z.mul_div_le N 2 ltac:(lia)).
      apply wrap_small, in_range_intro. unfold max_int in *. lia. }
    rewrite E.
    assert (N / 2 < N) by (apply Z.div_lt; lia).
    destruct (Z.leb_spec N (N / 2)); [lia|reflexivity].
  - destruct fuel as [|fuel]; [lia|].
    destruct (halve j HD) as (Ei & EM & Hle).
    rewrite Ei. set (i := N * 2 ^ Z.of_nat j) in *.
    rewrite EM in Hinv, HD. destruct Hinv as [Hlen Hinv].
    cbn [strided_loop]. destruct (Z.leb_spec N i); [|lia].
    assert (Hult : forall t, 0 <= t < D -> ultb t i = (t <? i))
      by (intros t Ht; apply ultb_small; lia).
    destruct (pass_spec (fun tid => ultb tid i) i vals vals 0 ltac:(lia))
      as (vals1 & Hpass & Hlen1 & Hnth).
    { intros t Ht Hact. rewrite Hlen in Ht.
      rewrite Hult in Hact by lia. apply Z.ltb_lt in Hact.
      rewrite Hlen. lia. }
    rewrite Hpass. apply IH; [lia|lia|].
    split; [congruence|]. intros tid Ht.
    rewrite Hnth by (rewrite Hlen; lia).
    rewrite Z.add_0_l, Z2Nat.id, Hult by lia.
    destruct (Z.ltb_spec tid i); [|lia].
    cbn [leaves].
    destruct (Hinv tid ltac:(lia)) as [Hnd1 Hin1].
    destruct (Hinv (tid + i) ltac:(lia)) as [Hnd2 Hin2].
    split.
    + apply NoDup_app; [assumption|assumption|].
      intros q Hq1 Hq2. apply Hin1 in Hq1. apply Hin2 in Hq2. lia.
    + intros q. rewrite in_app_iff, Hin1, Hin2.
      rewrite (mod_half q i tid) by lia. tauto.
Qed.

(** X15. [strided_reduce_sum] on a block of [N * 2 ^ m] threads, the
    threads taken in lockstep (in each pass the stores to [buf] come
    before the loads, as the barrier has it): the loop ends after [m]
    passes, no load leaves [buf], and thread [n < N] returns a sum in
    which the values of the threads [q] with [q % N == n] occur once each,
    and no others. *)
Theorem strided_reduce_sum_sums (m fuel : nat) :
  D = N * 2 ^ Z.of_nat m -> (m < fuel)%nat ->
  exists vals,
    strided_reduce_sum fuel D N (initial D) = Returned vals /\
    List.length vals = Z.to_nat D /\
    forall n, 0 <= n < N ->
      NoDup (leaves (nth (Z.to_nat n) vals (Val 0))) /\
      forall q, In q (leaves (nth (Z.to_nat n) vals (Val 0))) <->
                0 <= q < D /\ q mod N = n.
Proof.
  intros ED Hfuel.
  assert (Hp : 0 < 2 ^ Z.of_nat m) by (apply Z.pow_pos_nonneg; lia).
  assert (HD : 0 <= D) by nia.
  assert (Eu : udiv D 2 = div D 2).
  { unfold udiv, div.
    rewrite !to_unsigned_small by (unfold max_int in *; lia).
    now rewrite Z.quot_div_nonneg by lia. }
  unfold strided_reduce_sum. rewrite Eu.
  destruct (strided_loop_spec m (initial D) fuel Hfuel) as (vals & Hr & Hs).
  - lia.
  - rewrite <- ED. now apply initial_sums.
  - exists vals. rewrite ED at 1. split; [exact Hr|]. exact Hs.
Qed.

End Strided.

Section Tiled.

Variables threads_per_tile G : Z.
Hypothesis tile_range : 1 <= threads_per_tile <= max_int.
Hypothesis D_small : G * threads_per_tile <= max_int.

Local Abbreviation tpt := threads_per_tile.
Local Abbreviation D := (G * threads_per_tile).

(** After the passes down to stride [M / 2]: a thread whose position in
    its tile is below [M] holds the sum over the threads [q] of its tile
    whose position is the same modulo [M], each once. *)
Local Abbreviation sums_tile M vals :=
  (List.length vals = Z.to_nat D /\
   forall tid, 0 <= tid < D -> tid mod tpt < M ->
     NoDup (leaves (nth (Z.to_nat tid) vals (Val 0))) /\
     forall q, In q (leaves (nth (Z.to_nat tid) vals (Val 0))) <->
               0 <= q /\ q / tpt = tid / tpt /\
               (q mod tpt) mod M = tid mod tpt).

Lemma tile_initial_sums : sums_tile tpt (initial D).
Proof.
  unfold initial. split; [now rewrite length_map, length_seq|].
  intros tid Ht _.
  assert (E : nth (Z.to_nat tid)
                  (map (fun n => Val (Z.of_nat n)) (seq 0 (Z.to_nat D)))
                  (Val 0) = Val tid).
  { rewrite (nth_indep _ (Val 0) (Val (Z.of_nat 0)))
      by (rewrite length_map, length_seq; lia).
    rewrite (map_nth (fun n => Val (Z.of_nat n))), seq_nth by lia.
    f_equal. lia. }
  rewrite E. cbn [leaves]. split; [repeat constructor; intros []|].
  intros q. cbn [In]. rewrite Z.mod_mod by lia. split.
  - intros [<- | []]. repeat split. lia.
  - intros (Hq & Hd & Hm). left.
    pose proof (Z.div_mod q tpt ltac:(lia)).
    pose proof (Z.div_mod tid tpt ltac:(lia)). congruence.
Qed.

Lemma tile_neighbour (tid i : Z) :
  0 <= tid < D -> 0 < i -> 2 * i <= tpt -> tid mod tpt < i ->
  tid + i < D /\ (tid + i) / tpt = tid / tpt /\
  (tid + i) mod tpt = tid mod tpt + i.
Proof.
  intros Ht Hi Hle Hr.
  pose proof (Z.mod_pos_bound tid tpt ltac:(lia)) as Hm.
  pose proof (Z.div_mod tid tpt ltac:(lia)) as Hd.
  assert (Hg : tid / tpt < G)
    by (apply Z.div_lt_upper_bound; [lia|]; rewrite Z.mul_comm; lia).
  assert (E1 : (tid + i) / tpt = tid / tpt).
  { symmetry.
    apply (Z.div_unique (tid + i) tpt (tid / tpt) (tid mod tpt + i)); lia. }
  assert (E2 : (tid + i) mod tpt = tid mod tpt + i).
  { symmetry.
    apply (Z.mod_unique (tid + i) tpt (tid / tpt) (tid mod tpt + i)); lia. }
  split; [nia|]. split; assumption.
Qed.

Lemma tiled_loop_spec :
  forall j vals fuel,
    (j < fuel)%nat -> 2 ^ Z.of_nat j <= tpt ->
    sums_tile (2 ^ Z.of_nat j) vals ->
    exists vals',
      tiled_loop fuel tpt (div (2 ^ Z.of_nat j) 2) vals = Returned vals'
      /\ sums_tile 1 vals'.
Proof.
  induction j as [|j IH]; intros vals fuel Hfuel HD Hinv.
  - destruct fuel as [|fuel]; [lia|].
    change (2 ^ Z.of_nat 0) with 1 in *.
    exists vals. split; [reflexivity|exact Hinv].
  - destruct fuel as [|fuel]; [lia|].
    assert (Hp : 0 < 2 ^ Z.of_nat j) by (apply Z.pow_pos_nonneg; lia).
    assert (EM : 2 ^ Z.of_nat (S j) = 2 * 2 ^ Z.of_nat j)
      by (rewrite Nat2Z.inj_succ, Z.pow_succ_r by lia; ring).
    assert (Ei : div (2 ^ Z.of_nat (S j)) 2 = 2 ^ Z.of_nat j).
    { unfold div. rewrite Z.quot_div_nonneg by lia.
      rewrite EM, Z.mul_comm, Z.div_mul by lia.
      apply wrap_small, in_range_intro. unfold max_int in *. lia. }
    rewrite Ei. set (i := 2 ^ Z.of_nat j) in *.
    rewrite EM in Hinv, HD. destruct Hinv as [Hlen Hinv].
    cbn [tiled_loop]. destruct (Z.ltb_spec 0 i); [|lia].
    assert (Hrem : forall t, 0 <= t < D ->
                             ultb (urem t tpt) i = (t mod tpt <? i)).
    { intros t Ht0. unfold urem.
      pose proof (Z.mod_pos_bound t tpt ltac:(lia)).
      rewrite !to_unsigned_small by lia.
      rewrite wrap_small by (apply in_range_intro; unfold max_int in *; lia).
      apply ultb_small; lia. }
    destruct (pass_spec (fun tid => ultb (urem tid tpt) i) i vals vals 0
                ltac:(lia)) as (vals1 & Hpass & Hlen1 & Hnth).
    { intros t Ht Hact. rewrite Hlen in *. rewrite Hrem in Hact by lia.
      apply Z.ltb_lt in Hact.
      destruct (tile_neighbour t i) as (Hb & _); lia. }
    rewrite Hpass. apply IH; [lia|lia|].
    split; [congruence|]. intros tid Ht Hr.
    rewrite Hnth by (rewrite Hlen; lia).
    rewrite Z.add_0_l, Z2Nat.id, Hrem by lia.
    destruct (Z.ltb_spec (tid mod tpt) i); [|lia].
    cbn [leaves].
    destruct (tile_neighbour tid i) as (Hb & Ed & Em); try lia.
    pose proof (Z.mod_pos_bound tid tpt ltac:(lia)) as Hm.
    destruct (Hinv tid ltac:(lia) ltac:(lia)) as [Hnd1 Hin1].
    destruct (Hinv (tid + i) ltac:(lia) ltac:(lia)) as [Hnd2 Hin2].
    split.
    + apply NoDup_app; [assumption|assumption|].
      intros q Hq1 Hq2. apply Hin1 in Hq1. apply Hin2 in Hq2. lia.
    + intros q. rewrite in_app_iff, Hin1, Hin2, Ed, Em.
      rewrite (mod_half (q mod tpt) i (tid mod tpt)) by lia. tauto.
Qed.

(** X16. [tiled_warp_reduce_sum] with [threads_per_tile] a power of two,
    on a block made of whole tiles, the threads of a tile taken in
    lockstep: the loop ends, no load leaves [buf], and the first thread of
    every tile returns a sum in which the values of the threads of its
    tile occur once each, and no others. *)
Theorem tiled_warp_reduce_sum_sums (a fuel : nat) :
  tpt = 2 ^ Z.of_nat a -> (a < fuel)%nat ->
  exists vals,
    tiled_warp_reduce_sum fuel tpt (initial D) = Returned vals /\
    List.length vals = Z.to_nat D /\
    forall tid, 0 <= tid < D -> tid mod tpt = 0 ->
      NoDup (leaves (nth (Z.to_nat tid) vals (Val 0))) /\
      forall q, In q (leaves (nth (Z.to_nat tid) vals (Val 0))) <->
                tid <= q < tid + tpt.
Proof.
  intros Et Hfuel. unfold tiled_warp_reduce_sum.
  destruct (tiled_loop_spec a (initial D) fuel Hfuel) as (vals & Hr & Hs).
  - lia.
  - rewrite <- Et. exact tile_initial_sums.
  - exists vals. rewrite Et at 2. split; [exact Hr|].
    destruct Hs as [Hlen Hs]. split; [exact Hlen|].
    intros tid Ht Hm. destruct (Hs tid Ht ltac:(lia)) as [Hnd Hin].
    split; [exact Hnd|]. intros q. rewrite Hin, Hm.
    pose proof (Z.div_mod tid tpt ltac:(lia)) as Hd.
    rewrite Hm in Hd. split.
    + intros (Hq & Eq & _).
      pose proof (Z.div_mod q tpt ltac:(lia)).
      pose proof (Z.mod_pos_bound q tpt ltac:(lia)). rewrite Eq in *. lia.
    + intros Hq. split; [lia|]. split; [|apply Z.mod_1_r].
      symmetry.
      apply (Z.div_unique q tpt (tid / tpt) (q - tid)); lia.
Qed.

End Tiled.

End ReduceFacts.

(** ** A call, from the entry point to the stores of the kernel *)

Section EndToEnd.

Import Int32 Host Pointwise.

Variables THREADS_PER_BLOCK p : Z.
Hypothesis p_range : 0 <= p <= 29.
Hypothesis threads_pow : THREADS_PER_BLOCK = 2 ^ p.

Local Abbreviation TPB := THREADS_PER_BLOCK.

Lemma threads_range : 1 <= TPB /\ 2 * TPB <= max_int.
Proof.
  rewrite threads_pow.
  assert (0 < 2 ^ p) by (apply Z.pow_pos_nonneg; lia).
  assert (2 ^ p <= 2 ^ 29) by (apply Z.pow_le_mono_r; lia).
  unfold max_int. lia.
Qed.

Lemma split_threads (ipb k : Z) :
  0 <= k -> ipb = 2 ^ k -> ipb <= TPB ->
  exists T_inc,
    TPB = ipb * T_inc /\ 1 <= T_inc /\ TPB / ipb = T_inc /\
    T_inc = 2 ^ (p - k) /\ 0 <= p - k <= 29 /\ 1 <= ipb.
Proof.
  intros Hk -> Hle. rewrite threads_pow in *.
  assert (Hkp : k <= p) by (apply (Z.pow_le_mono_r_iff 2); lia).
  assert (Hpk : 0 < 2 ^ (p - k)) by (apply Z.pow_pos_nonneg; lia).
  assert (Hpos : 0 < 2 ^ k) by (apply Z.pow_pos_nonneg; lia).
  assert (E : 2 ^ p = 2 ^ k * 2 ^ (p - k)).
  { rewrite <- Z.pow_add_r by lia. f_equal. lia. }
  exists (2 ^ (p - k)). split; [exact E|]. split; [lia|].
  split; [|split; [reflexivity|lia]].
  rewrite E, Z.mul_comm, Z.div_mul by lia. reflexivity.
Qed.

(** X17. A valid non-empty forward call, from the entry point to the
    stores of the kernel.  When [THREADS_PER_BLOCK] is a power of two,
    the grid and the [images_per_thread_block] that
    [mutual_information_cuda] passes to the kernel make every thread
    store inside the output only and no element twice, and give every
    element [(b, t)] of a channel exactly one block row [blockIdx.y] and
    thread that stores it.  The call is valid in that its checks, its
    dispatch and the accessors of its launch pass. *)
Theorem forward_call_stores_every_output_once
    (fuel : nat) (B C T N : Z) (input params : tensor) :
  t_shape input = [B; C; T] ->
  t_shape params = [C; N + 1] ->
  is_cuda (t_device input) = true ->
  is_cuda (t_device params) = true ->
  is_floating (t_dtype input) = true ->
  t_dtype params = t_dtype input ->
  1 <= B -> 1 <= C -> 1 <= T ->
  C * B * T <= max_int -> C * (N + 1) <= max_int -> 2 * T <= max_int ->
  2 * B + THREADS_PER_BLOCK <= max_int ->
  2 <= N -> Z.land N (N - 1) = 0 -> N + 1 <= THREADS_PER_BLOCK ->
  THREADS_PER_BLOCK + 256 < Z.of_nat fuel ->
  exists ipb grid_dim_y,
    mutual_information_cuda THREADS_PER_BLOCK fuel input params []
    = (Ok (mkTensor [B; C; T] (t_dtype input) (t_device input) (Made 0)),
       [OpEmpty [B; C; T] (t_dtype input) (t_device input);
        OpLaunch "mutual_information_kernel"
          (C, grid_dim_y, 1) THREADS_PER_BLOCK (2 * N + 3)
          [input; params;
           mkTensor [B; C; T] (t_dtype input) (t_device input) (Made 0)]
          ipb])
    /\ (forall blockIdx_y tid,
          0 <= blockIdx_y < grid_dim_y -> 0 <= tid < THREADS_PER_BLOCK ->
          NoDup (forward_thread THREADS_PER_BLOCK ipb B T grid_dim_y
                                blockIdx_y tid)
          /\ forall b t,
               In (b, t) (forward_thread THREADS_PER_BLOCK ipb B T
                                         grid_dim_y blockIdx_y tid) ->
               0 <= b < B /\ 0 <= t < T)
    /\ (forall b t, 0 <= b < B -> 0 <= t < T ->
          exists blockIdx_y tid,
            0 <= blockIdx_y < grid_dim_y /\
            0 <= tid < THREADS_PER_BLOCK /\
            In (b, t) (forward_thread THREADS_PER_BLOCK ipb B T grid_dim_y
                                      blockIdx_y tid) /\
            forall blockIdx_y' tid',
              0 <= blockIdx_y' < grid_dim_y ->
              0 <= tid' < THREADS_PER_BLOCK ->
              In (b, t) (forward_thread THREADS_PER_BLOCK ipb B T
                                        grid_dim_y blockIdx_y' tid') ->
              blockIdx_y' = blockIdx_y /\ tid' = tid).
Proof.
  intros Hin Hpar Dn Dp Hfl Tp HB HC HT Hnum Hpn HT2 HBT HN Hl HN1 Hf.
  destruct threads_range as [Hpos Hsmall].
  destruct (forward_launch_trace TPB Hpos Hsmall fuel B C T N input params)
    as (ipb & gdy & k & j & Htr & Hk & Ek & Pf & Pm & _ & _ & _ & _ & _
        & Hg & Hlast); try assumption; [lia|].
  cbv zeta in Htr.
  assert (Hipb : ipb <= TPB).
  { assert (0 < ipb) by (rewrite Ek; apply Z.pow_pos_nonneg; lia).
    destruct Pm as [-> | Pm]; [lia|nia]. }
  destruct (split_threads ipb k Hk Ek Hipb)
    as (T_inc & Es & HTi & Ed & _ & _ & Hi1).
  rewrite Ed in Pf.
  assert (H1 : T <= T_inc \/ ipb = 1) by tauto.
  assert (H2 : 1 <= gdy) by lia.
  assert (H3 : 0 <= B) by lia.
  assert (H4 : 0 <= T) by lia.
  assert (H5 : B + gdy * ipb <= max_int) by lia.
  assert (H6 : T + TPB <= max_int) by lia.
  assert (HIn : forall blockIdx_y tid b t,
             0 <= blockIdx_y < gdy -> 0 <= tid < TPB ->
             In (b, t) (forward_thread TPB ipb B T gdy blockIdx_y tid) <->
             0 <= b < B /\ 0 <= t < T /\
             blockIdx_y = (b / ipb) mod gdy /\
             tid = (b mod ipb) * T_inc + t mod T_inc).
  { intros. apply (forward_thread_In TPB ipb T_inc B T gdy); assumption. }
  exists ipb, gdy. split; [exact Htr|]. split.
  - intros y tid Hy Htid. split.
    + apply (forward_thread_NoDup TPB ipb T_inc B T gdy); assumption.
    + intros b t Hbt. apply HIn in Hbt; [tauto|assumption..].
  - apply (one_writer TPB ipb T_inc B T gdy); assumption.
Qed.

(** X18. The same for [mutual_information_backward_cuda] and
    [input_grad].  The launch also meets what the routing of the
    gradients and the reduction need:
    [THREADS_PER_BLOCK / images_per_thread_block] is a multiple of [N], so
    that the [N] threads of a routing block work on one image, and
    [THREADS_PER_BLOCK] is [N] times a power of two.  The call is valid
    in that its checks, its dispatch and the accessors of its launch
    pass. *)
Theorem backward_call_stores_every_input_grad_once
    (fuel : nat) (B C T N : Z) (input params output_grad : tensor) :
  t_shape input = [B; C; T] ->
  t_shape params = [C; N + 1] ->
  t_shape output_grad = [B; C; T] ->
  is_cuda (t_device input) = true ->
  is_cuda (t_device params) = true ->
  is_cuda (t_device output_grad) = true ->
  is_floating (t_dtype input) = true ->
  t_dtype params = t_dtype input ->
  t_dtype output_grad = t_dtype input ->
  1 <= B -> 1 <= C -> 1 <= T ->
  C * B * T <= max_int -> C * (N + 1) <= max_int -> 2 * T <= max_int ->
  2 * B + THREADS_PER_BLOCK <= max_int ->
  4 <= N <= 16 -> Z.land N (N - 1) = 0 -> N <= THREADS_PER_BLOCK ->
  THREADS_PER_BLOCK + 256 < Z.of_nat fuel ->
  exists ipb grid_dim_y T_inc output tr1 tr2,
    mutual_information_backward_cuda THREADS_PER_BLOCK fuel
      input params output_grad []
    = (Ok output,
       tr1 ++ OpLaunch "mutual_information_backward_kernel"
                (C, grid_dim_y, 1) THREADS_PER_BLOCK (2 * N + 3)
                [input; params; output_grad;
                 mkTensor [B; C; T] (t_dtype input) (t_device input)
                   (Made 0);
                 mkTensor [grid_dim_y; C; N + 1] (t_dtype input)
                   (t_device input) (Made 1)]
                ipb :: tr2)
    /\ existsb is_launch tr1 = false /\ existsb is_launch tr2 = false
    /\ THREADS_PER_BLOCK = ipb * T_inc
    /\ (exists G, 1 <= G /\ T_inc = G * N)
    /\ (exists m : nat, THREADS_PER_BLOCK = N * 2 ^ Z.of_nat m)
    /\ (forall blockIdx_y tid,
          0 <= blockIdx_y < grid_dim_y -> 0 <= tid < THREADS_PER_BLOCK ->
          NoDup (backward_thread THREADS_PER_BLOCK ipb B T grid_dim_y
                                 blockIdx_y tid)
          /\ forall b t,
               In (b, t) (backward_thread THREADS_PER_BLOCK ipb B T
                                          grid_dim_y blockIdx_y tid) ->
               0 <= b < B /\ 0 <= t < T)
    /\ (forall b t, 0 <= b < B -> 0 <= t < T ->
          exists blockIdx_y tid,
            0 <= blockIdx_y < grid_dim_y /\
            0 <= tid < THREADS_PER_BLOCK /\
            In (b, t) (backward_thread THREADS_PER_BLOCK ipb B T grid_dim_y
                                       blockIdx_y tid) /\
            forall blockIdx_y' tid',
              0 <= blockIdx_y' < grid_dim_y ->
              0 <= tid' < THREADS_PER_BLOCK ->
              In (b, t) (backward_thread THREADS_PER_BLOCK ipb B T
                                         grid_dim_y blockIdx_y' tid') ->
              blockIdx_y' = blockIdx_y /\ tid' = tid).
Proof.
  intros Hin Hpar Hog Dn Dp Dg Hfl Tp Tg HB HC HT Hnum Hpn HT2 HBT HN Hl
    HNT Hf.
  destruct threads_range as [Hpos Hsmall].
  destruct (backward_launch_trace TPB Hpos Hsmall fuel B C T N
              input params output_grad)
    as (ipb & gdy & k & j & output & tr1 & tr2 & Htr & L1 & L2 & Hk & Ek
        & PN & Pf & _ & _ & _ & _ & _ & Hg & Hlast);
    try assumption; [lia|].
  assert (Hipos : 0 < ipb) by (rewrite Ek; apply Z.pow_pos_nonneg; lia).
  assert (Hipb : ipb <= TPB).
  { pose proof (Z.mul_div_le TPB ipb Hipos). nia. }
  destruct (split_threads ipb k Hk Ek Hipb)
    as (T_inc & Es & HTi & Ed & Ep & Hpk & Hi1).
  rewrite Ed in Pf, PN.
  destruct (small_power_of_two N HN Hl) as (n0 & Hn0 & En).
  assert (Hnk : n0 <= p - k).
  { apply (Z.pow_le_mono_r_iff 2); [lia|lia|]. rewrite <- En, <- Ep. exact PN. }
  assert (H1 : T <= T_inc \/ ipb = 1) by tauto.
  assert (H2 : 1 <= gdy) by lia.
  assert (H3 : 0 <= B) by lia.
  assert (H4 : 0 <= T) by lia.
  assert (H5 : B + gdy * ipb <= max_int) by lia.
  assert (H6 : T + TPB <= max_int) by lia.
  assert (H7 : 0 <= p - k <= 30) by lia.
  assert (HIn : forall blockIdx_y tid b t,
             0 <= blockIdx_y < gdy -> 0 <= tid < TPB ->
             In (b, t) (backward_thread TPB ipb B T gdy blockIdx_y tid) <->
             0 <= b < B /\ 0 <= t < T /\
             blockIdx_y = (b / ipb) mod gdy /\
             tid = (b mod ipb) * T_inc + t mod T_inc).
  { intros. apply (backward_thread_In TPB ipb T_inc B T gdy) with (k := p - k);
      assumption. }
  exists ipb, gdy, T_inc, output, tr1, tr2.
  split; [exact Htr|]. split; [exact L1|]. split; [exact L2|].
  split; [exact Es|]. split; [|split; [|split]].
  - exists (2 ^ (p - k - n0)).
    assert (0 < 2 ^ (p - k - n0)) by (apply Z.pow_pos_nonneg; lia).
    split; [lia|]. rewrite Ep, En, <- Z.pow_add_r by lia. f_equal. lia.
  - exists (Z.to_nat (p - n0)). rewrite Z2Nat.id by lia.
    rewrite threads_pow, En, <- Z.pow_add_r by lia. f_equal. lia.
  - intros y tid Hy Htid. split.
    + apply (backward_thread_NoDup TPB ipb T_inc B T gdy) with (k := p - k);
        assumption.
    + intros b t Hbt. apply HIn in Hbt; [tauto|assumption..].
  - apply (one_writer TPB ipb T_inc B T gdy); assumption.
Qed.

End EndToEnd.

Section ElementLoopsWitnesses.

Import Int32 Pointwise.

Lemma forward_output_written_once_witness :
  In (3, 1) (forward_thread 8 2 5 3 2 1 5).
Proof.
  destruct (forward_output_written_once 8 2 4 5 3 2
              ltac:(lia) ltac:(lia) eq_refl ltac:(lia) ltac:(lia)
              ltac:(lia) ltac:(lia)
              ltac:(unfold max_int; lia) ltac:(unfold max_int; lia)
              1 5 ltac:(lia) ltac:(lia)) as (_ & H & _).
  apply H. repeat split; lia || reflexivity.
Defined.

Lemma backward_input_grad_written_once_witness :
  In (3, 1) (backward_thread 8 2 5 3 2 1 5).
Proof.
  destruct (backward_input_grad_written_once 8 2 4 5 3 2
              ltac:(lia) ltac:(lia) eq_refl ltac:(lia) ltac:(lia)
              ltac:(lia) ltac:(lia)
              ltac:(unfold max_int; lia) ltac:(unfold max_int; lia)
              2 ltac:(lia) eq_refl
              1 5 ltac:(lia) ltac:(lia)) as (_ & H & _).
  apply H. repeat split; lia || reflexivity.
Defined.

End ElementLoopsWitnesses.

Section SharedWitnesses.

Import Int32 Shared.

Lemma shared_accesses_in_bounds_witness :
  in_bounds 5 4 (place 4 params_grad_buf 3).
Proof.
  destruct (shared_accesses_in_bounds 4 ltac:(lia) 5 ltac:(lia))
    as (_ & H).
  apply (proj2 H ltac:(lia) 3 (mkAccess Store params_grad_buf 3));
    [lia|]. vm_compute. left. reflexivity.
Defined.

Lemma tables_initialised_iff_witness :
  stored_by (prologue forward_lower 4) 128 y_vals 0.
Proof.
  destruct (proj2 (tables_initialised_iff 4 ltac:(lia) forward_lower 128
                     ltac:(lia) eq_refl ltac:(lia))
                  (conj (ltac:(lia) : 4 < 128) (ltac:(lia) : 64 < 128)))
    as [_ H].
  apply H. lia.
Defined.

End SharedWitnesses.

Section ReduceWitnesses.

Import Int32 Reduce.

Lemma strided_reduce_sum_sums_witness :
  exists vals, strided_reduce_sum 3 16 4 (initial 16) = Returned vals.
Proof.
  destruct (strided_reduce_sum_sums 4 16 ltac:(lia)
              ltac:(unfold max_int; lia) 2 3 eq_refl ltac:(lia))
    as (vals & H & _).
  exists vals. exact H.
Defined.

Lemma tiled_warp_reduce_sum_sums_witness :
  exists vals, tiled_warp_reduce_sum 3 4 (initial (2 * 4)) = Returned vals.
Proof.
  destruct (tiled_warp_reduce_sum_sums 4 2 ltac:(unfold max_int; lia)
              ltac:(unfold max_int; lia) 2 3 eq_refl ltac:(lia))
    as (vals & H & _).
  exists vals. exact H.
Defined.

End ReduceWitnesses.

Section EndToEndWitnesses.

Import Int32 Host Pointwise.

Lemma forward_call_stores_every_output_once_witness :
  let input := mkTensor [2; 3; 5] Float (CUDA 0) (Arg "input") in
  let params := mkTensor [3; 9] Float (CUDA 0) (Arg "params") in
  exists ipb grid_dim_y blockIdx_y tid,
    snd (mutual_information_cuda 256 600 input params [])
    = [OpEmpty [2; 3; 5] Float (CUDA 0);
       OpLaunch "mutual_information_kernel" (3, grid_dim_y, 1) 256 19
         [input; params; mkTensor [2; 3; 5] Float (CUDA 0) (Made 0)] ipb]
    /\ 0 <= blockIdx_y < grid_dim_y /\ 0 <= tid < 256
    /\ In (1, 4) (forward_thread 256 ipb 2 5 grid_dim_y blockIdx_y tid).
Proof.
  intros input params.
  destruct (forward_call_stores_every_output_once 256 8 ltac:(lia) eq_refl
              600 2 3 5 8 input params)
    as (ipb & gdy & Hrun & _ & Hw);
    try reflexivity; try (unfold max_int; lia).
  destruct (Hw 1 4 ltac:(lia) ltac:(lia)) as (y & tid & Hy & Ht & Hin & _).
  exists ipb, gdy, y, tid. rewrite Hrun.
  split; [reflexivity|]. split; [exact Hy|]. split; [exact Ht|exact Hin].
Defined.

Lemma backward_call_stores_every_input_grad_once_witness :
  let input := mkTensor [2; 3; 5] Float (CUDA 0) (Arg "input") in
  let params := mkTensor [3; 9] Float (CUDA 0) (Arg "params") in
  let output_grad := mkTensor [2; 3; 5] Float (CUDA 0) (Arg "output_grad") in
  exists ipb grid_dim_y T_inc blockIdx_y tid,
    256 = ipb * T_inc
    /\ (exists output tr1 tr2,
          mutual_information_backward_cuda 256 600 input params
            output_grad []
          = (Ok output,
             tr1 ++ OpLaunch "mutual_information_backward_kernel"
                      (3, grid_dim_y, 1) 256 19
                      [input; params; output_grad;
                       mkTensor [2; 3; 5] Float (CUDA 0) (Made 0);
                       mkTensor [grid_dim_y; 3; 9] Float (CUDA 0) (Made 1)]
                      ipb :: tr2))
    /\ 0 <= blockIdx_y < grid_dim_y /\ 0 <= tid < 256
    /\ In (1, 4) (backward_thread 256 ipb 2 5 grid_dim_y blockIdx_y tid).
Proof.
  intros input params output_grad.
  destruct (backward_call_stores_every_input_grad_once 256 8 ltac:(lia)
              eq_refl 600 2 3 5 8 input params output_grad)
    as (ipb & gdy & T_inc & output & tr1 & tr2 & Hrun & _ & _ & Es & _ & _
        & _ & Hw);
    try reflexivity; try (unfold max_int; lia).
  destruct (Hw 1 4 ltac:(lia) ltac:(lia)) as (y & tid & Hy & Ht & Hin & _).
  exists ipb, gdy, T_inc, y, tid.
  split; [exact Es|]. split; [exists output, tr1, tr2; exact Hrun|].
  split; [exact Hy|]. split; [exact Ht|exact Hin].
Defined.

End EndToEndWitnesses.
